(** * director: port pool, log pump, state manager and dashboard placer

    A shallow embedding of [director/docker_manager.py] and
    [director/state/manager.py].  Python sets of ports are [gset Z],
    environment dicts are [gmap string string], the service table (an
    insertion-ordered dict of mutable records) is an association list,
    and a coroutine that may raise is a function into [result].  The
    engine, the config store, the image catalog and the RPC layer are
    collaborators outside these files: what they answer is an argument of
    the function that awaits them. *)

From stdpp Require Import gmap strings list fin_maps pretty sorting.
From Stdlib.Strings Require Import Byte Ascii.

Open Scope Z_scope.

Set Warnings "-clear-no-such-hyp".

(** ** Exceptions and results *)

(** The exception classes that the modelled code raises, catches or lets
    through. *)
Inductive exn : Type :=
  | KeyError
  | TypeError
  | IndexError
  | StructError
  | DockerError (status : Z)
  | ConnectionRefusedError
  | CancelledError
  | KeyboardInterrupt
  | RuntimeError.


Inductive result (A : Type) : Type :=
  | Return (a : A)
  | Raise (e : exn).
Arguments Return {A} a.
Arguments Raise {A} e.

Definition is_return {A} (r : result A) : bool :=
  match r with Return _ => true | Raise _ => false end.

(** [range(a, b)]: the integers from [a] up to, not including, [b]. *)
Definition range (a b : Z) : list Z := seqZ a (b - a).

(** ** docker_manager.py *)

Module Docker.

(** What the manager reads off a [BandContainer] (band_container.py is a
    wrapper over the engine's answer): its name, its labels, the engine
    status and the host ports its [ports] property reports. *)
Record BandContainer : Type := {
  bc_name : string;
  bc_labels : list string;
  bc_status : string;
  bc_ports : list Z
}.

(** [STATUS_RUNNING] of constants.py: the engine's status of a running
    container, the string that [events_reader] filters by. *)
Definition STATUS_RUNNING : string := "running".

(** The fields of [DockerManager] that the port pool uses. *)
Record DockerManager : Type := {
  start_port : Z;
  end_port : Z;
  reserved_ports : gset Z
}.

(** [__init__]: the pool bounds default to 8900 and 8999, nothing is
    reserved. *)
Definition init (start_p end_p : Z) : DockerManager :=
  {| start_port := start_p; end_port := end_p; reserved_ports := ∅ |}.

Definition set_reserved (dm : DockerManager) (s : gset Z) : DockerManager :=
  {| start_port := start_port dm; end_port := end_port dm;
     reserved_ports := s |}.

(** The engine's [containers.list(all=True, filters=...)]: with [all=True]
    every container is a candidate whatever its status; a [label] filter
    keeps the containers that carry the label, a [status] filter those in
    that status. *)
Definition has_label (l : string) (c : BandContainer) : bool :=
  bool_decide (l ∈ bc_labels c).

Definition engine_match (label : option string) (status : option string)
    (c : BandContainer) : bool :=
  match label with Some l => has_label l c | None => true end &&
  match status with Some s => bool_decide (bc_status c = s) | None => true end.

Definition engine_list (label : option string) (status : option string)
    (engine : list BandContainer) : list BandContainer :=
  List.filter (engine_match label status) engine.

(** [containers(struct=list, status, inband)]. *)
Definition containers_list (status : option string) (inband : bool)
    (engine : list BandContainer) : list BandContainer :=
  engine_list (if inband then Some "inband" else None) status engine.

(** [containers()] with [struct=dict]: [{c.name: c for c in lst}], a later
    container of the same name replacing an earlier one. *)
Definition containers (status : option string) (inband : bool)
    (engine : list BandContainer) : gmap string BandContainer :=
  foldl (λ m c, <[bc_name c := c]> m) ∅ (containers_list status inband engine).

(** [available_ports]: [containers()] is called with its defaults
    ([status=None], [inband=True]). *)
Definition used_ports (conts : gmap string BandContainer) : gset Z :=
  list_to_set (mjoin (bc_ports <$> (snd <$> map_to_list conts))).

Definition available_ports (dm : DockerManager) (engine : list BandContainer)
    : gset Z :=
  list_to_set (range (start_port dm) (end_port dm))
    ∖ used_ports (containers None true engine) ∖ reserved_ports dm.

(** [hold_ports]: [for port in ports: self.reserved_ports.add(port)]. *)
Definition hold_ports (dm : DockerManager) (ports : list Z) : DockerManager :=
  foldl (λ d port, set_reserved d ({[port]} ∪ reserved_ports d)) dm ports.

(** [free_ports]: [for port in ports: self.reserved_ports.add(port)]. *)
Definition free_ports (dm : DockerManager) (ports : list Z) : DockerManager :=
  foldl (λ d port, set_reserved d ({[port]} ∪ reserved_ports d)) dm ports.

(** [set.pop()] removes and returns an arbitrary element and raises
    [KeyError] on the empty set.  Which element comes out is the hash
    table's business: it is a [SetPop], any function that picks a member
    of a non-empty set. *)
Record SetPop : Type := {
  pop_choice : gset Z → option Z;
  pop_choice_elem : ∀ s x, pop_choice s = Some x → x ∈ s;
  pop_choice_empty : ∀ s, pop_choice s = None → s = ∅
}.

Definition set_pop (ch : SetPop) (s : gset Z) : result (Z * gset Z) :=
  match pop_choice ch s with
  | Some x => Return (x, s ∖ {[x]})
  | None => Raise KeyError
  end.

(** [list(available_ports.pop() for p in service_img.ports)]: one pop per
    declared container port; the set shrinks as the generator runs. *)
Fixpoint allocate_ports {A} (ch : SetPop) (img_ports : list A) (avail : gset Z)
    : result (list Z) :=
  match img_ports with
  | [] => Return []
  | _ :: rest =>
      match set_pop ch avail with
      | Raise e => Raise e
      | Return (x, avail') =>
          match allocate_ports ch rest avail' with
          | Raise e => Raise e
          | Return xs => Return (x :: xs)
          end
      end
  end.

(** What the collaborators answer during one [run_container] call.  The
    [try] body gets [allocated_ports] as the [host_ports] entry of the
    dict that [self.container_params] is then merged over; what it builds
    from them and asks of the engine is its own business. *)
Record run_world : Type := {
  rw_image : result (list Z);      (* image_navigator[name], its .ports *)
  rw_build : result unit;          (* create_image *)
  rw_remove : result unit;         (* remove_container *)
  rw_engine : list BandContainer;  (* the engine's containers when listed *)
  rw_run : list Z → result BandContainer
                                   (* the try body: build config, run, fill *)
}.

(** [run_container]: everything before [hold_ports] propagates its
    exception with the manager untouched; the [try] body runs with the
    ports held, [except] re-raises, [finally] calls [free_ports]. *)
Definition run_container (ch : SetPop) (dm : DockerManager) (w : run_world)
    : DockerManager * result BandContainer :=
  match rw_image w with
  | Raise e => (dm, Raise e)
  | Return img_ports =>
      match rw_build w with
      | Raise e => (dm, Raise e)
      | Return _ =>
          match rw_remove w with
          | Raise e => (dm, Raise e)
          | Return _ =>
              let available := available_ports dm (rw_engine w) in
              match allocate_ports ch img_ports available with
              | Raise e => (dm, Raise e)
              | Return allocated_ports =>
                  let dm1 := hold_ports dm allocated_ports in
                  (free_ports dm1 allocated_ports, rw_run w allocated_ports)
              end
          end
      end
  end.

(** *** The log pump *)

Definition bval (b : byte) : Z := Z.of_N (Byte.to_N b).

Definition REPLACEMENT : Z := 0xFFFD.

Definition is_continuation (ch : Z) : bool := (0x80 <=? ch) && (ch <? 0xC0).

(** [bytes.decode('utf-8', 'replace')], the result as its code points.
    The decoder reads a lead byte and up to three continuation bytes; a
    byte that cannot start a sequence, or the longest prefix of a
    sequence that a wrong or missing byte cuts short, becomes one
    U+FFFD and decoding resumes right after it.  Overlong forms,
    surrogates and values above U+10FFFF are rejected at the second
    byte. *)
Fixpoint utf8_decode (s : list Z) : list Z :=
  match s with
  | [] => []
  | ch :: s1 =>
      if ch <? 0x80 then ch :: utf8_decode s1
      else if ch <? 0xC2 then REPLACEMENT :: utf8_decode s1
      else if ch <? 0xE0 then
        match s1 with
        | [] => [REPLACEMENT]
        | ch2 :: s2 =>
            if is_continuation ch2
            then (ch * 64 + ch2 - (0xC0 * 64 + 0x80)) :: utf8_decode s2
            else REPLACEMENT :: utf8_decode s1
        end
      else if ch <? 0xF0 then
        match s1 with
        | [] => [REPLACEMENT]
        | ch2 :: s2 =>
            if negb (is_continuation ch2)
               || (if ch2 <? 0xA0 then ch =? 0xE0 else ch =? 0xED)
            then REPLACEMENT :: utf8_decode s1
            else
              match s2 with
              | [] => [REPLACEMENT]
              | ch3 :: s3 =>
                  if is_continuation ch3
                  then (ch * 4096 + ch2 * 64 + ch3
                        - (0xE0 * 4096 + 0x80 * 64 + 0x80)) :: utf8_decode s3
                  else REPLACEMENT :: utf8_decode s2
              end
        end
      else if ch <? 0xF5 then
        match s1 with
        | [] => [REPLACEMENT]
        | ch2 :: s2 =>
            if negb (is_continuation ch2)
               || (if ch2 <? 0x90 then ch =? 0xF0 else ch =? 0xF4)
            then REPLACEMENT :: utf8_decode s1
            else
              match s2 with
              | [] => [REPLACEMENT]
              | ch3 :: s3 =>
                  if is_continuation ch3
                  then
                    match s3 with
                    | [] => [REPLACEMENT]
                    | ch4 :: s4 =>
                        if is_continuation ch4
                        then (ch * 262144 + ch2 * 4096 + ch3 * 64 + ch4
                              - (0xF0 * 262144 + 0x80 * 4096 + 0x80 * 64 + 0x80))
                             :: utf8_decode s4
                        else REPLACEMENT :: utf8_decode s3
                    end
                  else REPLACEMENT :: utf8_decode s2
              end
        end
      else REPLACEMENT :: utf8_decode s1
  end.

(** [struct.unpack('>L', b)[0]]: four bytes, most significant first;
    any other length is a [struct.error]. *)
Definition unpack_be32 (b : list byte) : result Z :=
  match b with
  | [b0; b1; b2; b3] =>
      Return (bval b0 * 16777216 + bval b1 * 65536 + bval b2 * 256 + bval b3)
  | _ => Raise StructError
  end.

(** The tuple [(now, cid, name, source, size, data)] that is published. *)
Record log_msg : Type := {
  lm_now : Z;
  lm_cid : string;
  lm_name : string;
  lm_source : Z;
  lm_size : Z;
  lm_data : list Z
}.

(** The body of the reader's loop for one [log_record]: [mv[8:]] is
    decoded first, then [mv[0]] is read ([IndexError] on an empty record),
    then [mv[4:8]] is unpacked. *)
Definition read_record (cid name : string) (now : Z) (log_record : list byte)
    : result log_msg :=
  let data := utf8_decode (bval <$> drop 8 log_record) in
  match log_record with
  | [] => Raise IndexError
  | source :: _ =>
      match unpack_be32 (take 4 (drop 4 log_record)) with
      | Raise e => Raise e
      | Return size =>
          Return {| lm_now := now; lm_cid := cid; lm_name := name;
                    lm_source := bval source; lm_size := size;
                    lm_data := data |}
      end
  end.

Inductive reader_state : Type :=
  | Waiting                (* blocked in [subscriber.get()] *)
  | Closed                 (* got [None], left the loop *)
  | Failed (e : exn).      (* an exception ended the coroutine *)

(** [logs_reader]: what the subscriber hands over is a list of items,
    [None] for the end of the stream, otherwise a record together with the
    clock reading [int(time() * 1000)] taken for it.  The result is the
    list of messages published on the channel, in order, and where the
    coroutine stands after the items. *)
Fixpoint logs_reader (cid name : string) (items : list (option (Z * list byte)))
    : list log_msg * reader_state :=
  match items with
  | [] => ([], Waiting)
  | None :: _ => ([], Closed)
  | Some (now, log_record) :: rest =>
      match read_record cid name now log_record with
      | Raise e => ([], Failed e)
      | Return msg =>
          let '(published, st) := logs_reader cid name rest in
          (msg :: published, st)
      end
  end.

(** A frame of the engine's multiplexed log format, as the claim words
    it: eight header bytes, the stream id first, the payload length in the
    last four, then the payload. *)
Record frame : Type := {
  fr_stream : byte;
  fr_pad : byte * byte * byte;
  fr_len : byte * byte * byte * byte;
  fr_payload : list byte
}.

Definition frame_length (f : frame) : Z :=
  let '(l0, l1, l2, l3) := fr_len f in
  bval l0 * 16777216 + bval l1 * 65536 + bval l2 * 256 + bval l3.

Definition frame_bytes (f : frame) : list byte :=
  let '(p1, p2, p3) := fr_pad f in
  let '(l0, l1, l2, l3) := fr_len f in
  fr_stream f :: p1 :: p2 :: p3 :: l0 :: l1 :: l2 :: l3 :: fr_payload f.

(** The header's length field counts the payload bytes. *)
Definition frame_wf (f : frame) : Prop :=
  frame_length f = Z.of_nat (length (fr_payload f)).

Definition frame_msg (cid name : string) (now : Z) (f : frame) : log_msg :=
  {| lm_now := now; lm_cid := cid; lm_name := name;
     lm_source := bval (fr_stream f);
     lm_size := Z.of_nat (length (fr_payload f));
     lm_data := utf8_decode (bval <$> fr_payload f) |}.

End Docker.

(** ** state/manager.py *)

Module State.

(** *** Records of the collaborating modules *)

(** A dashboard position [{col, row}]; a field is [None] until set. *)
Record position : Type := {
  pos_col : option Z;
  pos_row : option Z
}.

(** The status overrides of [..constants]. *)
Inductive status : Type :=
  | STATUS_RESTARTING
  | STATUS_REMOVING
  | STATUS_STARTING
  | STATUS_STOPPING.

(** What [image_navigator.image_meta(name)] answers. *)
Record image_meta : Type := {
  meta_env : option (gmap string string);
  meta_pos : option position;
  meta_native : bool
}.

(** A stored config document: its [env] and [pos] keys, which [get]
    reads, and whether it holds any other key. *)
Record config : Type := {
  cfg_env : option (gmap string string);
  cfg_pos : option position;
  cfg_more : bool
}.

(** The [params] keyword of [get]. *)
Record params : Type := {
  p_pos : option position;
  p_env : option (gmap string string);
  p_build_options : option (gmap string string)
}.

Definition no_params : params :=
  {| p_pos := None; p_env := None; p_build_options := None |}.

(** Modelled from the spec: the service record of state/service.py, which
    is not among the sources.  The fields follow the spec's data model:
    identity, catalog meta, env, build options, grid position, status
    override, last engine state and last application status. *)
Record ServiceState : Type := {
  svc_name : string;
  svc_meta : option image_meta;
  svc_env : gmap string string;
  svc_build_options : gmap string string;
  svc_pos : position;
  svc_status_override : option status;
  svc_dockstate : option string;
  svc_appstate : option string
}.

(** Modelled from the spec: [ServiceState(name=name, manager=self)], a
    record with nothing set yet. *)
Definition new_service (name : string) : ServiceState :=
  {| svc_name := name; svc_meta := None; svc_env := ∅;
     svc_build_options := ∅;
     svc_pos := {| pos_col := None; pos_row := None |};
     svc_status_override := None; svc_dockstate := None;
     svc_appstate := None |}.

Definition with_meta (m : image_meta) (s : ServiceState) : ServiceState :=
  {| svc_name := svc_name s; svc_meta := Some m; svc_env := svc_env s;
     svc_build_options := svc_build_options s; svc_pos := svc_pos s;
     svc_status_override := svc_status_override s;
     svc_dockstate := svc_dockstate s; svc_appstate := svc_appstate s |}.

Definition with_env (e : gmap string string) (s : ServiceState) : ServiceState :=
  {| svc_name := svc_name s; svc_meta := svc_meta s; svc_env := e;
     svc_build_options := svc_build_options s; svc_pos := svc_pos s;
     svc_status_override := svc_status_override s;
     svc_dockstate := svc_dockstate s; svc_appstate := svc_appstate s |}.

Definition with_build_options (b : gmap string string) (s : ServiceState)
    : ServiceState :=
  {| svc_name := svc_name s; svc_meta := svc_meta s; svc_env := svc_env s;
     svc_build_options := b; svc_pos := svc_pos s;
     svc_status_override := svc_status_override s;
     svc_dockstate := svc_dockstate s; svc_appstate := svc_appstate s |}.

Definition with_pos (p : position) (s : ServiceState) : ServiceState :=
  {| svc_name := svc_name s; svc_meta := svc_meta s; svc_env := svc_env s;
     svc_build_options := svc_build_options s; svc_pos := p;
     svc_status_override := svc_status_override s;
     svc_dockstate := svc_dockstate s; svc_appstate := svc_appstate s |}.

Definition with_status_override (o : option status) (s : ServiceState)
    : ServiceState :=
  {| svc_name := svc_name s; svc_meta := svc_meta s; svc_env := svc_env s;
     svc_build_options := svc_build_options s; svc_pos := svc_pos s;
     svc_status_override := o;
     svc_dockstate := svc_dockstate s; svc_appstate := svc_appstate s |}.

Definition with_dockstate (d : option string) (s : ServiceState) : ServiceState :=
  {| svc_name := svc_name s; svc_meta := svc_meta s; svc_env := svc_env s;
     svc_build_options := svc_build_options s; svc_pos := svc_pos s;
     svc_status_override := svc_status_override s;
     svc_dockstate := d; svc_appstate := svc_appstate s |}.

Definition with_appstate (a : option string) (s : ServiceState) : ServiceState :=
  {| svc_name := svc_name s; svc_meta := svc_meta s; svc_env := svc_env s;
     svc_build_options := svc_build_options s; svc_pos := svc_pos s;
     svc_status_override := svc_status_override s;
     svc_dockstate := svc_dockstate s; svc_appstate := a |}.

(** Modelled from the spec: the override is set when an operation begins
    and [clean_status()] clears it. *)
Definition set_status_override (st : status) : ServiceState → ServiceState :=
  with_status_override (Some st).

Definition clean_status : ServiceState → ServiceState :=
  with_status_override None.

(** Modelled from the spec: [merge_dicts] of helpers.py, applied to the env layers, the layers
    merged left to right, a later layer winning. *)
Definition merge_dicts (envs : list (gmap string string)) : gmap string string :=
  foldl (λ acc e, e ∪ acc) ∅ envs.

(** The two readings of [ServiceState.set_env(env)] that the name allows:
    the stored env becomes [env], or [env] is laid over the stored one. *)
Definition set_env_replace (old new : gmap string string) : gmap string string :=
  new.
Definition set_env_update (old new : gmap string string) : gmap string string :=
  new ∪ old.

(** [f"{col}x{row}"]: the key under which a cell is looked up. *)
Definition cell_key (c r : Z) : string := pretty c +:+ "x" +:+ pretty r.

(** Modelled from the spec: [pos.to_s()] renders a position the way
    [_allocate] renders a candidate cell, so that the two can be compared. *)
Definition to_s (p : position) : option string :=
  match pos_col p, pos_row p with
  | Some c, Some r => Some (cell_key c r)
  | _, _ => None
  end.

(** *** The manager *)

Inductive hashval : Type :=
  | EmptyStr               (* the initial [''] *)
  | HashInt (h : Z).

Global Instance hashval_eq_dec : EqDecision hashval.
Proof. solve_decision. Defined.

(** The fields of [StateManager] set by [__init__]: a 6 by 6 grid, an
    empty table, no shared config, the hash [''].  The table is the dict
    [_state]; its order is insertion order. *)
Record StateManager : Type := {
  cols : Z;
  rows : Z;
  _state : list (string * ServiceState);
  _shared_config : option config;
  registrations_hash : hashval
}.

Definition init : StateManager :=
  {| cols := 6; rows := 6; _state := []; _shared_config := None;
     registrations_hash := EmptyStr |}.

Definition with_state (t : list (string * ServiceState)) (m : StateManager)
    : StateManager :=
  {| cols := cols m; rows := rows m; _state := t;
     _shared_config := _shared_config m;
     registrations_hash := registrations_hash m |}.

Definition with_shared_config (c : option config) (m : StateManager)
    : StateManager :=
  {| cols := cols m; rows := rows m; _state := _state m;
     _shared_config := c; registrations_hash := registrations_hash m |}.

Definition with_registrations_hash (h : hashval) (m : StateManager)
    : StateManager :=
  {| cols := cols m; rows := rows m; _state := _state m;
     _shared_config := _shared_config m; registrations_hash := h |}.

(** Dict operations on the table. *)
Fixpoint lookup_svc (name : string) (t : list (string * ServiceState))
    : option ServiceState :=
  match t with
  | [] => None
  | (k, s) :: rest => if String.eqb k name then Some s else lookup_svc name rest
  end.

(** [self._state[name] = svc]: in place when the key exists, appended
    otherwise. *)
Fixpoint store_svc (name : string) (svc : ServiceState)
    (t : list (string * ServiceState)) : list (string * ServiceState) :=
  match t with
  | [] => [(name, svc)]
  | (k, s) :: rest =>
      if String.eqb k name then (k, svc) :: rest
      else (k, s) :: store_svc name svc rest
  end.

(** A method call on the record held under [name] (records are shared
    objects: the caller's [svc] and the table's entry are the same one). *)
Definition update_svc (name : string) (f : ServiceState → ServiceState)
    (t : list (string * ServiceState)) : list (string * ServiceState) :=
  match lookup_svc name t with
  | Some s => store_svc name (f s) t
  | None => t
  end.

(** *** Coroutines as state-passing functions

    A coroutine of the manager reads and mutates the manager, sends
    requests and log lines out (the trace of [event]s), and either returns
    or raises; a raise keeps the mutations made so far. *)

Inductive payload : Type :=
  | NoPayload
  | FrontierPayload (register : list string) (state_hash : hashval).

Inductive event : Type :=
  | RpcRequest (name : string) (p : payload)   (* rpc.request(name, REQUEST_STATUS, ...) *)
  | LogError (msg : string)
  | LogWarn (msg : string)
  | LogException (msg : string).

Definition M (A : Type) : Type :=
  StateManager → StateManager * list event * result A.

Definition ret {A} (a : A) : M A := λ m, (m, [], Return a).

Definition bind {A B} (c : M A) (k : A → M B) : M B := λ m,
  match c m with
  | (m1, tr1, Raise e) => (m1, tr1, Raise e)
  | (m1, tr1, Return a) =>
      let '(m2, tr2, r) := k a m1 in (m2, tr1 ++ tr2, r)
  end.

Notation "x <- c ;; k" := (bind c (λ x, k))
  (at level 100, c at next level, right associativity).
Notation "c ;;; k" := (bind c (λ _, k))
  (at level 100, right associativity).

Definition raise {A} (e : exn) : M A := λ m, (m, [], Raise e).
Definition lift {A} (r : result A) : M A := λ m, (m, [], r).
Definition manager : M StateManager := λ m, (m, [], Return m).
Definition modify (f : StateManager → StateManager) : M unit :=
  λ m, (f m, [], Return tt).
Definition emit (e : event) : M unit := λ m, (m, [e], Return tt).

(** [try: c] with the outcome handed to the [except] clauses. *)
Definition try {A} (c : M A) : M (result A) := λ m,
  let '(m1, tr, r) := c m in (m1, tr, Return r).

Fixpoint for_each {A} (l : list A) (body : A → M unit) : M unit :=
  match l with
  | [] => ret tt
  | a :: rest => body a ;;; for_each rest body
  end.

(** A method call on the record stored under [name]. *)
Definition on_svc (name : string) (f : ServiceState → ServiceState) : M unit :=
  modify (λ m, with_state (update_svc name f (_state m)) m).

(** What the collaborators answer while one operation runs. *)
Record world : Type := {
  w_load_config : string → result (option config);     (* band_config.load_config *)
  w_image_meta : string → result (option image_meta);  (* image_navigator.image_meta *)
  w_set_add : string → result unit;                    (* band_config.set_add(STARTED_SET, name) *)
  w_set_rm : string → result unit;                     (* band_config.set_rm(STARTED_SET, name) *)
  w_containers : result (list string);                 (* dock.containers(struct=list), the names *)
  w_dock_get : string → result (option string);        (* dock.get(name), its full_state() *)
  w_run_container : string → result unit;              (* dock.run_container *)
  w_remove_container : string → result unit;           (* dock.remove_container *)
  w_stop_container : string → result unit;             (* dock.stop_container *)
  w_start_container : string → result unit;            (* dock.start_container *)
  w_restart_container : string → result unit;          (* dock.restart_container *)
  w_rpc_request : string → result string;              (* rpc.request *)
  w_sleep : result unit;                               (* asyncio.sleep(5) *)
  w_sleep_tail : result unit                           (* asyncio.sleep(1) *)
}.

Section Manager.

(** Constants of [band.constants] and [..constants]. *)
Variable FRONTIER_SERVICE : string.
Variable SHARED_CONFIG_KEY : string.
Variables DEFAULT_COL DEFAULT_ROW : Z.

(** [ServiceState.set_env]: the record's env after the call, from the env
    before and the argument (see [set_env_replace], [set_env_update]). *)
Variable set_env : gmap string string → gmap string string → gmap string string.

(** [ServiceState.is_active()] and [ServiceState.methods], read off the
    record. *)
Variable is_active : ServiceState → bool.
Variable methods : ServiceState → list string.

(** [ujson.dumps] of [dict(register=methods)] and the built-in [hash],
    both functions of their argument within one process. *)
Variable dumps : list string → string.
Variable hash : string → Z.

(** **** Dashboard tile *)

(** [_space_walk]: a generator; its yields in order. *)
Definition _space_walk (m : StateManager) (scol srow : Z) : list (Z * Z) :=
  (* first part *)
  flat_map (λ rowi, map (λ coli, (coli, rowi)) (range scol (cols m)))
           (range srow (rows m))
  (* back side *)
  ++ flat_map (λ rowi, map (λ coli, (coli, rowi)) (range 0 scol))
              (range 0 srow).

(** [nn(x)] of helpers.py, which is not among the sources; read as its
    uses demand: [x] is not [None]. *)
Definition nn {A} (x : option A) : bool :=
  match x with Some _ => true | None => false end.

(** [_occupied]. *)
Definition _occupied (m : StateManager) (exclude : string) : list string :=
  flat_map (λ '(_, srv),
    if negb (String.eqb (svc_name srv) exclude)
       && nn (pos_col (svc_pos srv)) && nn (pos_row (svc_pos srv))
    then match to_s (svc_pos srv) with Some k => [k] | None => [] end
    else []) (_state m).

Definition key_in (key : string) (occupied : list string) : bool :=
  existsb (String.eqb key) occupied.

(** The [for] loop of [_allocate] over the walk, returning at the first
    key that is not in [occupied]; falling off the end returns [None]. *)
Fixpoint first_free (occupied : list string) (walk : list (Z * Z))
    : option (Z * Z) :=
  match walk with
  | [] => None
  | (icol, irow) :: rest =>
      if negb (key_in (cell_key icol irow) occupied) then Some (icol, irow)
      else first_free occupied rest
  end.

Definition _allocate (m : StateManager) (name : string) (col row : Z)
    : option (Z * Z) :=
  let occupied := _occupied m name in
  first_free occupied (_space_walk m col row).

(** Modelled from the spec: [svc.set_pos(col=..., row=...)] stores the
    position. *)
Definition set_pos (c r : Z) : ServiceState → ServiceState :=
  with_pos {| pos_col := Some c; pos_row := Some r |}.

(** **** Config store *)

(** Truth value of what the config store answers: [None] and the empty
    document are false. *)
Definition truthy_config (c : option config) : bool :=
  match c with
  | Some cf => nn (cfg_env cf) || nn (cfg_pos cf) || cfg_more cf
  | None => false
  end.

(** [load_config]: the shared document, if it is there and not empty, is
    cached on the way. *)
Definition load_config (w : world) (name : string) : M (option config) :=
  config <- lift (w_load_config w name) ;;
  (if String.eqb name SHARED_CONFIG_KEY && truthy_config config
   then modify (with_shared_config config) else ret tt) ;;;
  ret config.

(** **** Container management *)

(** Truth value of an int and of a dict. *)
Definition truthy_int (z : Z) : bool := negb (z =? 0).
Definition truthy_env (e : option (gmap string string)) : bool :=
  match e with Some d => negb (bool_decide (d = ∅)) | None => false end.

Definition env_layer (e : option (gmap string string)) : list (gmap string string) :=
  match e with
  | Some d => if truthy_env e then [d] else []
  | None => []
  end.

(** A position document whose [col] and [row] are both not [None]. *)
Definition pos_nn (p : option position) : option (Z * Z) :=
  match p with
  | Some {| pos_col := Some c; pos_row := Some r |} => Some (c, r)
  | _ => None
  end.

(** [params.pos and params.pos.col and params.pos.row]. *)
Definition params_pos (ps : params) : option (Z * Z) :=
  match pos_nn (p_pos ps) with
  | Some (c, r) => if truthy_int c && truthy_int r then Some (c, r) else None
  | None => None
  end.

(** The [if name not in self._state] block of [get]: the record is
    created and stored; the env layers found and the wanted position are
    handed on. *)
Definition load_state (w : world) (name : string) (wanted_pos : option (Z * Z))
    : M (list (gmap string string) * option (Z * Z)) :=
  config <- load_config w name ;;
  meta <- lift (w_image_meta w name) ;;
  let envs :=
    match meta with Some mt => env_layer (meta_env mt) | None => [] end ++
    match config with Some cf => env_layer (cfg_env cf) | None => [] end in
  let svc := new_service name in
  let svc := match meta with Some mt => with_meta mt svc | None => svc end in
  let wanted_pos :=
    match wanted_pos, config with
    | None, Some cf => pos_nn (cfg_pos cf)
    | _, _ => wanted_pos
    end in
  let wanted_pos :=
    match wanted_pos, meta with
    | None, Some mt => pos_nn (meta_pos mt)
    | _, _ => wanted_pos
    end in
  let wanted_pos :=
    match wanted_pos with
    | None => Some (DEFAULT_COL, DEFAULT_ROW)
    | Some _ => wanted_pos
    end in
  modify (λ m, with_state (store_svc name svc (_state m)) m) ;;;
  ret (envs, wanted_pos).

(** [svc = self._state[name]]. *)
Definition the_svc (name : string) : M ServiceState :=
  m <- manager ;;
  match lookup_svc name (_state m) with
  | Some svc => ret svc
  | None => raise KeyError
  end.

(** [get(name, params=...)]. *)
Definition get (w : world) (name : string) (ps : params) : M ServiceState :=
  let wanted_pos := params_pos ps in
  m <- manager ;;
  loaded <- match lookup_svc name (_state m) with
            | None => load_state w name wanted_pos
            | Some _ => ret ([], wanted_pos)
            end ;;
  let '(envs, wanted_pos) := loaded in
  the_svc name ;;;
  (* Container env *)
  let envs := envs ++ env_layer (p_env ps) in
  (if bool_decide (envs = [])
   then ret tt
   else on_svc name (λ s, with_env (set_env (svc_env s) (merge_dicts envs)) s)) ;;;
  match p_build_options ps with
  | Some bo => if negb (bool_decide (bo = ∅))
               then on_svc name (with_build_options bo) else ret tt
  | None => ret tt
  end ;;;
  match wanted_pos with
  | Some (col, row) =>
      m <- manager ;;
      match _allocate m name col row with
      | Some (icol, irow) => on_svc name (set_pos icol irow)
      | None => raise TypeError   (* set_pos with a None argument list *)
      end
  | None => ret tt
  end ;;;
  the_svc name.

(** [svc.native]: a record without catalog meta is not native. *)
Definition native (svc : ServiceState) : bool :=
  match svc_meta svc with Some mt => meta_native mt | None => false end.

(** **** State functions *)

(** [registrations]: the methods of the active records, in table order;
    the result is [dict(register=methods)]. *)
Definition registrations (m : StateManager) : list string :=
  flat_map (λ '(_, svc), if is_active svc then methods svc else []) (_state m).

(** [resolve_docstatus]; [set_dockstate] stores the engine state read. *)
Definition resolve_docstatus (w : world) (name : string) : M unit :=
  get w name no_params ;;;
  container <- lift (w_dock_get w name) ;;
  match container with
  | Some full_state => on_svc name (with_dockstate (Some full_state))
  | None => ret tt
  end.

Definition resolve_docstatus_all (w : world) : M unit :=
  conts <- lift (w_containers w) ;;
  for_each conts (resolve_docstatus w).

(** [request_app_state]: the request goes out, then the answer (or the
    exception) comes back. *)
Definition request_app_state (w : world) (name : string) : M unit :=
  get w name no_params ;;;
  m <- manager ;;
  let payload :=
    if String.eqb name FRONTIER_SERVICE
    then FrontierPayload (registrations m) (registrations_hash m)
    else NoPayload in
  emit (RpcRequest name payload) ;;;
  status <- lift (w_rpc_request w name) ;;
  on_svc name (with_appstate (Some status)).

(** [check_regs_changed]. *)
Definition check_regs_changed (w : world) : M unit :=
  m <- manager ;;
  let new_hash := HashInt (hash (dumps (registrations m))) in
  if bool_decide (new_hash ≠ registrations_hash m) then
    modify (with_registrations_hash new_hash) ;;;
    request_app_state w FRONTIER_SERVICE
  else ret tt.

(** **** Lifecycle operations

    Each operation is modelled as awaited ([no_wait=False]); with
    [no_wait=True] the same coroutine is handed to the scheduler and runs
    detached. *)

(** [_do_run_service]: the env handed to the driver (the shared env
    updated with the record's) and the build options are arguments of the
    driver call, whose outcome the world gives; [svc.save_config()] hands
    the document to the scheduler and does not touch the manager. *)
Definition _do_run_service (w : world) (name : string) : M unit :=
  get w name no_params ;;;
  lift (w_run_container w name) ;;;
  lift (w_set_add w name) ;;;
  resolve_docstatus w name.

Definition run_service (w : world) (name : string) : M ServiceState :=
  get w name no_params ;;;
  on_svc name clean_status ;;;
  on_svc name (set_status_override STATUS_STARTING) ;;;
  _do_run_service w name ;;;
  the_svc name.

Definition _do_remove_service (w : world) (name : string) : M unit :=
  get w name no_params ;;;
  lift (w_remove_container w name) ;;;
  on_svc name clean_status.

Definition remove_service (w : world) (name : string) : M ServiceState :=
  get w name no_params ;;;
  lift (w_set_rm w name) ;;;
  on_svc name (set_status_override STATUS_REMOVING) ;;;
  _do_remove_service w name ;;;
  the_svc name.

Definition _do_stop_service (w : world) (name : string) : M unit :=
  get w name no_params ;;;
  lift (w_stop_container w name) ;;;
  on_svc name clean_status.

Definition stop_service (w : world) (name : string) : M ServiceState :=
  get w name no_params ;;;
  lift (w_set_rm w name) ;;;
  on_svc name (set_status_override STATUS_STOPPING) ;;;
  _do_stop_service w name ;;;
  the_svc name.

Definition _do_start_service (w : world) (name : string) : M unit :=
  get w name no_params ;;;
  lift (w_start_container w name) ;;;
  on_svc name clean_status.

Definition start_service (w : world) (name : string) : M ServiceState :=
  svc <- get w name no_params ;;
  (if native svc then lift (w_set_add w name) else ret tt) ;;;
  on_svc name (set_status_override STATUS_STARTING) ;;;
  _do_start_service w name ;;;
  the_svc name.

Definition _do_restart_service (w : world) (name : string) : M unit :=
  container <- lift (w_dock_get w name) ;;
  get w name no_params ;;;
  match container with
  | Some _ =>
      on_svc name clean_status ;;;
      lift (w_restart_container w name) ;;;
      on_svc name clean_status ;;;
      check_regs_changed w
  | None => ret tt
  end.

Definition restart_service (w : world) (name : string) : M ServiceState :=
  get w name no_params ;;;
  on_svc name (set_status_override STATUS_RESTARTING) ;;;
  _do_restart_service w name ;;;
  the_svc name.

(** **** The reconciler *)

(** Is the class derived from [Exception] (and so caught by a bare
    [except Exception])? *)
Definition is_exception (e : exn) : bool :=
  match e with
  | KeyboardInterrupt | CancelledError => false
  | _ => true
  end.

Inductive loop_state : Type :=
  | Looping     (* about to start the next iteration *)
  | Broke.      (* left the [while True] through [break] *)

(** [clean_worker]: one [world] per iteration of the [while True] loop.
    An exception that no clause catches, or one raised by the sleep that
    follows the [try], ends the coroutine as the [Raise] of the result. *)
Fixpoint clean_worker (ticks : list world) : M loop_state :=
  match ticks with
  | [] => ret Looping
  | w :: rest =>
      r <- try (lift (w_sleep w) ;;;
                resolve_docstatus_all w ;;;
                check_regs_changed w) ;;
      match r with
      | Return _ => lift (w_sleep_tail w) ;;; clean_worker rest
      | Raise ConnectionRefusedError =>
          emit (LogError "Redis connection refused") ;;;
          lift (w_sleep_tail w) ;;; clean_worker rest
      | Raise CancelledError =>
          emit (LogWarn "Asyncio cancelled") ;;;
          ret Broke
      | Raise e =>
          if is_exception e then
            emit (LogException "state initialize") ;;;
            lift (w_sleep_tail w) ;;; clean_worker rest
          else raise e
      end
  end.

End Manager.

(** A world in which every collaborator answers and nothing is found. *)
Definition quiet : world :=
  {| w_load_config := λ _, Return None;
     w_image_meta := λ _, Return None;
     w_set_add := λ _, Return tt;
     w_set_rm := λ _, Return tt;
     w_containers := Return [];
     w_dock_get := λ _, Return None;
     w_run_container := λ _, Return tt;
     w_remove_container := λ _, Return tt;
     w_stop_container := λ _, Return tt;
     w_start_container := λ _, Return tt;
     w_restart_container := λ _, Return tt;
     w_rpc_request := λ _, Return "ok";
     w_sleep := Return tt;
     w_sleep_tail := Return tt |}.

End State.

(** * Properties of the port pool *)

Section PortPool.

Import Docker.

Implicit Types (dm : DockerManager) (engine : list BandContainer).
Implicit Types (ports : list Z) (p : Z).

Lemma elem_of_range a b k : k ∈ range a b ↔ a ≤ k < b.
Proof. unfold range. rewrite elem_of_seqZ. lia. Qed.

Lemma NoDup_range a b : NoDup (range a b).
Proof. apply NoDup_seqZ. Qed.

(** A concrete [set.pop]: the first element of the set's listing. *)
Definition first_elem (s : gset Z) : option Z := head (elements s).

Lemma first_elem_elem s x : first_elem s = Some x → x ∈ s.
Proof.
  unfold first_elem. intros H. apply elem_of_elements.
  destruct (elements s) as [|y l]; simplify_eq/=. left.
Qed.

Lemma first_elem_empty s : first_elem s = None → s = ∅.
Proof.
  unfold first_elem. intros H. apply leibniz_equiv, elements_empty_inv.
  destruct (elements s); [constructor | discriminate].
Qed.

Definition pop_first : SetPop :=
  {| pop_choice := first_elem;
     pop_choice_elem := first_elem_elem;
     pop_choice_empty := first_elem_empty |}.

Lemma hold_ports_reserved dm ports :
  reserved_ports (hold_ports dm ports) = list_to_set ports ∪ reserved_ports dm.
Proof.
  unfold hold_ports. revert dm.
  induction ports as [|q ports IHp]; intros dm; simpl.
  - by rewrite (left_id_L ∅ (∪)).
  - rewrite IHp. simpl.
    rewrite (comm_L (∪) {[q]} (list_to_set ports)).
    by rewrite (assoc_L (∪)).
Qed.

Lemma hold_ports_bounds dm ports :
  start_port (hold_ports dm ports) = start_port dm ∧
  end_port (hold_ports dm ports) = end_port dm.
Proof.
  unfold hold_ports. revert dm.
  induction ports as [|q ports IH]; intros dm; simpl; [done|].
  destruct (IH (set_reserved dm ({[q]} ∪ reserved_ports dm))) as [-> ->]. done.
Qed.

(** [free_ports] is [hold_ports] under another name. *)
Lemma free_ports_is_hold_ports dm ports : free_ports dm ports = hold_ports dm ports.
Proof. reflexivity. Qed.

Lemma free_ports_reserved dm ports :
  reserved_ports (free_ports dm ports) = list_to_set ports ∪ reserved_ports dm.
Proof. apply hold_ports_reserved. Qed.

(** The dict that [containers()] builds holds, under each name, a
    container of the listing that carries that name. *)
Lemma foldl_insert_lookup (l : list BandContainer) (m0 : gmap string BandContainer)
    n c :
  foldl (λ m c, <[bc_name c := c]> m) m0 l !! n = Some c →
  (c ∈ l ∧ bc_name c = n) ∨ m0 !! n = Some c.
Proof.
  revert m0. induction l as [|d l IH]; intros m0 H; simpl in *; [by right|].
  destruct (IH _ H) as [[Hin Hn]|Hl].
  - left. split; [by right | done].
  - destruct (decide (bc_name d = n)) as [Heq|Hne].
    + subst n. rewrite lookup_insert_eq in Hl. simplify_eq. left. split; [left|done].
    + rewrite lookup_insert_ne in Hl by done. by right.
Qed.

Lemma foldl_insert_lookup_notin (l : list BandContainer)
    (m0 : gmap string BandContainer) n :
  n ∉ bc_name <$> l →
  foldl (λ m c, <[bc_name c := c]> m) m0 l !! n = m0 !! n.
Proof.
  revert m0. induction l as [|d l IH]; intros m0 Hn; simpl in *; [done|].
  apply not_elem_of_cons in Hn as [Hne Hn].
  rewrite IH by done. by rewrite lookup_insert_ne.
Qed.

Lemma foldl_insert_lookup_nodup (l : list BandContainer)
    (m0 : gmap string BandContainer) c :
  NoDup (bc_name <$> l) → c ∈ l →
  foldl (λ m c, <[bc_name c := c]> m) m0 l !! bc_name c = Some c.
Proof.
  revert m0. induction l as [|d l IH]; intros m0 Hnd Hin; simpl in *.
  - by apply elem_of_nil in Hin.
  - apply NoDup_cons in Hnd as [Hd Hnd].
    apply elem_of_cons in Hin as [->|Hin]; [|by apply IH].
    rewrite foldl_insert_lookup_notin by done. apply lookup_insert_eq.
Qed.

Lemma elem_of_used_ports (conts : gmap string BandContainer) p :
  p ∈ used_ports conts ↔ ∃ n c, conts !! n = Some c ∧ p ∈ bc_ports c.
Proof.
  unfold used_ports. rewrite elem_of_list_to_set, list_elem_of_join. split.
  - intros (ps & Hp & Hps).
    apply list_elem_of_fmap in Hps as (c & -> & Hc).
    apply list_elem_of_fmap in Hc as ([n c'] & -> & Hc).
    apply elem_of_map_to_list in Hc. eauto.
  - intros (n & c & Hc & Hp). exists (bc_ports c). split; [done|].
    apply list_elem_of_fmap. exists c. split; [done|].
    apply list_elem_of_fmap. exists (n, c). split; [done|].
    by apply elem_of_map_to_list.
Qed.

Lemma elem_of_containers_list status inband engine c :
  c ∈ containers_list status inband engine ↔
  c ∈ engine ∧
  engine_match (if inband then Some "inband" else None) status c = true.
Proof.
  unfold containers_list, engine_list.
  rewrite !list_elem_of_In, filter_In. done.
Qed.

Lemma containers_list_names_nodup status inband engine :
  NoDup (bc_name <$> engine) →
  NoDup (bc_name <$> containers_list status inband engine).
Proof.
  unfold containers_list, engine_list.
  generalize (engine_match (if inband then Some "inband" else None) status).
  intros f. induction engine as [|d l IH]; simpl; [done|].
  intros [Hd Hnd]%NoDup_cons. destruct (f d); simpl; [|by apply IH].
  apply NoDup_cons. split; [|by apply IH].
  intros (c & Hn & Hc)%list_elem_of_fmap. apply Hd.
  apply list_elem_of_fmap. exists c. split; [done|].
  apply list_elem_of_In, filter_In in Hc as [Hc _]. by apply list_elem_of_In.
Qed.

(** With distinct names, the dict of [containers()] holds exactly the
    listed containers. *)
Lemma containers_lookup status inband engine n c :
  NoDup (bc_name <$> engine) →
  containers status inband engine !! n = Some c ↔
  c ∈ containers_list status inband engine ∧ bc_name c = n.
Proof.
  intros Hnd. unfold containers. split.
  - intros H. apply foldl_insert_lookup in H as [?|H]; [done|].
    by rewrite lookup_empty in H.
  - intros [Hc <-]. apply foldl_insert_lookup_nodup; [|done].
    by apply containers_list_names_nodup.
Qed.

Lemma elem_of_available_ports dm engine p :
  p ∈ available_ports dm engine ↔
  start_port dm ≤ p < end_port dm ∧
  (∀ n c, containers None true engine !! n = Some c → p ∉ bc_ports c) ∧
  p ∉ reserved_ports dm.
Proof.
  unfold available_ports.
  rewrite !elem_of_difference, elem_of_list_to_set, elem_of_range,
    elem_of_used_ports.
  naive_solver.
Qed.

(** [set.pop] and the generator of [run_container]. *)
Lemma set_pop_spec (ch : SetPop) (s : gset Z) :
  match set_pop ch s with
  | Return (x, s') => x ∈ s ∧ s' = s ∖ {[x]}
  | Raise e => e = KeyError ∧ s = ∅
  end.
Proof.
  unfold set_pop. destruct (pop_choice ch s) as [x|] eqn:E.
  - split; [by eapply pop_choice_elem | done].
  - split; [done | by eapply pop_choice_empty].
Qed.





(** A run attempt never shrinks the reservation set. *)
Lemma run_container_reserved_mono (ch : SetPop) dm (w : run_world) :
  reserved_ports dm ⊆ reserved_ports (fst (run_container ch dm w)).
Proof.
  unfold run_container.
  destruct (rw_image w); [|done]. destruct (rw_build w); [|done].
  destruct (rw_remove w); [|done].
  destruct (allocate_ports _ _ _); [|done]. simpl.
  rewrite free_ports_reserved, hold_ports_reserved. set_solver.
Qed.

(** What a run attempt that got its ports leaves reserved. *)
Lemma run_container_reserved (ch : SetPop) dm (w : run_world) img_ports allocated :
  rw_image w = Return img_ports →
  is_return (rw_build w) = true → is_return (rw_remove w) = true →
  allocate_ports ch img_ports (available_ports dm (rw_engine w))
    = Return allocated →
  reserved_ports (fst (run_container ch dm w))
    = list_to_set allocated ∪ reserved_ports dm.
Proof.
  intros Hi Hb Hr Ha. unfold run_container. rewrite Hi.
  destruct (rw_build w); [|done]. destruct (rw_remove w); [|done].
  rewrite Ha. simpl. rewrite free_ports_reserved, hold_ports_reserved.
  set_solver.
Qed.

(** The manager of the defaults, an image with one port, an engine
    without containers, and a [run] that the engine refuses. *)
Definition refused_run : run_world :=
  {| rw_image := Return [80]; rw_build := Return tt; rw_remove := Return tt;
     rw_engine := []; rw_run := λ _, Raise (DockerError 500) |}.

(** C1 (the code misses it): [free_ports] adds the ports it is given to
    [reserved_ports], as [hold_ports] does, instead of removing them.  A
    run attempt that fails in the engine, started with nothing reserved,
    ends with the port it picked still reserved, whichever port [set.pop]
    hands out. *)
Theorem run_container_leaves_port_reserved (ch : SetPop) :
  (∀ dm ports,
     reserved_ports (free_ports dm ports)
       = list_to_set ports ∪ reserved_ports dm) ∧
  ∃ p, 8900 ≤ p < 8999 ∧
    snd (run_container ch (Docker.init 8900 8999) refused_run)
      = Raise (DockerError 500) ∧
    reserved_ports (fst (run_container ch (Docker.init 8900 8999) refused_run))
      = {[p]}.
Proof.
  split; [apply free_ports_reserved|].
  unfold run_container, refused_run; simpl.
  pose proof (set_pop_spec ch (available_ports (Docker.init 8900 8999) [])) as Hpop.
  destruct (set_pop ch _) as [[x avail']|e].
  - destruct Hpop as [Hx ->]. exists x.
    apply elem_of_available_ports in Hx as (Hr & _ & _). simpl in Hr.
    split_and!; [lia.. | done |].
    simpl. set_solver.
  - destruct Hpop as [_ Hempty]. exfalso.
    assert (8900 ∈ available_ports (Docker.init 8900 8999) []) as Hin.
    { apply elem_of_available_ports. simpl. split_and!; [lia..| |set_solver].
      intros n c Hc. unfold containers in Hc. simpl in Hc.
      by rewrite lookup_empty in Hc. }
    rewrite Hempty in Hin. set_solver.
Qed.





(** An image with two ports on a pool of three, one of them taken by a
    managed container. *)
Definition two_ports_run : run_world :=
  {| rw_image := Return [80; 443]; rw_build := Return tt; rw_remove := Return tt;
     rw_engine := [ {| bc_name := "db"; bc_labels := ["inband"];
                       bc_status := "running"; bc_ports := [8901] |} ];
     rw_run := λ host_ports,
       Return {| bc_name := "web"; bc_labels := ["inband"];
                 bc_status := "running"; bc_ports := host_ports |} |}.


(** On that pool [8901] is the managed container's, so the two ports
    picked are [8902] and [8900], in the order [pop_first] hands them
    out. *)
Example run_container_two_ports :
  ∃ dm', run_container pop_first (Docker.init 8900 8903) two_ports_run
         = (dm', Return {| bc_name := "web"; bc_labels := ["inband"];
                           bc_status := "running"; bc_ports := [8902; 8900] |}) ∧
         reserved_ports dm' = {[8900; 8902]}.
Proof.
  eexists. split; [vm_compute; reflexivity|].
  apply (bool_decide_eq_true_1 _). vm_compute. reflexivity.
Qed.

(** The claim of the spec on [available_ports], in its words: the pool
    range minus the ports of running containers minus the reserved ports,
    a container that is not running excluding nothing. *)
Definition available_minus_running dm engine : Prop :=
  ∀ p, p ∈ available_ports dm engine ↔
       start_port dm ≤ p < end_port dm ∧
       (∀ c, c ∈ engine → bc_status c = STATUS_RUNNING → p ∉ bc_ports c) ∧
       p ∉ reserved_ports dm.

(** A managed container that is paused and holds port 8900. *)
Definition paused_engine : list BandContainer :=
  [ {| bc_name := "web"; bc_labels := ["inband"]; bc_status := "paused";
       bc_ports := [8900] |} ].

(** C3, as stated, fails: the port of a container that is not running is
    excluded all the same. *)
Lemma available_ports_excludes_paused :
  ¬ available_minus_running (Docker.init 8900 8999) paused_engine.
Proof.
  intros H. specialize (H 8900). destruct H as [_ H].
  assert (8900 ∈ available_ports (Docker.init 8900 8999) paused_engine) as Hin.
  { apply H. simpl. split_and!; [lia.. | | set_solver].
    intros c [->|[]%elem_of_nil]%elem_of_cons. discriminate. }
  revert Hin. apply (bool_decide_eq_false_1 _). vm_compute. reflexivity.
Qed.

(** C3 (amended): with container names distinct, [available_ports] is the
    pool range minus the ports of every container that carries the
    [inband] label, whatever its status, minus the reserved ports. *)
Theorem available_ports_spec dm engine p :
  NoDup (bc_name <$> engine) →
  p ∈ available_ports dm engine ↔
  start_port dm ≤ p < end_port dm ∧
  (∀ c, c ∈ engine → has_label "inband" c = true → p ∉ bc_ports c) ∧
  p ∉ reserved_ports dm.
Proof.
  intros Hnd. rewrite elem_of_available_ports.
  split; intros (Hr & Hc & Hres); (split; [done | split; [|done]]).
  - intros c Hin Hl. apply (Hc (bc_name c)).
    apply containers_lookup; [done|]. split; [|done].
    apply elem_of_containers_list. split; [done|].
    unfold engine_match. by rewrite Hl.
  - intros n c Hl. apply containers_lookup in Hl as [Hl _]; [|done].
    apply elem_of_containers_list in Hl as [Hin Hm].
    apply Hc; [done|]. unfold engine_match in Hm.
    by apply andb_true_iff in Hm as [? _].
Qed.

Lemma available_ports_spec_witness :
  8901 ∈ available_ports (Docker.init 8900 8999) paused_engine.
Proof.
  assert (NoDup (bc_name <$> paused_engine)) as Hnd.
  { apply NoDup_cons. split; [apply not_elem_of_nil | apply NoDup_nil_2]. }
  apply (proj2 (available_ports_spec (Docker.init 8900 8999) paused_engine 8901 Hnd)).
  split_and!; [simpl; lia | simpl; lia | | apply not_elem_of_empty].
  intros c Hc _. apply list_elem_of_singleton in Hc. subst c. simpl.
  intros Hp. apply list_elem_of_singleton in Hp. discriminate.
Defined.

End PortPool.

(** * Properties of the log pump *)

Section LogPump.

Import Docker.

Implicit Types (f : frame) (cid name : string) (now : Z).

(** The header of a frame is eight bytes long. *)
Lemma frame_bytes_split f :
  ∃ header, frame_bytes f = header ++ fr_payload f ∧ length header = 8%nat.
Proof.
  destruct f as [s [[p1 p2] p3] [[[l0 l1] l2] l3] payload]. simpl.
  by exists [s; p1; p2; p3; l0; l1; l2; l3].
Qed.

(** One record that is a frame gives the frame's message. *)
Lemma read_record_frame cid name now f :
  read_record cid name now (frame_bytes f) =
  Return {| lm_now := now; lm_cid := cid; lm_name := name;
            lm_source := bval (fr_stream f); lm_size := frame_length f;
            lm_data := utf8_decode (bval <$> fr_payload f) |}.
Proof.
  destruct f as [s [[p1 p2] p3] [[[l0 l1] l2] l3] payload]. reflexivity.
Qed.

(** Decoding never fails: whatever the record, if it has its eight header
    bytes it is published. *)
Lemma read_record_total cid name now (log_record : list byte) :
  (8 ≤ length log_record)%nat →
  ∃ msg, read_record cid name now log_record = Return msg ∧
         lm_data msg = utf8_decode (bval <$> drop 8 log_record).
Proof.
  intros Hlen.
  do 8 (destruct log_record as [|? log_record]; [simpl in Hlen; lia|]).
  eexists. split; reflexivity.
Qed.

(** On ASCII bytes the decoder is the identity. *)
Lemma utf8_decode_ascii (s : list Z) :
  Forall (λ ch, ch < 0x80) s → utf8_decode s = s.
Proof.
  induction 1 as [|ch s Hch _ IH]; simpl; [done|].
  destruct (Z.ltb_spec ch 128); [by rewrite IH | lia].
Qed.

(** The items that deliver the frames [fs], each with its clock reading,
    and then the end of the stream. *)
Definition deliver (fs : list (Z * frame)) : list (option (Z * list byte)) :=
  ((λ '(now, f), Some (now, frame_bytes f)) <$> fs) ++ [None].

(** Every record that has its eight header bytes reads as a header and
    what follows it, whatever the length field says. *)
Lemma record_as_frame (log_record : list byte) :
  (8 ≤ length log_record)%nat →
  ∃ f, log_record = frame_bytes f ∧ fr_payload f = drop 8 log_record.
Proof.
  intros Hlen.
  do 8 (destruct log_record as [|? log_record]; [simpl in Hlen; lia|]).
  by eexists {| fr_stream := _; fr_pad := (_, _, _); fr_len := (_, _, _, _);
                fr_payload := log_record |}.
Qed.

(** The message published for a delivered record [frame_bytes f]: the
    size is the header's length field, the data is all that follows the
    header. *)
Definition record_msg (cid name : string) (now : Z) (f : frame) : log_msg :=
  {| lm_now := now; lm_cid := cid; lm_name := name;
     lm_source := bval (fr_stream f);
     lm_size := frame_length f;
     lm_data := utf8_decode (bval <$> fr_payload f) |}.

Lemma logs_reader_records cid name (fs : list (Z * frame)) :
  logs_reader cid name (deliver fs)
    = ((λ '(now, f), record_msg cid name now f) <$> fs, Closed).
Proof.
  unfold deliver. induction fs as [|[now f] fs IH]; csimpl; [done|].
  by rewrite read_record_frame, IH.
Qed.

(** The claim of the spec on frames, in its words: a frame gives one
    message with exactly its [N] payload bytes, and two frames back to
    back in what the subscriber hands over give two messages in order
    (each with some clock reading). *)
Definition one_message_per_frame (cid name : string) : Prop :=
  ∀ now f1 f2, frame_wf f1 → frame_wf f2 →
    ∃ now1 now2,
      logs_reader cid name [Some (now, frame_bytes f1 ++ frame_bytes f2); None]
      = ([frame_msg cid name now1 f1; frame_msg cid name now2 f2], Closed).

(** C4 (amended): the reader does no framing of its own.  Each delivered
    record that has its eight header bytes is published as one message
    with byte 0 as source, the big-endian value of bytes 4 to 7 as size
    and all the bytes after the header, decoded as UTF-8 with replacement,
    as data; decoding does not raise, the messages come in the order of
    the records, and the reader closes at the end of the stream.  When
    every delivered record is exactly one frame, the length field
    counting its payload, the message carries size [N] and exactly the [N]
    payload bytes decoded. *)
Theorem logs_reader_frames cid name (fs : list (Z * frame)) :
  logs_reader cid name (deliver fs)
    = ((λ '(now, f), record_msg cid name now f) <$> fs, Closed) ∧
  (Forall (λ nf, frame_wf nf.2) fs →
   logs_reader cid name (deliver fs)
     = ((λ '(now, f), frame_msg cid name now f) <$> fs, Closed)).
Proof.
  split; [apply logs_reader_records|].
  intros Hwf. rewrite logs_reader_records. f_equal.
  induction Hwf as [|[now f] fs Hf _ IH]; csimpl; [done|].
  rewrite IH. f_equal. simpl in Hf. unfold record_msg, frame_msg.
  by rewrite Hf.
Qed.

Definition hello : list byte := [x68; x65; x6c; x6c; x6f]%byte.

(** Scenario 5 of the spec: [01 00 00 00 00 00 00 05 "hello"]. *)
Definition hello_frame : frame :=
  {| fr_stream := x01%byte; fr_pad := (x00, x00, x00)%byte;
     fr_len := (x00, x00, x00, x05)%byte; fr_payload := hello |}.

(** A stderr frame whose payload is not UTF-8: a lone [ff], the first two
    bytes of a three-byte sequence cut short by [A]. *)
Definition broken_frame : frame :=
  {| fr_stream := x02%byte; fr_pad := (x00, x00, x00)%byte;
     fr_len := (x00, x00, x00, x04)%byte;
     fr_payload := [xff; xe2; x82; x41]%byte |}.

Lemma logs_reader_frames_witness :
  logs_reader "c0ffee" "web" (deliver [(1000, hello_frame); (1001, broken_frame)])
  = ([ {| lm_now := 1000; lm_cid := "c0ffee"; lm_name := "web"; lm_source := 1;
          lm_size := 5; lm_data := [104; 101; 108; 108; 111] |};
       {| lm_now := 1001; lm_cid := "c0ffee"; lm_name := "web"; lm_source := 2;
          lm_size := 4; lm_data := [0xFFFD; 0xFFFD; 65] |} ], Closed).
Proof.
  apply (proj2 (logs_reader_frames "c0ffee" "web"
                  [(1000, hello_frame); (1001, broken_frame)])).
  repeat constructor.
Defined.

(** C4, as stated, fails: two frames that come back to back in one
    delivered record are published as one message, not two. *)
Lemma logs_reader_joins_frames : ¬ one_message_per_frame "c0ffee" "web".
Proof.
  intros H.
  destruct (H 1000 hello_frame hello_frame eq_refl eq_refl) as (now1 & now2 & Heq).
  vm_compute in Heq. discriminate Heq.
Qed.

(** A record is taken whole: bytes that follow the [N] payload bytes of
    its first frame are decoded into the same message. *)
Example read_record_two_frames_in_one_record :
  read_record "c0ffee" "web" 1000 (frame_bytes hello_frame ++ frame_bytes hello_frame)
  = Return {| lm_now := 1000; lm_cid := "c0ffee"; lm_name := "web";
              lm_source := 1; lm_size := 5;
              lm_data := [104; 101; 108; 108; 111; 1; 0; 0; 0; 0; 0; 0; 5;
                          104; 101; 108; 108; 111] |}.
Proof. reflexivity. Qed.

End LogPump.

(** * Properties of the dashboard placer *)

Section CellKeys.

Import State.

(** Does the letter [x] occur in the string? *)
Fixpoint has_x (s : string) : bool :=
  match s with
  | EmptyString => false
  | String a s' => Ascii.eqb a "x"%char || has_x s'
  end.

Lemma pretty_N_char_not_x (n : N) : Ascii.eqb (pretty_N_char n) "x"%char = false.
Proof. unfold pretty_N_char. repeat case_match; reflexivity. Qed.

Lemma pretty_N_go_no_x (n : N) (s : string) :
  has_x s = false → has_x (pretty_N_go n s) = false.
Proof.
  revert s. induction (N.lt_wf_0 n) as [n _ IH]; intros s Hs.
  destruct (decide (n = 0%N)) as [->|Hn].
  - by rewrite pretty_N_go_0.
  - rewrite pretty_N_go_step by lia. apply IH.
    + apply N.div_lt; lia.
    + simpl. by rewrite pretty_N_char_not_x.
Qed.

Lemma pretty_N_no_x (n : N) : has_x (pretty n) = false.
Proof.
  unfold pretty, pretty_N. case_decide; [done|]. by apply pretty_N_go_no_x.
Qed.

Lemma pretty_Z_no_x (z : Z) : has_x (pretty z) = false.
Proof.
  destruct z as [|p|p]; [done | apply (pretty_N_no_x (Npos p)) |].
  unfold pretty, pretty_Z.
  change ("-" +:+ pretty (Npos p)) with (String "-" (pretty (Npos p))).
  simpl. apply (pretty_N_no_x (Npos p)).
Qed.

(** Two strings without [x], each followed by [x], split a string at the
    same place. *)
Lemma app_x_inj (s1 s2 t1 t2 : string) :
  has_x s1 = false → has_x s2 = false →
  s1 +:+ String "x" t1 = s2 +:+ String "x" t2 → s1 = s2 ∧ t1 = t2.
Proof.
  revert s2. induction s1 as [|a s1 IH]; intros [|b s2] H1 H2 Heq.
  - by simplify_eq.
  - change (String "x" t1 = String b (s2 +:+ String "x" t2)) in Heq.
    injection Heq as <- _. simpl in H2. discriminate.
  - change (String a (s1 +:+ String "x" t1) = String "x" t2) in Heq.
    injection Heq as -> _. simpl in H1. discriminate.
  - change (String a (s1 +:+ String "x" t1) = String b (s2 +:+ String "x" t2))
      in Heq.
    simpl in H1, H2.
    apply orb_false_iff in H1 as [_ H1]. apply orb_false_iff in H2 as [_ H2].
    injection Heq as -> Heq. destruct (IH _ H1 H2 Heq) as [-> ->]. done.
Qed.

(** A key names one cell. *)
Lemma cell_key_inj (c r c' r' : Z) :
  cell_key c r = cell_key c' r' → c = c' ∧ r = r'.
Proof.
  unfold cell_key. intros Heq.
  change ("x" +:+ pretty r) with (String "x" (pretty r)) in Heq.
  change ("x" +:+ pretty r') with (String "x" (pretty r')) in Heq.
  apply app_x_inj in Heq as [Hc Hr]; [|apply pretty_Z_no_x..].
  split; by apply (inj pretty).
Qed.

End CellKeys.

Section Walk.

Import State.

Implicit Types (m : StateManager) (name : string) (cell : Z * Z).

(** Row-major order on cells [(col, row)]: by row, then by column. *)
Definition row_major_lt (a b : Z * Z) : Prop :=
  a.2 < b.2 ∨ (a.2 = b.2 ∧ a.1 < b.1).

(** The cells of columns [c0..c1) crossed with rows [r0..r1), each row
    from left to right, the rows from top to bottom. *)
Definition block (c0 c1 r0 r1 : Z) : list (Z * Z) :=
  flat_map (λ rowi, map (λ coli, (coli, rowi)) (range c0 c1)) (range r0 r1).

Lemma space_walk_blocks m scol srow :
  _space_walk m scol srow
    = block scol (cols m) srow (rows m) ++ block 0 scol 0 srow.
Proof. reflexivity. Qed.

Lemma elem_of_block c0 c1 r0 r1 c r :
  (c, r) ∈ block c0 c1 r0 r1 ↔ c0 ≤ c < c1 ∧ r0 ≤ r < r1.
Proof.
  unfold block. rewrite list_elem_of_In, in_flat_map. split.
  - intros (rowi & Hr & Hc). apply in_map_iff in Hc as (coli & Heq & Hc).
    injection Heq as -> ->.
    apply list_elem_of_In, elem_of_range in Hr, Hc. done.
  - intros [Hc Hr]. exists r. split.
    + by apply list_elem_of_In, elem_of_range.
    + apply in_map_iff. exists c. split; [done|].
      by apply list_elem_of_In, elem_of_range.
Qed.

Lemma seq_sorted (s n : nat) : StronglySorted lt (seq s n).
Proof.
  revert s. induction n as [|n IH]; intros s; simpl; constructor; [apply IH|].
  apply Forall_forall. intros x Hx%list_elem_of_In%in_seq. lia.
Qed.

Lemma range_sorted a b : StronglySorted Z.lt (range a b).
Proof.
  unfold range, seqZ.
  apply (StronglySorted_fmap _ lt); [intros; lia | apply seq_sorted].
Qed.

Lemma block_sorted c0 c1 r0 r1 : StronglySorted row_major_lt (block c0 c1 r0 r1).
Proof.
  unfold block. pose proof (range_sorted r0 r1) as Hrows.
  induction Hrows as [|r rs Hrs IH Hall]; simpl; [constructor|].
  apply StronglySorted_app_2.
  - intros [c1' r1'] [c2' r2'] H1 H2.
    apply list_elem_of_In, in_map_iff in H1 as (? & Heq & _). injection Heq as <- <-.
    apply list_elem_of_In, in_flat_map in H2 as (r' & Hr' & Hc').
    apply in_map_iff in Hc' as (? & Heq & _). injection Heq as <- <-.
    left. simpl. rewrite Forall_forall in Hall. apply Hall.
    by apply list_elem_of_In.
  - apply (StronglySorted_fmap _ Z.lt); [|apply range_sorted].
    intros x y Hxy. right. simpl. done.
  - apply IH.
Qed.

(** The first key of the walk that is free, with the walk split there. *)
Lemma first_free_Some occupied (walk : list (Z * Z)) cell :
  first_free occupied walk = Some cell ↔
  ∃ before after, walk = before ++ cell :: after ∧
    Forall (λ x, key_in (cell_key x.1 x.2) occupied = true) before ∧
    key_in (cell_key cell.1 cell.2) occupied = false.
Proof.
  induction walk as [|[ic ir] walk IH]; simpl.
  - split; [done|]. intros (before & after & Heq & _).
    by destruct before.
  - destruct (key_in (cell_key ic ir) occupied) eqn:E; simpl.
    + rewrite IH. split.
      * intros (before & after & -> & Hb & Hc).
        exists ((ic, ir) :: before), after. split_and!; [done| |done].
        by constructor.
      * intros (before & after & Heq & Hb & Hc).
        destruct before as [|b before]; simpl in Heq.
        -- injection Heq as <- _. simpl in Hc. congruence.
        -- injection Heq as <- ->. apply Forall_cons in Hb as [_ Hb]. eauto.
    + split.
      * intros [= <-]. exists [], walk. split_and!; [done|constructor|done].
      * intros (before & after & Heq & Hb & Hc).
        destruct before as [|b before]; simpl in Heq.
        -- by injection Heq as <- _.
        -- injection Heq as <- ->. apply Forall_cons in Hb as [Hb _].
           simpl in Hb. congruence.
Qed.

Lemma first_free_None occupied (walk : list (Z * Z)) :
  first_free occupied walk = None ↔
  Forall (λ x, key_in (cell_key x.1 x.2) occupied = true) walk.
Proof.
  induction walk as [|[ic ir] walk IH]; simpl.
  - split; [constructor | done].
  - destruct (key_in (cell_key ic ir) occupied) eqn:E; simpl.
    + rewrite IH. split; [by constructor | by intros [_ ?]%Forall_cons].
    + split; [done|]. intros [Hx _]%Forall_cons. simpl in Hx. congruence.
Qed.

(** A cell is taken when a record other than [name] sits on it. *)
Definition taken_by_other m name cell : Prop :=
  ∃ k srv, (k, srv) ∈ _state m ∧ svc_name srv ≠ name ∧
           svc_pos srv = {| pos_col := Some cell.1; pos_row := Some cell.2 |}.

Lemma key_in_occupied m name cell :
  key_in (cell_key cell.1 cell.2) (_occupied m name) = true ↔
  taken_by_other m name cell.
Proof.
  unfold key_in, _occupied, taken_by_other. rewrite existsb_exists. split.
  - intros (key & Hin & Heq). apply String.eqb_eq in Heq. subst key.
    apply in_flat_map in Hin as ([k srv] & Hsrv & Hk).
    exists k, srv. split; [by apply list_elem_of_In|].
    destruct (String.eqb (svc_name srv) name) eqn:En; [done|].
    apply String.eqb_neq in En. split; [done|].
    destruct (svc_pos srv) as [[c|] [r|]]; simpl in *; try done.
    destruct Hk as [Hk|[]]. symmetry in Hk.
    apply cell_key_inj in Hk as [-> ->]. done.
  - intros (k & srv & Hin & Hne & Hpos).
    exists (cell_key cell.1 cell.2). split; [|by apply String.eqb_eq].
    apply in_flat_map. exists (k, srv). split; [by apply list_elem_of_In|].
    apply String.eqb_neq in Hne. rewrite Hne, Hpos. simpl. by left.
Qed.

Lemma allocate_Some m name col row cell :
  _allocate m name col row = Some cell ↔
  ∃ before after, _space_walk m col row = before ++ cell :: after ∧
    Forall (taken_by_other m name) before ∧ ¬ taken_by_other m name cell.
Proof.
  unfold _allocate. rewrite first_free_Some.
  split; intros (before & after & Hw & Hb & Hc); exists before, after;
    (split; [done|]); split.
  - eapply Forall_impl; [done|]. intros x Hx. by apply key_in_occupied.
  - rewrite <- key_in_occupied. by rewrite Hc.
  - eapply Forall_impl; [done|]. intros x Hx. by apply key_in_occupied.
  - rewrite <- key_in_occupied in Hc. by destruct (key_in _ _).
Qed.

Lemma allocate_None m name col row :
  _allocate m name col row = None ↔
  Forall (taken_by_other m name) (_space_walk m col row).
Proof.
  unfold _allocate. rewrite first_free_None.
  split; intros H; (eapply Forall_impl; [done|]);
    intros x Hx; by apply key_in_occupied.
Qed.

End Walk.

(** * Properties of the state manager *)

Section TableFacts.

Import State.

Implicit Types (t : list (string * ServiceState)) (name : string).
Implicit Types (s : ServiceState) (m : StateManager).

Lemma lookup_store_eq name s t : lookup_svc name (store_svc name s t) = Some s.
Proof.
  induction t as [|[k s'] t IH]; simpl.
  - by rewrite String.eqb_refl.
  - destruct (String.eqb k name) eqn:E; simpl; by rewrite E.
Qed.

Lemma lookup_store_ne name name' s t :
  name ≠ name' → lookup_svc name' (store_svc name s t) = lookup_svc name' t.
Proof.
  intros Hne. induction t as [|[k s'] t IH]; simpl.
  - apply String.eqb_neq in Hne. by rewrite Hne.
  - destruct (String.eqb k name) eqn:E; simpl.
    + apply String.eqb_eq in E. subst k.
      apply String.eqb_neq in Hne. by rewrite Hne.
    + by rewrite IH.
Qed.

Lemma lookup_update_eq name f t :
  lookup_svc name (update_svc name f t) = f <$> lookup_svc name t.
Proof.
  unfold update_svc. destruct (lookup_svc name t) as [s|] eqn:E; simpl.
  - apply lookup_store_eq.
  - done.
Qed.

(** The occupied keys depend on the names and positions only. *)
Lemma occupied_store m name s s0 exclude :
  lookup_svc name (_state m) = Some s0 →
  svc_name s = svc_name s0 → svc_pos s = svc_pos s0 →
  _occupied (with_state (store_svc name s (_state m)) m) exclude
    = _occupied m exclude.
Proof.
  intros Hl Hn Hp. unfold _occupied. simpl.
  induction (_state m) as [|[k s'] t IH]; simpl in *; [done|].
  destruct (String.eqb k name) eqn:E; simpl.
  - simplify_eq. by rewrite Hn, Hp.
  - by rewrite IH.
Qed.

Lemma occupied_update m name f exclude :
  (∀ s, svc_name (f s) = svc_name s ∧ svc_pos (f s) = svc_pos s) →
  _occupied (with_state (update_svc name f (_state m)) m) exclude
    = _occupied m exclude.
Proof.
  intros Hf. unfold update_svc.
  destruct (lookup_svc name (_state m)) as [s0|] eqn:E.
  - by apply (occupied_store m name (f s0) s0); [|apply Hf..].
  - by destruct m.
Qed.

End TableFacts.

Section ManagerFacts.

Import State.

Variable FRONTIER_SERVICE : string.
Variable SHARED_CONFIG_KEY : string.
Variables DEFAULT_COL DEFAULT_ROW : Z.
Variable set_env : gmap string string → gmap string string → gmap string string.
Variable is_active : ServiceState → bool.
Variable methods : ServiceState → list string.
Variable dumps : list string → string.
Variable hash : string → Z.

Local Abbreviation get := (State.get SHARED_CONFIG_KEY DEFAULT_COL DEFAULT_ROW set_env).

Implicit Types (w : world) (m : StateManager) (name : string).
Implicit Types (s : ServiceState) (ps : params).

(** A method call on the record under [name], as a change of the manager. *)
Definition touch name (f : ServiceState → ServiceState) m : StateManager :=
  with_state (update_svc name f (_state m)) m.

(** The part of [get] after the record is in the table, step by step. *)
Definition env_step (envs : list (gmap string string)) name m : StateManager :=
  if bool_decide (envs = []) then m
  else touch name (λ s, with_env (set_env (svc_env s) (merge_dicts envs)) s) m.

Definition build_step ps name m : StateManager :=
  match p_build_options ps with
  | Some bo => if negb (bool_decide (bo = ∅))
               then touch name (with_build_options bo) m else m
  | None => m
  end.

Definition fetch name m : result ServiceState :=
  match lookup_svc name (_state m) with
  | Some svc => Return svc
  | None => Raise KeyError
  end.

Definition place_step (wanted_pos : option (Z * Z)) name m
    : StateManager * list event * result ServiceState :=
  match wanted_pos with
  | Some (col, row) =>
      match _allocate m name col row with
      | Some (icol, irow) =>
          (touch name (set_pos icol irow) m, [],
           fetch name (touch name (set_pos icol irow) m))
      | None => (m, [], Raise TypeError)
      end
  | None => (m, [], fetch name m)
  end.

Lemma lookup_touch name f m :
  lookup_svc name (_state (touch name f m)) = f <$> lookup_svc name (_state m).
Proof. apply lookup_update_eq. Qed.

(** Running a bind whose first command returns without a trace, or
    raises. *)
Lemma bind_step {A B} (c : M A) (k : A → M B) m m1 a :
  c m = (m1, [], Return a) → (x <- c ;; k x) m = k a m1.
Proof. intros H. unfold bind. rewrite H. by destruct (k a m1) as [[? ?] ?]. Qed.

Lemma bind_emit {A B} (c : M A) (k : A → M B) m m1 tr a :
  c m = (m1, tr, Return a) →
  (x <- c ;; k x) m = let '(m2, tr2, r) := k a m1 in (m2, tr ++ tr2, r).
Proof. intros H. unfold bind. by rewrite H. Qed.

Lemma bind_raise {A B} (c : M A) (k : A → M B) m m1 tr e :
  c m = (m1, tr, Raise e) → (x <- c ;; k x) m = (m1, tr, Raise e).
Proof. intros H. unfold bind. by rewrite H. Qed.

Lemma run_on_svc name f m : on_svc name f m = (touch name f m, [], Return tt).
Proof. reflexivity. Qed.

Lemma run_the_svc name m : the_svc name m = (m, [], fetch name m).
Proof.
  unfold the_svc, fetch. rewrite (bind_step _ _ m m m) by reflexivity.
  by destruct (lookup_svc name (_state m)).
Qed.

Lemma run_env_step envs name m :
  (if bool_decide (envs = [])
   then ret tt
   else on_svc name (λ s, with_env (set_env (svc_env s) (merge_dicts envs)) s)) m
  = (env_step envs name m, [], Return tt).
Proof. unfold env_step. by destruct (bool_decide (envs = [])). Qed.

Lemma run_build_step ps name m :
  match p_build_options ps with
  | Some bo => if negb (bool_decide (bo = ∅))
               then on_svc name (with_build_options bo) else ret tt
  | None => ret tt
  end m
  = (build_step ps name m, [], Return tt).
Proof.
  unfold build_step. destruct (p_build_options ps) as [bo|]; [|done].
  by destruct (bool_decide (bo = ∅)).
Qed.

Lemma run_place_step (wanted_pos : option (Z * Z)) name m :
  (match wanted_pos with
   | Some (col, row) =>
       m <- manager ;;
       match _allocate m name col row with
       | Some (icol, irow) => on_svc name (set_pos icol irow)
       | None => raise TypeError
       end
   | None => ret tt
   end ;;;
   the_svc name) m
  = place_step wanted_pos name m.
Proof.
  unfold place_step. destruct wanted_pos as [[col row]|].
  - destruct (_allocate m name col row) as [[icol irow]|] eqn:E.
    + erewrite bind_step; [apply run_the_svc|].
      erewrite bind_step; [|reflexivity]. by rewrite E.
    + erewrite bind_raise; [done|].
      erewrite bind_step; [|reflexivity]. by rewrite E.
  - erewrite bind_step; [apply run_the_svc | done].
Qed.

(** [get] from [svc = self._state[name]] on. *)
Lemma get_tail (envs : list (gmap string string)) (wanted_pos : option (Z * Z))
    name ps m s :
  lookup_svc name (_state m) = Some s →
  (the_svc name ;;;
   (if bool_decide (envs ++ env_layer (p_env ps) = [])
    then ret tt
    else on_svc name (λ s, with_env (set_env (svc_env s)
                             (merge_dicts (envs ++ env_layer (p_env ps)))) s)) ;;;
   match p_build_options ps with
   | Some bo => if negb (bool_decide (bo = ∅))
                then on_svc name (with_build_options bo) else ret tt
   | None => ret tt
   end ;;;
   match wanted_pos with
   | Some (col, row) =>
       m <- manager ;;
       match _allocate m name col row with
       | Some (icol, irow) => on_svc name (set_pos icol irow)
       | None => raise TypeError
       end
   | None => ret tt
   end ;;;
   the_svc name) m
  = place_step wanted_pos name
      (build_step ps name (env_step (envs ++ env_layer (p_env ps)) name m)).
Proof.
  intros Hl.
  erewrite bind_step; [|rewrite run_the_svc; unfold fetch; by rewrite Hl].
  erewrite bind_step; [|apply run_env_step].
  erewrite bind_step; [|apply run_build_step].
  apply run_place_step.
Qed.

(** [get] for a name that is in the table. *)
Lemma get_present w name ps m s :
  lookup_svc name (_state m) = Some s →
  get w name ps m
  = place_step (params_pos ps) name
      (build_step ps name (env_step (env_layer (p_env ps)) name m)).
Proof.
  intros Hl. unfold State.get.
  erewrite bind_step; [|reflexivity]. rewrite Hl.
  erewrite bind_step; [|reflexivity].
  by apply (get_tail [] (params_pos ps) name ps m s).
Qed.

(** With no [params], [get] of a name in the table changes nothing. *)
Lemma get_present_no_params w name m s :
  lookup_svc name (_state m) = Some s →
  get w name no_params m = (m, [], Return s).
Proof.
  intros Hl. rewrite (get_present w name no_params m s Hl).
  unfold place_step, build_step, env_step, fetch; simpl. by rewrite Hl.
Qed.

(** A method call that keeps name and position does not change what
    [_allocate] answers. *)
Lemma allocate_touch name f m name' col row :
  (∀ s, svc_name (f s) = svc_name s ∧ svc_pos (f s) = svc_pos s) →
  _allocate (touch name f m) name' col row = _allocate m name' col row.
Proof.
  intros Hf. unfold _allocate, touch. by rewrite occupied_update.
Qed.

Lemma allocate_env_step envs name m name' col row :
  _allocate (env_step envs name m) name' col row = _allocate m name' col row.
Proof.
  unfold env_step. destruct (bool_decide (envs = [])); [done|].
  by apply allocate_touch.
Qed.

Lemma allocate_build_step ps name m name' col row :
  _allocate (build_step ps name m) name' col row = _allocate m name' col row.
Proof.
  unfold build_step. destruct (p_build_options ps) as [bo|]; [|done].
  destruct (negb _); [|done]. by apply allocate_touch.
Qed.

Lemma pos_env_step envs name m :
  svc_pos <$> lookup_svc name (_state (env_step envs name m))
    = svc_pos <$> lookup_svc name (_state m).
Proof.
  unfold env_step. destruct (bool_decide (envs = [])); [done|].
  rewrite lookup_touch. by destruct (lookup_svc name (_state m)).
Qed.

Lemma pos_build_step ps name m :
  svc_pos <$> lookup_svc name (_state (build_step ps name m))
    = svc_pos <$> lookup_svc name (_state m).
Proof.
  unfold build_step. destruct (p_build_options ps) as [bo|]; [|done].
  destruct (negb _); [|done].
  rewrite lookup_touch. by destruct (lookup_svc name (_state m)).
Qed.

(** C5: the walk of [_allocate(name, col, row)] is the block of columns
    [col..cols) and rows [row..rows) followed by the block of columns
    [0..col) and rows [0..row), each in row-major order ([block_sorted],
    [elem_of_block]); the answer is the first cell of the walk on which no
    record other than [name] sits; the answer is [None] exactly when every
    cell of the walk is taken, and then [get], asked to place a record of
    the table there, raises at [set_pos] and leaves the record's position
    as it was. *)
Theorem allocate_first_free m name col row :
  _space_walk m col row
    = block col (cols m) row (rows m) ++ block 0 col 0 row ∧
  (∀ cell, _allocate m name col row = Some cell ↔
     ∃ before after, _space_walk m col row = before ++ cell :: after ∧
       Forall (taken_by_other m name) before ∧ ¬ taken_by_other m name cell) ∧
  (_allocate m name col row = None ↔
     Forall (taken_by_other m name) (_space_walk m col row)) ∧
  (∀ w ps s,
     lookup_svc name (_state m) = Some s →
     params_pos ps = Some (col, row) →
     _allocate m name col row = None →
     ∃ m', get w name ps m = (m', [], Raise TypeError) ∧
           svc_pos <$> lookup_svc name (_state m') = Some (svc_pos s)).
Proof.
  split_and!.
  - apply space_walk_blocks.
  - intros cell. apply allocate_Some.
  - apply allocate_None.
  - intros w ps s Hl Hp Hnone.
    rewrite (get_present w name ps m s Hl), Hp. unfold place_step.
    rewrite allocate_build_step, allocate_env_step, Hnone.
    eexists. split; [done|].
    by rewrite pos_build_step, pos_env_step, Hl.
Qed.

(** [get] for a name that is not in the table yet. *)
Definition cache_shared name (cf : option config) m : StateManager :=
  if String.eqb name SHARED_CONFIG_KEY && truthy_config cf
  then with_shared_config cf m else m.

Definition stored_envs (meta : option image_meta) (cf : option config)
    : list (gmap string string) :=
  match meta with Some mt => env_layer (meta_env mt) | None => [] end ++
  match cf with Some c => env_layer (cfg_env c) | None => [] end.

Definition new_record name (meta : option image_meta) : ServiceState :=
  match meta with
  | Some mt => with_meta mt (new_service name)
  | None => new_service name
  end.

Definition wanted_for (wanted_pos : option (Z * Z)) (meta : option image_meta)
    (cf : option config) : Z * Z :=
  let wanted_pos :=
    match wanted_pos, cf with
    | None, Some c => pos_nn (cfg_pos c)
    | _, _ => wanted_pos
    end in
  let wanted_pos :=
    match wanted_pos, meta with
    | None, Some mt => pos_nn (meta_pos mt)
    | _, _ => wanted_pos
    end in
  match wanted_pos with
  | None => (DEFAULT_COL, DEFAULT_ROW)
  | Some p => p
  end.

Definition created name (meta : option image_meta) (cf : option config) m
    : StateManager :=
  with_state (store_svc name (new_record name meta)
                (_state (cache_shared name cf m)))
             (cache_shared name cf m).

Lemma run_load_config w name m cf :
  w_load_config w name = Return cf →
  load_config SHARED_CONFIG_KEY w name m = (cache_shared name cf m, [], Return cf).
Proof.
  intros Hc. unfold load_config, cache_shared.
  erewrite bind_step; [|unfold lift; by rewrite Hc].
  by destruct (String.eqb name SHARED_CONFIG_KEY && truthy_config cf).
Qed.

Lemma run_load_state w name wanted_pos m meta cf :
  w_load_config w name = Return cf → w_image_meta w name = Return meta →
  load_state SHARED_CONFIG_KEY DEFAULT_COL DEFAULT_ROW w name wanted_pos m
  = (created name meta cf m, [],
     Return (stored_envs meta cf, Some (wanted_for wanted_pos meta cf))).
Proof.
  intros Hc Hm. unfold load_state.
  erewrite bind_step; [|by apply run_load_config].
  erewrite bind_step; [|unfold lift; by rewrite Hm].
  erewrite bind_step; [|reflexivity].
  unfold ret, created, stored_envs, new_record, wanted_for.
  repeat f_equal.
  destruct wanted_pos as [p|]; [by destruct cf, meta|].
  destruct cf as [c|]; [destruct (pos_nn (cfg_pos c))|];
    destruct meta as [mt|]; try done; by destruct (pos_nn (meta_pos mt)).
Qed.

Lemma lookup_created name meta cf m :
  lookup_svc name (_state (created name meta cf m)) = Some (new_record name meta).
Proof. unfold created. simpl. apply lookup_store_eq. Qed.

Lemma get_new w name ps m meta cf :
  lookup_svc name (_state m) = None →
  w_load_config w name = Return cf → w_image_meta w name = Return meta →
  get w name ps m
  = place_step (Some (wanted_for (params_pos ps) meta cf)) name
      (build_step ps name
         (env_step (stored_envs meta cf ++ env_layer (p_env ps)) name
            (created name meta cf m))).
Proof.
  intros Hl Hc Hm. unfold State.get.
  erewrite bind_step; [|reflexivity]. rewrite Hl.
  erewrite bind_step; [|by apply run_load_state].
  by apply (get_tail _ _ name ps _ _ (lookup_created name meta cf m)).
Qed.

(** [get] sends nothing out. *)
Lemma place_step_trace wanted_pos name m : (place_step wanted_pos name m).1.2 = [].
Proof.
  unfold place_step. destruct wanted_pos as [[c r]|]; [|done].
  by destruct (_allocate m name c r) as [[? ?]|].
Qed.

(** The env of the record under [name] through the steps of [get]. *)
Lemma env_env_step envs name m s :
  lookup_svc name (_state m) = Some s →
  lookup_svc name (_state (env_step envs name m))
  = Some (if bool_decide (envs = []) then s
          else with_env (set_env (svc_env s) (merge_dicts envs)) s).
Proof.
  intros Hl. unfold env_step. destruct (bool_decide (envs = [])); [done|].
  by rewrite lookup_touch, Hl.
Qed.

Lemma env_build_step ps name m :
  svc_env <$> lookup_svc name (_state (build_step ps name m))
    = svc_env <$> lookup_svc name (_state m).
Proof.
  unfold build_step. destruct (p_build_options ps) as [bo|]; [|done].
  destruct (negb _); [|done].
  rewrite lookup_touch. by destruct (lookup_svc name (_state m)).
Qed.

Lemma env_place_step wanted_pos name m :
  svc_env <$> lookup_svc name (_state (place_step wanted_pos name m).1.1)
    = svc_env <$> lookup_svc name (_state m).
Proof.
  unfold place_step. destruct wanted_pos as [[c r]|]; [|done].
  destruct (_allocate m name c r) as [[ic ir]|]; [|done]. cbn [fst snd].
  rewrite lookup_touch. by destruct (lookup_svc name (_state m)).
Qed.

(** What [get] returns is the record that the table holds afterwards. *)
Lemma place_step_returns wanted_pos name m svc :
  (place_step wanted_pos name m).2 = Return svc →
  lookup_svc name (_state (place_step wanted_pos name m).1.1) = Some svc.
Proof.
  unfold place_step, fetch. destruct wanted_pos as [[c r]|]; simpl.
  - destruct (_allocate m name c r) as [[ic ir]|]; simpl; [|done].
    destruct (lookup_svc name _); [|done]. by intros [= ->].
  - destruct (lookup_svc name _); [|done]. by intros [= ->].
Qed.

Lemma merge_dicts_singleton (e : gmap string string) : merge_dicts [e] = e.
Proof. unfold merge_dicts. simpl. apply (right_id_L ∅ (∪)). Qed.

Lemma env_layer_truthy (e : gmap string string) : e ≠ ∅ → env_layer (Some e) = [e].
Proof.
  intros He. unfold env_layer, truthy_env.
  by rewrite bool_decide_eq_false_2.
Qed.

(** C6 (amended): for a call of [get] that supplies a non-empty per-call
    env, [set_env] is called with the merge of the image-meta env, the
    stored config env and the per-call env, a later layer winning, when
    the call creates the record; for a name that is already in the table
    the meta and the config are not read again, and [set_env] is called
    with the per-call env alone.  Either way the record in the table
    carries that env afterwards, and it is the record returned. *)
Theorem get_env_layers w name ps m e :
  p_env ps = Some e → e ≠ ∅ →
  (∀ meta cf,
     lookup_svc name (_state m) = None →
     w_load_config w name = Return cf → w_image_meta w name = Return meta →
     ∃ svc, lookup_svc name (_state (get w name ps m).1.1) = Some svc ∧
            svc_env svc = set_env ∅ (merge_dicts (stored_envs meta cf ++ [e])) ∧
            ∀ r, (get w name ps m).2 = Return r → r = svc) ∧
  (∀ s,
     lookup_svc name (_state m) = Some s →
     ∃ svc, lookup_svc name (_state (get w name ps m).1.1) = Some svc ∧
            svc_env svc = set_env (svc_env s) e ∧
            ∀ r, (get w name ps m).2 = Return r → r = svc).
Proof.
  intros Hpe He. pose proof (env_layer_truthy e He) as Hlayer. split.
  - intros meta cf Hl Hc Hm. rewrite (get_new w name ps m meta cf Hl Hc Hm).
    rewrite Hpe, Hlayer.
    set (envs := stored_envs meta cf ++ [e]).
    set (m1 := build_step ps name (env_step envs name (created name meta cf m))).
    assert (svc_env <$> lookup_svc name (_state m1)
            = Some (set_env ∅ (merge_dicts envs))) as Henv.
    { unfold m1. rewrite env_build_step.
      rewrite (env_env_step envs name _ _ (lookup_created name meta cf m)).
      rewrite bool_decide_eq_false_2 by (unfold envs; by destruct (stored_envs meta cf)).
      simpl. by destruct meta. }
    rewrite <- (env_place_step (Some (wanted_for (params_pos ps) meta cf)) name m1)
      in Henv.
    destruct (lookup_svc name (_state (place_step _ name m1).1.1)) as [svc|] eqn:E;
      [|done].
    exists svc. split_and!; [done | by injection Henv |].
    intros r Hr. apply place_step_returns in Hr. congruence.
  - intros s Hl. rewrite (get_present w name ps m s Hl).
    rewrite Hpe, Hlayer.
    set (m1 := build_step ps name (env_step [e] name m)).
    assert (svc_env <$> lookup_svc name (_state m1)
            = Some (set_env (svc_env s) e)) as Henv.
    { unfold m1. rewrite env_build_step, (env_env_step [e] name m s Hl).
      simpl. by rewrite merge_dicts_singleton. }
    rewrite <- (env_place_step (params_pos ps) name m1) in Henv.
    destruct (lookup_svc name (_state (place_step _ name m1).1.1)) as [svc|] eqn:E;
      [|done].
    exists svc. split_and!; [done | by injection Henv |].
    intros r Hr. apply place_step_returns in Hr. congruence.
Qed.

(** The env layers that the catalog and the config store hold for [name]. *)
Definition layers_of w name : list (gmap string string) :=
  stored_envs (match w_image_meta w name with Return mt => mt | Raise _ => None end)
              (match w_load_config w name with Return cf => cf | Raise _ => None end).

(** The claim of the spec on [get], in its words: whenever a per-call env
    is supplied, the record returned carries the merge of meta env, config
    env and per-call env. *)
Definition env_is_merge_of_layers w name ps m : Prop :=
  ∀ e, p_env ps = Some e → e ≠ ∅ →
  ∀ m' tr svc, get w name ps m = (m', tr, Return svc) →
               svc_env svc = merge_dicts (layers_of w name ++ [e]).

(** A crowded dashboard: a record on every cell that the walk from
    [(1, 1)] visits on the 6 by 6 grid, and on no other cell. *)
Definition crowded : StateManager :=
  with_state
    (map (λ '(c, r), (cell_key c r, set_pos c r (new_service (cell_key c r))))
         (_space_walk State.init 1 1))
    State.init.

(** The crowded dashboard with one more record, [web], on [(0, 1)]. *)
Definition crowded_web : StateManager :=
  with_state (_state crowded ++ [("web", set_pos 0 1 (new_service "web"))])
             crowded.

(** [web] asks for [(1, 1)]. *)
Definition ask_1_1 : params :=
  {| p_pos := Some {| pos_col := Some 1; pos_row := Some 1 |};
     p_env := None; p_build_options := None |}.

End ManagerFacts.

Lemma allocate_first_free_witness :
  ∃ m', State.get "shared" 0 0 State.set_env_replace State.quiet "web"
          ask_1_1 crowded_web = (m', [], Raise TypeError) ∧
        State.svc_pos <$> State.lookup_svc "web" (State._state m')
          = Some {| State.pos_col := Some 0; State.pos_row := Some 1 |}.
Proof.
  destruct (allocate_first_free "shared" 0 0 State.set_env_replace
              crowded_web "web" 1 1) as (_ & _ & _ & H).
  destruct (H State.quiet ask_1_1
              (State.set_pos 0 1 (State.new_service "web")))
    as (m' & Hget & Hpos); [reflexivity.. |].
  exists m'. split; [exact Hget | exact Hpos].
Defined.

(** C10: there is a dashboard with a free cell of the grid on which
    [_allocate] answers [None]; and whenever [col > 0] and [row > 0], a
    cell left of [col] in a row from [row] on, or from column [col] on in a
    row above [row], is not on the walk and is never the answer. *)
Theorem allocate_misses_free_cells :
  (∃ m name col row c r,
     State.cols m = 6 ∧ State.rows m = 6 ∧
     0 ≤ c < State.cols m ∧ 0 ≤ r < State.rows m ∧
     ¬ taken_by_other m name (c, r) ∧
     State._allocate m name col row = None) ∧
  (∀ m name col row c r,
     0 < col → 0 < row →
     ((c < col ∧ row ≤ r) ∨ (col ≤ c ∧ r < row)) →
     ((c, r) ∉ State._space_walk m col row) ∧
     State._allocate m name col row ≠ Some (c, r)).
Proof.
  split.
  - exists crowded, "new", 1, 1, 0, 1. split_and!; try done.
    rewrite <- (key_in_occupied crowded "new" (0, 1)). by vm_compute.
  - intros m name col row c r Hcol Hrow Hside.
    assert ((c, r) ∉ State._space_walk m col row) as Hnot.
    { rewrite space_walk_blocks, elem_of_app, !elem_of_block. lia. }
    split; [done|].
    intros (before & after & Hw & _)%allocate_Some. apply Hnot.
    rewrite Hw. apply elem_of_app. right. left.
Qed.

Lemma allocate_misses_free_cells_witness :
  ((0, 1) ∉ State._space_walk crowded 1 1) ∧
  State._allocate crowded "new" 1 1 ≠ Some (0, 1).
Proof.
  apply (proj2 allocate_misses_free_cells crowded "new" 1 1 0 1); lia.
Defined.

(** ** The env layers of [get] on concrete records *)

(** A catalog that knows the image [web], with the env [M=0]; the config
    store holds nothing. *)
Definition catalog : State.world :=
  {| State.w_load_config := λ _, Return None;
     State.w_image_meta := λ n,
       if String.eqb n "web"
       then Return (Some {| State.meta_env := Some {[ "M" := "0" ]};
                            State.meta_pos := None;
                            State.meta_native := true |})
       else Return None;
     State.w_set_add := λ _, Return tt;
     State.w_set_rm := λ _, Return tt;
     State.w_containers := Return [];
     State.w_dock_get := λ _, Return None;
     State.w_run_container := λ _, Return tt;
     State.w_remove_container := λ _, Return tt;
     State.w_stop_container := λ _, Return tt;
     State.w_start_container := λ _, Return tt;
     State.w_restart_container := λ _, Return tt;
     State.w_rpc_request := λ _, Return "ok";
     State.w_sleep := Return tt;
     State.w_sleep_tail := Return tt |}.

Definition with_call_env (e : gmap string string) : State.params :=
  {| State.p_pos := None; State.p_env := Some e; State.p_build_options := None |}.

(** The manager after a first [get("web", params={env: {A: 1}})] on the
    fresh manager: the record is created with the env [M=0, A=1] (the two
    readings of [set_env] agree on a new record). *)
Definition web_known : State.StateManager :=
  (State.get "shared" 0 0 State.set_env_replace catalog "web"
     (with_call_env {[ "A" := "1" ]}) State.init).1.1.

Example web_known_env :
  State.svc_env <$> State.lookup_svc "web" (State._state web_known)
    = Some {[ "M" := "0"; "A" := "1" ]} ∧
  (State.get "shared" 0 0 State.set_env_update catalog "web"
     (with_call_env {[ "A" := "1" ]}) State.init).1.1 = web_known.
Proof. split; by vm_compute. Qed.

(** C6, as stated, fails for a name already in the table: a second
    [get("web", params={env: {B: 2}})] leaves the record with [B=2] alone
    if [set_env] replaces, and with [M=0, A=1, B=2] if it updates; the
    merge of meta, config and per-call env is [M=0, B=2]. *)
Lemma get_present_ignores_stored_layers :
  ¬ env_is_merge_of_layers "shared" 0 0 State.set_env_replace catalog "web"
      (with_call_env {[ "B" := "2" ]}) web_known ∧
  ¬ env_is_merge_of_layers "shared" 0 0 State.set_env_update catalog "web"
      (with_call_env {[ "B" := "2" ]}) web_known.
Proof.
  assert ({[ "B" := "2" ]} ≠@{gmap string string} ∅) as Hne
    by apply map_non_empty_singleton.
  split; intros H.
  - destruct (State.get "shared" 0 0 State.set_env_replace catalog "web"
                (with_call_env {[ "B" := "2" ]}) web_known)
      as [[m' tr] [svc|e]] eqn:E; [|by vm_compute in E].
    specialize (H _ eq_refl Hne _ _ _ E).
    vm_compute in E. injection E as _ _ <-.
    revert H. apply (bool_decide_eq_false_1 _). by vm_compute.
  - destruct (State.get "shared" 0 0 State.set_env_update catalog "web"
                (with_call_env {[ "B" := "2" ]}) web_known)
      as [[m' tr] [svc|e]] eqn:E; [|by vm_compute in E].
    specialize (H _ eq_refl Hne _ _ _ E).
    vm_compute in E. injection E as _ _ <-.
    revert H. apply (bool_decide_eq_false_1 _). by vm_compute.
Qed.

(** The record of [web] in [web_known]. *)
Definition web_record : State.ServiceState :=
  State.with_pos {| State.pos_col := Some 0; State.pos_row := Some 0 |}
    (State.with_env ({[ "M" := "0"; "A" := "1" ]} : gmap string string)
       (State.with_meta
          {| State.meta_env := Some ({[ "M" := "0" ]} : gmap string string);
             State.meta_pos := None; State.meta_native := true |}
          (State.new_service "web"))).

Lemma web_known_record :
  State.lookup_svc "web" (State._state web_known) = Some web_record.
Proof. by vm_compute. Qed.

Lemma get_env_layers_witness :
  ∃ svc,
    State.lookup_svc "web"
      (State._state (State.get "shared" 0 0 State.set_env_replace catalog "web"
                       (with_call_env {[ "B" := "2" ]}) web_known).1.1)
      = Some svc ∧
    State.svc_env svc = {[ "B" := "2" ]}.
Proof.
  destruct (proj2 (get_env_layers "shared" 0 0 State.set_env_replace catalog
                     "web" (with_call_env {[ "B" := "2" ]}) web_known
                     {[ "B" := "2" ]} eq_refl
                     (map_non_empty_singleton "B" "2"))
              web_record web_known_record)
    as (svc & Hl & Henv & _).
  exists svc. split; [exact Hl | exact Henv].
Defined.

(** * Lifecycle operations, registrations and the reconciler *)

Section Lifecycle.

Import State.

Variable FRONTIER_SERVICE : string.
Variable SHARED_CONFIG_KEY : string.
Variables DEFAULT_COL DEFAULT_ROW : Z.
Variable set_env : gmap string string → gmap string string → gmap string string.
Variable is_active : ServiceState → bool.
Variable methods : ServiceState → list string.
Variable dumps : list string → string.
Variable hash : string → Z.

Local Abbreviation get := (State.get SHARED_CONFIG_KEY DEFAULT_COL DEFAULT_ROW set_env).
Local Abbreviation check_regs_changed :=
  (State.check_regs_changed FRONTIER_SERVICE SHARED_CONFIG_KEY DEFAULT_COL
     DEFAULT_ROW set_env is_active methods dumps hash).
Local Abbreviation request_app_state :=
  (State.request_app_state FRONTIER_SERVICE SHARED_CONFIG_KEY DEFAULT_COL
     DEFAULT_ROW set_env is_active methods).
Local Abbreviation registrations := (State.registrations is_active methods).

Implicit Types (w : world) (m : StateManager) (name : string).
Implicit Types (s : ServiceState) (e : exn).

(** The five lifecycle operations, the override each one sets and the
    driver call each one delegates to. *)
Inductive lifecycle : Type := Run | Remove | Stop | Start | Restart.

Definition perform (op : lifecycle) w name : M ServiceState :=
  match op with
  | Run => run_service SHARED_CONFIG_KEY DEFAULT_COL DEFAULT_ROW set_env w name
  | Remove => remove_service SHARED_CONFIG_KEY DEFAULT_COL DEFAULT_ROW set_env w name
  | Stop => stop_service SHARED_CONFIG_KEY DEFAULT_COL DEFAULT_ROW set_env w name
  | Start => start_service SHARED_CONFIG_KEY DEFAULT_COL DEFAULT_ROW set_env w name
  | Restart => restart_service FRONTIER_SERVICE SHARED_CONFIG_KEY DEFAULT_COL
                 DEFAULT_ROW set_env is_active methods dumps hash w name
  end.





Lemma run_lift_raise {A} (r : result A) e m :
  r = Raise e → @lift A r m = (m, [], Raise e).
Proof. by intros ->. Qed.

Lemma lookup_touch' name f m s :
  lookup_svc name (_state m) = Some s →
  lookup_svc name (_state (touch name f m)) = Some (f s).
Proof. intros Hl. by rewrite lookup_touch, Hl. Qed.






Lemma run_service_raises w name m s e :
  lookup_svc name (_state m) = Some s →
  w_run_container w name = Raise e →
  perform Run w name m
  = (touch name (set_status_override STATUS_STARTING)
       (touch name clean_status m), [], Raise e).
Proof.
  intros Hl He. unfold perform, run_service.
  erewrite bind_step; [|by apply get_present_no_params].
  erewrite bind_step; [|apply run_on_svc].
  erewrite bind_step; [|apply run_on_svc].
  erewrite bind_raise; [done|]. unfold _do_run_service.
  erewrite bind_step;
    [|eapply get_present_no_params; by do 2 apply lookup_touch'].
  erewrite bind_raise; [done|]. by apply run_lift_raise.
Qed.






End Lifecycle.

(** The engine refuses to stop the container. *)
Definition stop_refused : State.world :=
  {| State.w_load_config := λ _, Return None;
     State.w_image_meta := λ _, Return None;
     State.w_set_add := λ _, Return tt;
     State.w_set_rm := λ _, Return tt;
     State.w_containers := Return [];
     State.w_dock_get := λ _, Return None;
     State.w_run_container := λ _, Return tt;
     State.w_remove_container := λ _, Return tt;
     State.w_stop_container := λ _, Raise (DockerError 500);
     State.w_start_container := λ _, Return tt;
     State.w_restart_container := λ _, Return tt;
     State.w_rpc_request := λ _, Return "ok";
     State.w_sleep := Return tt;
     State.w_sleep_tail := Return tt |}.

(** Sample instances of what the manager takes from elsewhere: every
    record active, its one method named after it, the dump a
    comma-separated line and the hash its length. *)
Definition sample_active (s : State.ServiceState) : bool := true.
Definition sample_methods (s : State.ServiceState) : list string :=
  [State.svc_name s].
Definition sample_dumps (l : list string) : string := String.concat "," l.
Definition sample_hash (x : string) : Z := Z.of_nat (String.length x).



Section Reconciler.

Import State.

Variable FRONTIER_SERVICE : string.
Variable SHARED_CONFIG_KEY : string.
Variables DEFAULT_COL DEFAULT_ROW : Z.
Variable set_env : gmap string string → gmap string string → gmap string string.
Variable is_active : ServiceState → bool.
Variable methods : ServiceState → list string.
Variable dumps : list string → string.
Variable hash : string → Z.

Local Abbreviation get := (State.get SHARED_CONFIG_KEY DEFAULT_COL DEFAULT_ROW set_env).
Local Abbreviation check_regs_changed :=
  (State.check_regs_changed FRONTIER_SERVICE SHARED_CONFIG_KEY DEFAULT_COL
     DEFAULT_ROW set_env is_active methods dumps hash).
Local Abbreviation request_app_state :=
  (State.request_app_state FRONTIER_SERVICE SHARED_CONFIG_KEY DEFAULT_COL
     DEFAULT_ROW set_env is_active methods).
Local Abbreviation registrations := (State.registrations is_active methods).
Local Abbreviation resolve_docstatus_all :=
  (State.resolve_docstatus_all SHARED_CONFIG_KEY DEFAULT_COL DEFAULT_ROW set_env).
Local Abbreviation clean_worker :=
  (State.clean_worker FRONTIER_SERVICE SHARED_CONFIG_KEY DEFAULT_COL
     DEFAULT_ROW set_env is_active methods dumps hash).

Implicit Types (w : world) (m : StateManager) (name : string).
Implicit Types (s : ServiceState) (e : exn).


(** [get] does not touch the stored hash and sends nothing out. *)
Lemma hash_touch name f m :
  registrations_hash (touch name f m) = registrations_hash m.
Proof. reflexivity. Qed.

Lemma hash_steps envs ps wanted_pos name m :
  registrations_hash
    (place_step wanted_pos name
       (build_step ps name (env_step set_env envs name m))).1.1
  = registrations_hash m.
Proof.
  unfold place_step, build_step, env_step.
  destruct wanted_pos as [[c r]|]; [destruct (_allocate _ name c r) as [[? ?]|]|];
    destruct (p_build_options ps) as [bo|];
    try destruct (negb (bool_decide (bo = ∅)));
    destruct (bool_decide (envs = [])); reflexivity.
Qed.

Lemma hash_created name meta cf m :
  registrations_hash (created SHARED_CONFIG_KEY name meta cf m)
  = registrations_hash m.
Proof.
  unfold created, cache_shared. simpl.
  by destruct (String.eqb name SHARED_CONFIG_KEY && truthy_config cf).
Qed.

Lemma get_hash w name ps m :
  registrations_hash (get w name ps m).1.1 = registrations_hash m ∧
  (get w name ps m).1.2 = [].
Proof.
  destruct (lookup_svc name (_state m)) as [s|] eqn:Hl.
  - rewrite (get_present SHARED_CONFIG_KEY DEFAULT_COL DEFAULT_ROW set_env
               w name ps m s Hl).
    split; [apply hash_steps | apply place_step_trace].
  - destruct (w_load_config w name) as [cf|e] eqn:Hc.
    + destruct (w_image_meta w name) as [meta|e] eqn:Hm.
      * rewrite (get_new SHARED_CONFIG_KEY DEFAULT_COL DEFAULT_ROW set_env
                   w name ps m meta cf Hl Hc Hm).
        split; [|apply place_step_trace].
        rewrite hash_steps. apply hash_created.
      * unfold State.get.
        erewrite bind_step; [|reflexivity]. rewrite Hl.
        erewrite bind_raise; cycle 1.
        { unfold load_state.
          erewrite bind_step; [|by apply run_load_config].
          erewrite bind_raise; [done|]. unfold lift. by rewrite Hm. }
        split; [|done]. simpl. unfold cache_shared.
        by destruct (String.eqb name SHARED_CONFIG_KEY && truthy_config cf).
    + unfold State.get.
      erewrite bind_step; [|reflexivity]. rewrite Hl.
      erewrite bind_raise; cycle 1.
      { unfold load_state. erewrite bind_raise; [done|].
        unfold load_config. erewrite bind_raise; [done|].
        unfold lift. by rewrite Hc. }
      done.
Qed.

(** The probe that [request_app_state] sends to the frontier service. *)
Definition frontier_probe m : event :=
  RpcRequest FRONTIER_SERVICE
    (FrontierPayload (registrations m) (registrations_hash m)).

Lemma request_app_state_frontier w m m1 svc :
  get w FRONTIER_SERVICE no_params m = (m1, [], Return svc) →
  request_app_state w FRONTIER_SERVICE m
  = match w_rpc_request w FRONTIER_SERVICE with
    | Return status =>
        (touch FRONTIER_SERVICE (with_appstate (Some status)) m1,
         [frontier_probe m1], Return tt)
    | Raise e => (m1, [frontier_probe m1], Raise e)
    end.
Proof.
  intros Hget. unfold State.request_app_state.
  erewrite bind_step; [|exact Hget].
  erewrite bind_step; [|reflexivity].
  rewrite String.eqb_refl.
  erewrite bind_emit; [|reflexivity].
  unfold frontier_probe.
  destruct (w_rpc_request w FRONTIER_SERVICE) as [status|e]; reflexivity.
Qed.

(** When [get] cannot hand over the frontier's record, the new hash is
    stored all the same and no request goes out. *)
Lemma check_regs_changed_get_raises w m m1 e :
  let new_hash := HashInt (hash (dumps (registrations m))) in
  new_hash ≠ registrations_hash m →
  get w FRONTIER_SERVICE no_params (with_registrations_hash new_hash m)
    = (m1, [], Raise e) →
  check_regs_changed w m = (m1, [], Raise e) ∧ registrations_hash m1 = new_hash.
Proof.
  intros new_hash Hh Hget. unfold State.check_regs_changed.
  erewrite bind_step; [|reflexivity].
  fold new_hash. rewrite bool_decide_eq_true_2 by done.
  erewrite bind_step; [|reflexivity].
  unfold State.request_app_state. erewrite bind_raise; [|exact Hget].
  split; [done|].
  pose proof (get_hash w FRONTIER_SERVICE no_params
                (with_registrations_hash new_hash m)) as [Hhash _].
  by rewrite Hget in Hhash.
Qed.

(** The claim of the spec on a changed hash, in its words: whenever the
    hash of the registrations differs from the stored one,
    [check_regs_changed] stores the new hash and exactly one probe goes
    out, to the frontier service, with the new hash as [state_hash]. *)
Definition probes_whenever_changed w m : Prop :=
  let new_hash := HashInt (hash (dumps (registrations m))) in
  new_hash ≠ registrations_hash m →
  ∃ m' regs r,
    check_regs_changed w m
    = (m', [RpcRequest FRONTIER_SERVICE (FrontierPayload regs new_hash)], r) ∧
    registrations_hash m' = new_hash.

(** C8 (amended): [check_regs_changed] computes the hash of the
    registrations of the active records.  When it equals the stored hash
    nothing happens: no probe, no change.  When it differs, the stored
    hash is updated first and [request_app_state] is called for the
    frontier service.  If its [get] hands over the frontier's record,
    exactly one request goes out, to the frontier service, with the new
    hash as [state_hash], and the stored hash is the new one afterwards
    whatever the frontier answers.  If its [get] raises, the exception
    leaves [check_regs_changed], no request goes out, and the stored hash
    is the new one all the same. *)
Theorem check_regs_changed_probe w m :
  let new_hash := HashInt (hash (dumps (registrations m))) in
  (new_hash = registrations_hash m →
     check_regs_changed w m = (m, [], Return tt)) ∧
  (new_hash ≠ registrations_hash m →
     (∀ m1 svc,
        get w FRONTIER_SERVICE no_params (with_registrations_hash new_hash m)
          = (m1, [], Return svc) →
        ∃ m' r, check_regs_changed w m
                = (m', [RpcRequest FRONTIER_SERVICE
                          (FrontierPayload (registrations m1) new_hash)], r) ∧
                registrations_hash m' = new_hash) ∧
     (∀ m1 tr e,
        get w FRONTIER_SERVICE no_params (with_registrations_hash new_hash m)
          = (m1, tr, Raise e) →
        check_regs_changed w m = (m1, [], Raise e) ∧
        registrations_hash m1 = new_hash)).
Proof.
  intros new_hash. split.
  - intros Hh. unfold State.check_regs_changed.
    erewrite bind_step; [|reflexivity].
    fold new_hash. by rewrite bool_decide_eq_false_2 by (by intros ?).
  - intros Hh. split.
    + intros m1 svc Hget. unfold State.check_regs_changed.
      erewrite bind_step; [|reflexivity].
      fold new_hash. rewrite bool_decide_eq_true_2 by done.
      erewrite bind_step; [|reflexivity].
      rewrite (request_app_state_frontier w _ m1 svc Hget).
      pose proof (get_hash w FRONTIER_SERVICE no_params
                    (with_registrations_hash new_hash m)) as [Hhash _].
      rewrite Hget in Hhash. simpl in Hhash.
      unfold frontier_probe. rewrite Hhash.
      destruct (w_rpc_request w FRONTIER_SERVICE) as [status|e];
        eexists _, _; (split; [reflexivity|]); by rewrite ?hash_touch.
    + intros m1 tr e Hget.
      pose proof (get_hash w FRONTIER_SERVICE no_params
                    (with_registrations_hash new_hash m)) as [_ Htr].
      rewrite Hget in Htr. simpl in Htr. subst tr.
      by apply check_regs_changed_get_raises.
Qed.


(** The outcome of the rest of the loop, after the trace so far. *)
Definition after {A} (tr : list event) (x : StateManager * list event * result A)
    : StateManager * list event * result A :=
  let '(m, tr', r) := x in (m, tr ++ tr', r).





End Reconciler.

Lemma check_regs_changed_probe_witness :
  ∃ m' r,
    State.check_regs_changed "front" "shared" 0 0 State.set_env_replace
      sample_active sample_methods sample_dumps sample_hash State.quiet web_known
    = (m', [State.RpcRequest "front"
              (State.FrontierPayload ["web"; "front"] (State.HashInt 3))], r) ∧
    State.registrations_hash m' = State.HashInt 3.
Proof.
  refine (proj1 (proj2 (check_regs_changed_probe "front" "shared" 0 0
                          State.set_env_replace sample_active sample_methods
                          sample_dumps sample_hash State.quiet web_known) _)
                _ _ eq_refl).
  discriminate.
Defined.


(** The config store refuses the connection when the record of the
    container [db] is loaded. *)
Definition store_down : State.world :=
  {| State.w_load_config := λ _, Raise ConnectionRefusedError;
     State.w_image_meta := λ _, Return None;
     State.w_set_add := λ _, Return tt;
     State.w_set_rm := λ _, Return tt;
     State.w_containers := Return ["db"];
     State.w_dock_get := λ _, Return None;
     State.w_run_container := λ _, Return tt;
     State.w_remove_container := λ _, Return tt;
     State.w_stop_container := λ _, Return tt;
     State.w_start_container := λ _, Return tt;
     State.w_restart_container := λ _, Return tt;
     State.w_rpc_request := λ _, Return "ok";
     State.w_sleep := Return tt;
     State.w_sleep_tail := Return tt |}.



(** C8, as stated, fails: the registrations of [web_known] have a hash
    that is not the stored one, the frontier has no record yet and the
    config store refuses the connection when [get] loads it; the call
    ends in the exception and no probe goes out. *)
Lemma check_regs_changed_sends_no_probe :
  ¬ probes_whenever_changed "front" "shared" 0 0 State.set_env_replace
      sample_active sample_methods sample_dumps sample_hash
      store_down web_known.
Proof.
  intros H. destruct H as (m' & regs & r & Heq & _); [discriminate|].
  vm_compute in Heq. discriminate Heq.
Qed.

(** The probe is then lost: the new hash is stored, so the next call,
    with the store back, finds nothing changed and sends nothing. *)
Example check_regs_changed_probe_lost :
  ∃ m1,
    State.check_regs_changed "front" "shared" 0 0 State.set_env_replace
      sample_active sample_methods sample_dumps sample_hash store_down web_known
    = (m1, [], Raise ConnectionRefusedError) ∧
    State.registrations_hash m1 = State.HashInt 3 ∧
    State.check_regs_changed "front" "shared" 0 0 State.set_env_replace
      sample_active sample_methods sample_dumps sample_hash State.quiet m1
    = (m1, [], Return tt).
Proof. eexists. split_and!; reflexivity. Qed.

(** A refused connection to the config store is logged and the worker
    stays in its loop. *)
Example clean_worker_survives_store_down :
  State.clean_worker "front" "shared" 0 0 State.set_env_replace
    sample_active sample_methods sample_dumps sample_hash
    [store_down] State.init
  = (State.init, [State.LogError "Redis connection refused"],
     Return State.Looping).
Proof. reflexivity. Qed.

(** * What every operation of the manager keeps

    The rest of the development covers the code around the claims: the
    invariants of the service table, the failure modes of [get], the
    bounds of the placer, the driver's container operations, the event
    pump and the config editor. *)

Section Tables.

Import State.

Implicit Types (t : list (string * ServiceState)) (name k : string).
Implicit Types (s : ServiceState) (m : StateManager).

(** The table as the code builds it: one entry per name, each record
    filed under its own name. *)
Definition table_wf t : Prop :=
  NoDup t.*1 ∧ ∀ k s, (k, s) ∈ t → svc_name s = k.

(** The record sits on the cell. *)
Definition sits_on s (cell : Z * Z) : Prop :=
  svc_pos s = {| pos_col := Some cell.1; pos_row := Some cell.2 |}.

(** No two records of the table sit on one cell. *)
Definition cells_distinct t : Prop :=
  ∀ k1 s1 k2 s2 cell,
    (k1, s1) ∈ t → (k2, s2) ∈ t → sits_on s1 cell → sits_on s2 cell → k1 = k2.

Definition grid_ok m : Prop := table_wf (_state m) ∧ cells_distinct (_state m).

Lemma lookup_svc_None name t : lookup_svc name t = None ↔ name ∉ t.*1.
Proof.
  induction t as [|[k s] t IH]; simpl.
  - split; [intros _; apply not_elem_of_nil | done].
  - destruct (String.eqb k name) eqn:E.
    + apply String.eqb_eq in E. subst k. split; [done|].
      intros H. exfalso. apply H. left.
    + apply String.eqb_neq in E. rewrite IH, not_elem_of_cons. naive_solver.
Qed.

Lemma lookup_svc_elem name s t : lookup_svc name t = Some s → (name, s) ∈ t.
Proof.
  induction t as [|[k s'] t IH]; simpl; [done|].
  destruct (String.eqb k name) eqn:E.
  - apply String.eqb_eq in E. intros [= ->]. subst k. left.
  - intros H. right. by apply IH.
Qed.

Lemma elem_lookup_svc name s t :
  NoDup t.*1 → (name, s) ∈ t → lookup_svc name t = Some s.
Proof.
  induction t as [|[k s'] t IH]; simpl; intros Hnd Hin.
  - by apply elem_of_nil in Hin.
  - apply NoDup_cons in Hnd as [Hk Hnd].
    apply elem_of_cons in Hin as [[= <- <-]|Hin].
    + by rewrite String.eqb_refl.
    + destruct (String.eqb k name) eqn:E; [|by apply IH].
      apply String.eqb_eq in E. subst k. exfalso. apply Hk.
      apply list_elem_of_fmap. by exists (name, s).
Qed.

Lemma store_svc_new name s t :
  lookup_svc name t = None → store_svc name s t = t ++ [(name, s)].
Proof.
  induction t as [|[k s'] t IH]; simpl; [done|].
  destruct (String.eqb k name); [done|]. intros H. by rewrite IH.
Qed.

Lemma store_svc_keys name s s0 t :
  lookup_svc name t = Some s0 → (store_svc name s t).*1 = t.*1.
Proof.
  induction t as [|[k s'] t IH]; simpl; [done|].
  destruct (String.eqb k name) eqn:E; [done|].
  intros H. csimpl. f_equal. by apply IH.
Qed.

Lemma elem_of_store_svc name s s0 t k s' :
  NoDup t.*1 → lookup_svc name t = Some s0 →
  (k, s') ∈ store_svc name s t ↔
  (k = name ∧ s' = s) ∨ (k ≠ name ∧ (k, s') ∈ t).
Proof.
  induction t as [|[k0 s1] t IH]; simpl; intros Hnd Hl; [done|].
  apply NoDup_cons in Hnd as [Hk Hnd].
  destruct (String.eqb k0 name) eqn:E.
  - apply String.eqb_eq in E. subst k0. rewrite !elem_of_cons. split.
    + intros [[= -> ->]|Hin]; [by left|]. right. split; [|by right].
      intros ->. apply Hk. apply list_elem_of_fmap. by exists (name, s').
    + intros [[-> ->]|[Hne [[= -> ->]|Hin]]]; [by left|done|by right].
  - apply String.eqb_neq in E. rewrite !elem_of_cons, (IH Hnd Hl). split.
    + intros [[= -> ->]|[?|[? ?]]]; [right; split; [done|by left]|by left|].
      right. split; [done|by right].
    + intros [?|[Hne [[= -> ->]|Hin]]]; [right; by left|by left|].
      right. right. done.
Qed.

(** Storing a record of the same name in place of another keeps the
    table well formed. *)
Lemma table_wf_store name s s0 t :
  table_wf t → lookup_svc name t = Some s0 → svc_name s = name →
  table_wf (store_svc name s t).
Proof.
  intros [Hnd Hn] Hl Hs. split.
  - by rewrite (store_svc_keys name s s0 t Hl).
  - intros k s' [[-> ->]|[_ Hin]]%(elem_of_store_svc name s s0 t); try done.
    by apply Hn.
Qed.

Lemma table_wf_new name s t :
  table_wf t → lookup_svc name t = None → svc_name s = name →
  table_wf (store_svc name s t).
Proof.
  intros [Hnd Hn] Hl Hs. rewrite (store_svc_new name s t Hl). split.
  - rewrite fmap_app. simpl. apply NoDup_app. split_and!; [done| |].
    + intros k Hk [->|[]%elem_of_nil]%elem_of_cons.
      by apply lookup_svc_None in Hl.
    + apply NoDup_singleton.
  - intros k s' [Hin|[[= -> ->]|[]%elem_of_nil]%elem_of_cons]%elem_of_app;
      [by apply Hn | done].
Qed.

(** A record that changes neither cell nor name changes no collision. *)
Lemma cells_distinct_store_same_pos name s s0 t :
  table_wf t → cells_distinct t → lookup_svc name t = Some s0 →
  svc_pos s = svc_pos s0 → cells_distinct (store_svc name s t).
Proof.
  intros [Hnd Hn] Hd Hl Hp k1 s1 k2 s2 cell H1 H2 Hc1 Hc2.
  apply (elem_of_store_svc name s s0 t) in H1, H2; try done.
  pose proof (lookup_svc_elem name s0 t Hl) as Hin0.
  unfold sits_on in *.
  destruct H1 as [[-> ->]|[Hne1 H1]], H2 as [[-> ->]|[Hne2 H2]]; [done|..].
  - rewrite Hp in Hc1. by apply (Hd name s0 k2 s2 cell).
  - rewrite Hp in Hc2. by apply (Hd k1 s1 name s0 cell).
  - by apply (Hd k1 s1 k2 s2 cell).
Qed.

(** A record moved to a cell that no other record sits on collides with
    none. *)
Lemma cells_distinct_store_free name s s0 t cell :
  table_wf t → cells_distinct t → lookup_svc name t = Some s0 →
  sits_on s cell →
  (∀ k srv, (k, srv) ∈ t → svc_name srv ≠ name → ¬ sits_on srv cell) →
  cells_distinct (store_svc name s t).
Proof.
  intros [Hnd Hn] Hd Hl Hs Hfree k1 s1 k2 s2 cell' H1 H2 Hc1 Hc2.
  apply (elem_of_store_svc name s s0 t) in H1, H2; try done.
  assert (∀ c1 c2, sits_on s c1 → sits_on s c2 → c1 = c2) as Hone.
  { intros [a b] [a' b']. unfold sits_on. simpl. intros -> [= -> ->]. done. }
  destruct H1 as [[-> ->]|[Hne1 H1]], H2 as [[-> ->]|[Hne2 H2]]; [done|..].
  - rewrite (Hone cell' cell Hc1 Hs) in Hc2. exfalso.
    apply (Hfree k2 s2 H2); [|done]. by rewrite (Hn k2 s2 H2).
  - rewrite (Hone cell' cell Hc2 Hs) in Hc1. exfalso.
    apply (Hfree k1 s1 H1); [|done]. by rewrite (Hn k1 s1 H1).
  - by apply (Hd k1 s1 k2 s2 cell').
Qed.

(** A new record without a position collides with none. *)
Lemma cells_distinct_new name s t :
  cells_distinct t → lookup_svc name t = None →
  svc_pos s = {| pos_col := None; pos_row := None |} →
  cells_distinct (store_svc name s t).
Proof.
  intros Hd Hl Hp k1 s1 k2 s2 cell H1 H2 Hc1 Hc2.
  rewrite (store_svc_new name s t Hl) in H1, H2. unfold sits_on in *.
  apply elem_of_app in H1 as [H1|[[= -> ->]|[]%elem_of_nil]%elem_of_cons];
    [|by rewrite Hp in Hc1].
  apply elem_of_app in H2 as [H2|[[= -> ->]|[]%elem_of_nil]%elem_of_cons];
    [|by rewrite Hp in Hc2].
  by apply (Hd k1 s1 k2 s2 cell).
Qed.

End Tables.

Section Keeping.

Import State.

Variable FRONTIER_SERVICE : string.
Variable SHARED_CONFIG_KEY : string.
Variables DEFAULT_COL DEFAULT_ROW : Z.
Variable set_env : gmap string string → gmap string string → gmap string string.
Variable is_active : ServiceState → bool.
Variable methods : ServiceState → list string.
Variable dumps : list string → string.
Variable hash : string → Z.

Local Abbreviation get := (State.get SHARED_CONFIG_KEY DEFAULT_COL DEFAULT_ROW set_env).
Local Abbreviation check_regs_changed :=
  (State.check_regs_changed FRONTIER_SERVICE SHARED_CONFIG_KEY DEFAULT_COL
     DEFAULT_ROW set_env is_active methods dumps hash).
Local Abbreviation request_app_state :=
  (State.request_app_state FRONTIER_SERVICE SHARED_CONFIG_KEY DEFAULT_COL
     DEFAULT_ROW set_env is_active methods).
Local Abbreviation registrations := (State.registrations is_active methods).
Local Abbreviation resolve_docstatus :=
  (State.resolve_docstatus SHARED_CONFIG_KEY DEFAULT_COL DEFAULT_ROW set_env).
Local Abbreviation resolve_docstatus_all :=
  (State.resolve_docstatus_all SHARED_CONFIG_KEY DEFAULT_COL DEFAULT_ROW set_env).
Local Abbreviation clean_worker :=
  (State.clean_worker FRONTIER_SERVICE SHARED_CONFIG_KEY DEFAULT_COL
     DEFAULT_ROW set_env is_active methods dumps hash).
Local Abbreviation perform' :=
  (perform FRONTIER_SERVICE SHARED_CONFIG_KEY DEFAULT_COL DEFAULT_ROW set_env
     is_active methods dumps hash).
Local Abbreviation env_step' := (env_step set_env).
Local Abbreviation cache_shared' := (cache_shared SHARED_CONFIG_KEY).
Local Abbreviation created' := (created SHARED_CONFIG_KEY).
Local Abbreviation wanted_for' := (wanted_for DEFAULT_COL DEFAULT_ROW).

Implicit Types (w : world) (m : StateManager) (name : string).
Implicit Types (s : ServiceState) (ps : params) (R : relation StateManager).

(** The manager that [get] leaves behind, by cases: the record is there;
    the config store fails; the catalog fails; the record is created'. *)
Definition get_state w name ps m : StateManager :=
  match lookup_svc name (_state m) with
  | Some _ =>
      (place_step (params_pos ps) name
         (build_step ps name (env_step' (env_layer (p_env ps)) name m))).1.1
  | None =>
      match w_load_config w name with
      | Raise _ => m
      | Return cf =>
          match w_image_meta w name with
          | Raise _ => cache_shared' name cf m
          | Return meta =>
              (place_step (Some (wanted_for' (params_pos ps) meta cf)) name
                 (build_step ps name
                    (env_step' (stored_envs meta cf ++ env_layer (p_env ps)) name
                       (created' name meta cf m)))).1.1
          end
      end
  end.

Lemma get_leaves w name ps m : (get w name ps m).1.1 = get_state w name ps m.
Proof.
  unfold get_state. destruct (lookup_svc name (_state m)) as [s|] eqn:Hl.
  - by rewrite (get_present SHARED_CONFIG_KEY DEFAULT_COL DEFAULT_ROW set_env
                  w name ps m s Hl).
  - destruct (w_load_config w name) as [cf|e] eqn:Hc.
    + destruct (w_image_meta w name) as [meta|e] eqn:Hm.
      * by rewrite (get_new SHARED_CONFIG_KEY DEFAULT_COL DEFAULT_ROW set_env
                      w name ps m meta cf Hl Hc Hm).
      * unfold State.get.
        erewrite bind_step; [|reflexivity]. rewrite Hl.
        erewrite bind_raise; [done|].
        unfold load_state.
        erewrite bind_step; [|by apply run_load_config].
        erewrite bind_raise; [done|]. unfold lift. by rewrite Hm.
    + unfold State.get.
      erewrite bind_step; [|reflexivity]. rewrite Hl.
      erewrite bind_raise; [done|].
      unfold load_state. erewrite bind_raise; [done|].
      unfold load_config. erewrite bind_raise; [done|].
      unfold lift. by rewrite Hc.
Qed.

(** A coroutine respects a relation when the manager it leaves is related
    to the manager it found, however it ends. *)
Definition respects {A} R (c : M A) : Prop := ∀ m, R m (c m).1.1.

Section Closure.

Context (R : relation StateManager) `{!PreOrder R}.

Lemma respects_ret {A} (a : A) : respects R (ret a).
Proof. intros m. simpl. reflexivity. Qed.

Lemma respects_raise {A} (e : exn) : respects R (@raise A e).
Proof. intros m. simpl. reflexivity. Qed.

Lemma respects_lift {A} (r : result A) : respects R (lift r).
Proof. intros m. simpl. reflexivity. Qed.

Lemma respects_emit (ev : event) : respects R (emit ev).
Proof. intros m. simpl. reflexivity. Qed.

Lemma respects_manager : respects R manager.
Proof. intros m. simpl. reflexivity. Qed.

Lemma respects_modify (f : StateManager → StateManager) :
  (∀ m, R m (f m)) → respects R (modify f).
Proof. intros Hf m. apply Hf. Qed.

Lemma respects_bind {A B} (c : M A) (k : A → M B) :
  respects R c → (∀ a, respects R (k a)) → respects R (x <- c ;; k x).
Proof.
  intros Hc Hk m. unfold bind. specialize (Hc m).
  destruct (c m) as [[m1 tr1] [a|e]]; simpl in *; [|done].
  specialize (Hk a m1). destruct (k a m1) as [[m2 tr2] r]. simpl in *.
  by etrans.
Qed.

Lemma respects_try {A} (c : M A) : respects R c → respects R (try c).
Proof.
  intros Hc m. unfold try. specialize (Hc m).
  by destruct (c m) as [[m1 tr] r].
Qed.

Lemma respects_for_each {A} (l : list A) (body : A → M unit) :
  (∀ a, respects R (body a)) → respects R (for_each l body).
Proof.
  intros Hb. induction l as [|a l IH]; simpl.
  - apply respects_ret.
  - apply respects_bind; [apply Hb | by intros _].
Qed.

Lemma respects_the_svc name : respects R (the_svc name).
Proof. intros m. rewrite run_the_svc. simpl. reflexivity. Qed.

(** What the relation has to allow for the manager's coroutines to
    respect it: the record updates that [get] makes, the creation of a
    record, the cached shared config, the stored hash and the two
    observations. *)
Record kept : Prop := {
  kept_env : ∀ name (g : ServiceState → gmap string string) m,
    R m (touch name (λ s, with_env (g s) s) m);
  kept_build : ∀ name bo m, R m (touch name (with_build_options bo) m);
  kept_place : ∀ name m col row icol irow,
    _allocate m name col row = Some (icol, irow) →
    R m (touch name (set_pos icol irow) m);
  kept_create : ∀ name meta m,
    lookup_svc name (_state m) = None →
    R m (with_state (store_svc name (new_record name meta) (_state m)) m);
  kept_shared : ∀ cf m, R m (with_shared_config cf m);
  kept_hash : ∀ h m, R m (with_registrations_hash h m);
  kept_dockstate : ∀ name d m, R m (touch name (with_dockstate d) m);
  kept_appstate : ∀ name a m, R m (touch name (with_appstate a) m)
}.

Hypothesis HR : kept.

Lemma kept_env_step envs name m : R m (env_step' envs name m).
Proof.
  unfold env_step. destruct (bool_decide (envs = [])); [reflexivity|].
  apply (kept_env HR name (λ s, set_env (svc_env s) (merge_dicts envs))).
Qed.

Lemma kept_build_step ps name m : R m (build_step ps name m).
Proof.
  unfold build_step. destruct (p_build_options ps) as [bo|]; [|reflexivity].
  destruct (negb _); [apply (kept_build HR) | reflexivity].
Qed.

Lemma kept_place_step wanted_pos name m : R m (place_step wanted_pos name m).1.1.
Proof.
  unfold place_step. destruct wanted_pos as [[col row]|]; [|reflexivity].
  destruct (_allocate m name col row) as [[icol irow]|] eqn:E; [|reflexivity].
  by apply (kept_place HR name m col row).
Qed.

Lemma kept_cache_shared name cf m : R m (cache_shared' name cf m).
Proof.
  unfold cache_shared. destruct (_ && _); [apply (kept_shared HR) | reflexivity].
Qed.

Lemma kept_created name meta cf m :
  lookup_svc name (_state m) = None → R m (created' name meta cf m).
Proof.
  intros Hl. unfold created. etrans; [apply (kept_cache_shared name cf)|].
  apply (kept_create HR).
  unfold cache_shared. by destruct (_ && _).
Qed.

Lemma respects_get w name ps : respects R (get w name ps).
Proof.
  intros m. rewrite get_leaves. unfold get_state.
  destruct (lookup_svc name (_state m)) as [s|] eqn:Hl.
  - etrans; [apply (kept_env_step (env_layer (p_env ps)) name)|].
    etrans; [apply (kept_build_step ps name)|]. apply kept_place_step.
  - destruct (w_load_config w name) as [cf|e]; [|reflexivity].
    destruct (w_image_meta w name) as [meta|e]; [|apply kept_cache_shared].
    etrans; [by apply (kept_created name meta cf)|].
    etrans; [apply (kept_env_step (stored_envs meta cf ++ env_layer (p_env ps))
                      name)|].
    etrans; [apply (kept_build_step ps name)|]. apply kept_place_step.
Qed.

Lemma respects_resolve_docstatus w name : respects R (resolve_docstatus w name).
Proof.
  unfold State.resolve_docstatus.
  apply respects_bind; [apply respects_get|]. intros _.
  apply respects_bind; [apply respects_lift|]. intros [full_state|].
  - apply respects_modify. intros m. apply (kept_dockstate HR).
  - apply respects_ret.
Qed.

Lemma respects_resolve_docstatus_all w : respects R (resolve_docstatus_all w).
Proof.
  unfold State.resolve_docstatus_all.
  apply respects_bind; [apply respects_lift|]. intros conts.
  apply respects_for_each. intros name. apply respects_resolve_docstatus.
Qed.

Lemma respects_request_app_state w name : respects R (request_app_state w name).
Proof.
  unfold State.request_app_state.
  apply respects_bind; [apply respects_get|]. intros _.
  apply respects_bind; [apply respects_manager|]. intros m.
  apply respects_bind; [apply respects_emit|]. intros _.
  apply respects_bind; [apply respects_lift|]. intros status.
  apply respects_modify. intros m'. apply (kept_appstate HR).
Qed.

Lemma respects_check_regs_changed w : respects R (check_regs_changed w).
Proof.
  unfold State.check_regs_changed.
  apply respects_bind; [apply respects_manager|]. intros m.
  destruct (bool_decide _); [|apply respects_ret].
  apply respects_bind; [|intros _; apply respects_request_app_state].
  apply respects_modify. intros m'. apply (kept_hash HR).
Qed.

Lemma respects_clean_worker (ticks : list world) : respects R (clean_worker ticks).
Proof.
  induction ticks as [|w rest IH]; [apply respects_ret|].
  cbn [State.clean_worker].
  apply respects_bind.
  - apply respects_try.
    apply respects_bind; [apply respects_lift|]. intros _.
    apply respects_bind; [apply respects_resolve_docstatus_all|]. intros _.
    apply respects_check_regs_changed.
  - assert (respects R (lift (w_sleep_tail w) ;;; clean_worker rest)) as Hnext.
    { apply respects_bind; [apply respects_lift | by intros _]. }
    intros [[]|e]; [done|].
    destruct e; simpl;
      try (apply respects_bind; [apply respects_emit | by intros _]);
      try apply respects_raise.
    apply respects_bind; [apply respects_emit|]. intros _. apply respects_ret.
Qed.

(** The lifecycle operations also set and clear the override. *)
Hypothesis HR_override : ∀ name o m, R m (touch name (with_status_override o) m).

Lemma respects_on_override name o : respects R (on_svc name (with_status_override o)).
Proof. apply respects_modify. intros m. apply HR_override. Qed.

Lemma respects_perform (op : lifecycle) w name : respects R (perform' op w name).
Proof.
  assert (∀ (call : result unit),
            respects R (get w name no_params ;;; lift call ;;;
                        on_svc name clean_status)) as Hdo.
  { intros call. apply respects_bind; [apply respects_get|]. intros _.
    apply respects_bind; [apply respects_lift|]. intros _.
    apply respects_on_override. }
  destruct op; unfold perform.
  - unfold run_service.
    apply respects_bind; [apply respects_get|]. intros _.
    apply respects_bind; [apply respects_on_override|]. intros _.
    apply respects_bind; [apply respects_on_override|]. intros _.
    apply respects_bind; [|intros _; apply respects_the_svc].
    unfold _do_run_service.
    apply respects_bind; [apply respects_get|]. intros _.
    apply respects_bind; [apply respects_lift|]. intros _.
    apply respects_bind; [apply respects_lift|]. intros _.
    apply respects_resolve_docstatus.
  - unfold remove_service.
    apply respects_bind; [apply respects_get|]. intros _.
    apply respects_bind; [apply respects_lift|]. intros _.
    apply respects_bind; [apply respects_on_override|]. intros _.
    apply respects_bind; [apply Hdo | intros _; apply respects_the_svc].
  - unfold stop_service.
    apply respects_bind; [apply respects_get|]. intros _.
    apply respects_bind; [apply respects_lift|]. intros _.
    apply respects_bind; [apply respects_on_override|]. intros _.
    apply respects_bind; [apply Hdo | intros _; apply respects_the_svc].
  - unfold start_service.
    apply respects_bind; [apply respects_get|]. intros svc.
    apply respects_bind.
    { destruct (native svc); [apply respects_lift | apply respects_ret]. }
    intros _.
    apply respects_bind; [apply respects_on_override|]. intros _.
    apply respects_bind; [apply Hdo | intros _; apply respects_the_svc].
  - unfold restart_service.
    apply respects_bind; [apply respects_get|]. intros _.
    apply respects_bind; [apply respects_on_override|]. intros _.
    apply respects_bind; [|intros _; apply respects_the_svc].
    unfold _do_restart_service.
    apply respects_bind; [apply respects_lift|]. intros container.
    apply respects_bind; [apply respects_get|]. intros _.
    destruct container; [|apply respects_ret].
    apply respects_bind; [apply respects_on_override|]. intros _.
    apply respects_bind; [apply respects_lift|]. intros _.
    apply respects_bind; [apply respects_on_override|]. intros _.
    apply respects_check_regs_changed.
Qed.

End Closure.

End Keeping.

Section GridInvariant.

Import State.

Implicit Types (w : world) (m : StateManager) (name : string).
Implicit Types (s : ServiceState) (ps : params).

(** The relation "if the grid was in order, it still is". *)
Definition grid_kept : relation StateManager := λ m m', grid_ok m → grid_ok m'.

Global Instance grid_kept_preorder : PreOrder grid_kept.
Proof.
  split.
  - intros m H. exact H.
  - intros m1 m2 m3 H12 H23 H. apply H23, H12, H.
Qed.

Lemma grid_ok_touch_same name (f : ServiceState → ServiceState) m :
  (∀ s, svc_name (f s) = svc_name s ∧ svc_pos (f s) = svc_pos s) →
  grid_kept m (touch name f m).
Proof.
  intros Hf [Hwf Hd]. unfold grid_ok, touch, update_svc. simpl.
  destruct (lookup_svc name (_state m)) as [s0|] eqn:Hl; [|by split].
  destruct (Hf s0) as [Hn Hp]. split.
  - apply (table_wf_store name _ s0); [done..|].
    rewrite Hn. destruct Hwf as [_ Hwf]. apply Hwf.
    by apply lookup_svc_elem.
  - by apply (cells_distinct_store_same_pos name _ s0).
Qed.

Lemma grid_ok_touch_place name m col row icol irow :
  _allocate m name col row = Some (icol, irow) →
  grid_kept m (touch name (set_pos icol irow) m).
Proof.
  intros Ha [Hwf Hd]. unfold grid_ok, touch, update_svc. simpl.
  destruct (lookup_svc name (_state m)) as [s0|] eqn:Hl; [|by split].
  apply allocate_Some in Ha as (before & after & _ & _ & Hfree).
  split.
  - apply (table_wf_store name _ s0); [done..|]. simpl.
    destruct Hwf as [_ Hwf]. apply Hwf. by apply lookup_svc_elem.
  - apply (cells_distinct_store_free name _ s0 _ (icol, irow)); try done.
    intros k srv Hin Hne Hsit. apply Hfree. by exists k, srv.
Qed.

Lemma grid_ok_create name meta m :
  lookup_svc name (_state m) = None →
  grid_kept m (with_state (store_svc name (new_record name meta) (_state m)) m).
Proof.
  intros Hl [Hwf Hd]. unfold grid_ok. simpl. split.
  - apply table_wf_new; [done..|]. by destruct meta.
  - apply cells_distinct_new; [done..|]. by destruct meta.
Qed.

Lemma grid_kept_kept : kept grid_kept.
Proof.
  split.
  - intros name g m. by apply grid_ok_touch_same.
  - intros name bo m. by apply grid_ok_touch_same.
  - intros name m col row icol irow. apply grid_ok_touch_place.
  - apply grid_ok_create.
  - intros cf m H. exact H.
  - intros h m H. exact H.
  - intros name d m. by apply grid_ok_touch_same.
  - intros name a m. by apply grid_ok_touch_same.
Qed.

Lemma grid_ok_init : grid_ok State.init.
Proof.
  split; [split|]; simpl.
  - constructor.
  - by intros k s ?%elem_of_nil.
  - by intros k1 s1 k2 s2 cell ?%elem_of_nil.
Qed.

End GridInvariant.

Section KeptByOperations.

Import State.

Variable FRONTIER_SERVICE : string.
Variable SHARED_CONFIG_KEY : string.
Variables DEFAULT_COL DEFAULT_ROW : Z.
Variable set_env : gmap string string → gmap string string → gmap string string.
Variable is_active : ServiceState → bool.
Variable methods : ServiceState → list string.
Variable dumps : list string → string.
Variable hash : string → Z.

Local Abbreviation get := (State.get SHARED_CONFIG_KEY DEFAULT_COL DEFAULT_ROW set_env).
Local Abbreviation clean_worker :=
  (State.clean_worker FRONTIER_SERVICE SHARED_CONFIG_KEY DEFAULT_COL
     DEFAULT_ROW set_env is_active methods dumps hash).
Local Abbreviation perform :=
  (perform FRONTIER_SERVICE SHARED_CONFIG_KEY DEFAULT_COL DEFAULT_ROW set_env
     is_active methods dumps hash).

Implicit Types (w : world) (m : StateManager) (name : string).
Implicit Types (s : ServiceState) (ps : params).

(** X1: [get] keeps the dashboard in order.  If the table has one entry
    per name, each record filed under its own name, and no two records on
    one cell, the same holds after [get(name, params)], whatever the
    params ask for and however the call ends: a record is only ever moved
    to a cell that [_allocate] found free of other records, and a new
    record starts without a cell. *)
Theorem get_keeps_grid w name ps m :
  grid_ok m → grid_ok (get w name ps m).1.1.
Proof.
  apply (respects_get SHARED_CONFIG_KEY DEFAULT_COL DEFAULT_ROW set_env
           grid_kept grid_kept_kept w name ps m).
Qed.

(** X2: so do the five lifecycle operations and the reconciler loop, over
    any number of ticks and whether they return or raise: starting from
    the empty table of [__init__], no sequence of them ever puts two
    records on one cell. *)
Theorem operations_keep_grid m :
  grid_ok m →
  (∀ op w name, grid_ok (perform op w name m).1.1) ∧
  (∀ ticks, grid_ok (clean_worker ticks m).1.1).
Proof.
  intros Hm. split.
  - intros op w name.
    apply (respects_perform FRONTIER_SERVICE SHARED_CONFIG_KEY DEFAULT_COL
             DEFAULT_ROW set_env is_active methods dumps hash
             grid_kept grid_kept_kept); [|done].
    intros n o m0. by apply grid_ok_touch_same.
  - intros ticks.
    by apply (respects_clean_worker FRONTIER_SERVICE SHARED_CONFIG_KEY DEFAULT_COL
                DEFAULT_ROW set_env is_active methods dumps hash
                grid_kept grid_kept_kept).
Qed.

(** The override in force for a name: none when there is no record. *)
Definition override_at m name : option status :=
  lookup_svc name (_state m) ≫= svc_status_override.

Definition overrides_kept : relation StateManager :=
  λ m m', ∀ name, override_at m' name = override_at m name.

Global Instance overrides_kept_preorder : PreOrder overrides_kept.
Proof.
  split.
  - by intros m name.
  - intros m1 m2 m3 H12 H23 name. by rewrite H23, H12.
Qed.

Lemma lookup_update_ne name name' (f : ServiceState → ServiceState)
    (t : list (string * ServiceState)) :
  name ≠ name' → lookup_svc name' (update_svc name f t) = lookup_svc name' t.
Proof.
  intros Hne. unfold update_svc. destruct (lookup_svc name t); [|done].
  by apply lookup_store_ne.
Qed.

Lemma overrides_kept_touch name (f : ServiceState → ServiceState) m :
  (∀ s, svc_status_override (f s) = svc_status_override s) →
  overrides_kept m (touch name f m).
Proof.
  intros Hf n. unfold override_at, touch. simpl.
  destruct (decide (name = n)) as [->|Hne].
  - rewrite lookup_update_eq. destruct (lookup_svc n (_state m)); [apply Hf|done].
  - by rewrite lookup_update_ne.
Qed.

Lemma overrides_kept_kept : kept overrides_kept.
Proof.
  split.
  - intros name g m. by apply overrides_kept_touch.
  - intros name bo m. by apply overrides_kept_touch.
  - intros name m col row icol irow _. by apply overrides_kept_touch.
  - intros name meta m Hl n. unfold override_at. simpl.
    destruct (decide (name = n)) as [->|Hne].
    + rewrite lookup_store_eq, Hl. by destruct meta.
    + by rewrite lookup_store_ne.
  - by intros cf m n.
  - by intros h m n.
  - intros name d m. by apply overrides_kept_touch.
  - intros name a m. by apply overrides_kept_touch.
Qed.

(** X3: the reconciler does not fight an operation in flight.  Over any
    number of ticks, with whatever the engine, the config store and the
    frontier answer, [clean_worker] leaves the status override of every
    name as it found it; so does a single [get]. *)
Theorem reconciler_keeps_overrides m name :
  (∀ ticks, override_at (clean_worker ticks m).1.1 name = override_at m name) ∧
  (∀ w n ps, override_at (get w n ps m).1.1 name = override_at m name).
Proof.
  split.
  - intros ticks.
    apply (respects_clean_worker FRONTIER_SERVICE SHARED_CONFIG_KEY DEFAULT_COL
             DEFAULT_ROW set_env is_active methods dumps hash
             overrides_kept overrides_kept_kept ticks m name).
  - intros w n ps.
    apply (respects_get SHARED_CONFIG_KEY DEFAULT_COL DEFAULT_ROW set_env
             overrides_kept overrides_kept_kept w n ps m name).
Qed.

End KeptByOperations.

Lemma get_keeps_grid_witness :
  grid_ok (State.get "shared" 0 0 State.set_env_replace catalog "web"
             (with_call_env {[ "A" := "1" ]}) State.init).1.1.
Proof.
  apply (get_keeps_grid "shared" 0 0 State.set_env_replace catalog "web"
           (with_call_env {[ "A" := "1" ]}) State.init grid_ok_init).
Defined.

Lemma operations_keep_grid_witness :
  grid_ok (perform "front" "shared" 0 0 State.set_env_replace
             sample_active sample_methods sample_dumps sample_hash
             Stop stop_refused "web" State.init).1.1.
Proof.
  apply (proj1 (operations_keep_grid "front" "shared" 0 0 State.set_env_replace
                  sample_active sample_methods sample_dumps sample_hash
                  State.init grid_ok_init) Stop stop_refused "web").
Defined.

(** * The placer's bounds *)

Section PlacerBounds.

Import State.

Implicit Types (m : StateManager) (name : string).

Lemma allocate_on_walk m name col row cell :
  _allocate m name col row = Some cell → cell ∈ _space_walk m col row.
Proof.
  intros (before & after & -> & _)%allocate_Some.
  apply elem_of_app. right. left.
Qed.

(** X4: a request inside the grid is answered inside the grid.  For
    [0 ≤ col ≤ cols] and [0 ≤ row ≤ rows], whatever cell [_allocate]
    returns has its column in [0..cols) and its row in [0..rows). *)
Theorem allocate_in_grid m name col row c r :
  0 ≤ col ≤ cols m → 0 ≤ row ≤ rows m →
  _allocate m name col row = Some (c, r) →
  0 ≤ c < cols m ∧ 0 ≤ r < rows m.
Proof.
  intros Hc Hr Ha%allocate_on_walk.
  rewrite space_walk_blocks, elem_of_app, !elem_of_block in Ha. lia.
Qed.

(** A dashboard whose top row is taken. *)
Definition top_row_taken : StateManager :=
  with_state
    (map (λ '(c, r), (cell_key c r, set_pos c r (new_service (cell_key c r))))
         (block 0 6 0 1))
    State.init.

(** A request beyond the grid can be answered beyond it: the walk from
    [(7, 1)] is the row 0 up to column 6, and with the top row taken its
    first free cell is [(6, 0)], one column past the 6 by 6 grid. *)
Example allocate_beyond_grid :
  _allocate top_row_taken "new" 7 1 = Some (6, 0).
Proof. by vm_compute. Qed.

(** X5: from the origin the walk is the whole grid.  [_allocate(name, 0, 0)]
    answers [None] exactly when a record other than [name] sits on every
    cell of the grid, and any cell it answers is the first free one in
    row-major order. *)
Theorem allocate_from_origin m name :
  (_allocate m name 0 0 = None ↔
     ∀ c r, 0 ≤ c < cols m → 0 ≤ r < rows m → taken_by_other m name (c, r)) ∧
  (∀ cell, _allocate m name 0 0 = Some cell →
     ¬ taken_by_other m name cell ∧
     ∀ c r, 0 ≤ c < cols m → 0 ≤ r < rows m →
            row_major_lt (c, r) cell → taken_by_other m name (c, r)).
Proof.
  assert (_space_walk m 0 0 = block 0 (cols m) 0 (rows m)) as Hwalk.
  { rewrite space_walk_blocks. unfold block at 2, range. simpl.
    apply app_nil_r. }
  split.
  - rewrite allocate_None, Hwalk, Forall_forall. split.
    + intros H c r Hc Hr. apply (H (c, r)). by apply elem_of_block.
    + intros H [c r] [Hc Hr]%elem_of_block. by apply H.
  - intros cell (before & after & Hw & Hb & Hfree)%allocate_Some.
    split; [done|]. intros c r Hc Hr Hlt.
    rewrite Hwalk in Hw.
    assert ((c, r) ∈ before ++ cell :: after) as Hin.
    { rewrite <- Hw. by apply elem_of_block. }
    pose proof (block_sorted 0 (cols m) 0 (rows m)) as Hs. rewrite Hw in Hs.
    apply elem_of_app in Hin as [Hin|Hin].
    + rewrite Forall_forall in Hb. by apply Hb.
    + exfalso. apply StronglySorted_app_1_r in Hs.
      apply StronglySorted_inv in Hs as [_ Hall].
      apply elem_of_cons in Hin as [Heq|Hin].
      * subst cell. unfold row_major_lt in Hlt. simpl in Hlt. lia.
      * rewrite Forall_forall in Hall. specialize (Hall _ Hin).
        destruct cell as [c' r']. unfold row_major_lt in *. simpl in *. lia.
Qed.

End PlacerBounds.

Lemma allocate_in_grid_witness :
  0 ≤ 0 < State.cols crowded ∧ 0 ≤ 0 < State.rows crowded.
Proof.
  apply (allocate_in_grid crowded "0x0" 1 1 0 0); [done.. | by vm_compute].
Defined.

Lemma allocate_from_origin_witness :
  ¬ taken_by_other State.init "web" (0, 0).
Proof.
  apply (proj1 (proj2 (allocate_from_origin State.init "web") (0, 0) eq_refl)).
Defined.

(** * How [get] fails *)

Section GetFailures.

Import State.

Variable SHARED_CONFIG_KEY : string.
Variables DEFAULT_COL DEFAULT_ROW : Z.
Variable set_env : gmap string string → gmap string string → gmap string string.

Local Abbreviation get := (State.get SHARED_CONFIG_KEY DEFAULT_COL DEFAULT_ROW set_env).
Local Abbreviation env_step' := (env_step set_env).
Local Abbreviation cache_shared' := (cache_shared SHARED_CONFIG_KEY).
Local Abbreviation created' := (created SHARED_CONFIG_KEY).
Local Abbreviation wanted_for' := (wanted_for DEFAULT_COL DEFAULT_ROW).

Implicit Types (w : world) (m : StateManager) (name : string).
Implicit Types (s : ServiceState) (ps : params).

Lemma state_cache_shared name cf m : _state (cache_shared' name cf m) = _state m.
Proof. unfold cache_shared. by destruct (_ && _). Qed.

(** X6: a collaborator that fails while a record is being created' leaves
    no record behind.  For a name that is not in the table, if the config
    store raises on [load_config], or answers and the image catalog
    raises on [image_meta], [get] raises the same exception and the table
    is exactly as it was. *)
Theorem get_collaborator_fails w name ps m e :
  lookup_svc name (_state m) = None →
  w_load_config w name = Raise e ∨
  (is_return (w_load_config w name) = true ∧ w_image_meta w name = Raise e) →
  ∃ m', get w name ps m = (m', [], Raise e) ∧ _state m' = _state m.
Proof.
  intros Hl Hfail. unfold State.get.
  erewrite bind_step; [|reflexivity]. rewrite Hl.
  destruct Hfail as [Hc|[Hc Hm]].
  - exists m. split; [|done].
    erewrite bind_raise; [done|].
    unfold load_state. erewrite bind_raise; [done|].
    unfold load_config. erewrite bind_raise; [done|].
    unfold lift. by rewrite Hc.
  - destruct (w_load_config w name) as [cf|e'] eqn:Hcf; [|done].
    exists (cache_shared' name cf m). split; [|apply state_cache_shared].
    erewrite bind_raise; [done|].
    unfold load_state.
    erewrite bind_step; [|by apply run_load_config].
    erewrite bind_raise; [done|]. unfold lift. by rewrite Hm.
Qed.

Lemma occupied_created name meta cf m :
  lookup_svc name (_state m) = None →
  _occupied (created' name meta cf m) name = _occupied m name.
Proof.
  intros Hl. unfold _occupied, created. simpl.
  rewrite state_cache_shared, (store_svc_new name _ _ Hl), flat_map_app.
  simpl. replace (svc_name (new_record name meta)) with name by (by destruct meta).
  rewrite String.eqb_refl. simpl. by rewrite !app_nil_r.
Qed.

Lemma allocate_created name meta cf m col row :
  lookup_svc name (_state m) = None →
  _allocate (created' name meta cf m) name col row = _allocate m name col row.
Proof.
  intros Hl. unfold _allocate. rewrite occupied_created by done.
  unfold _space_walk, created, cache_shared. simpl.
  by destruct (_ && _).
Qed.

(** X7: when the dashboard has no room, [get] of a new name raises but
    the record stays.  For a name that is not in the table, with the
    config store and the catalog answering, if every cell of the walk from
    the wanted position is taken then [get] raises [TypeError], and the
    table afterwards holds the old entries followed by the new record,
    which has no position. *)
Theorem get_no_room_keeps_record w name ps m meta cf :
  lookup_svc name (_state m) = None →
  w_load_config w name = Return cf → w_image_meta w name = Return meta →
  _allocate m name (wanted_for' (params_pos ps) meta cf).1
                   (wanted_for' (params_pos ps) meta cf).2 = None →
  ∃ m' s, get w name ps m = (m', [], Raise TypeError) ∧
          (_state m').*1 = (_state m).*1 ++ [name] ∧
          lookup_svc name (_state m') = Some s ∧
          svc_pos s = {| pos_col := None; pos_row := None |}.
Proof.
  intros Hl Hc Hm Hnone.
  rewrite (get_new SHARED_CONFIG_KEY DEFAULT_COL DEFAULT_ROW set_env
             w name ps m meta cf Hl Hc Hm).
  destruct (wanted_for' (params_pos ps) meta cf) as [col row] eqn:Hw.
  simpl in Hnone. unfold place_step.
  rewrite allocate_build_step, allocate_env_step, allocate_created, Hnone by done.
  set (m1 := build_step ps name (env_step' _ name (created' name meta cf m))).
  assert (svc_pos <$> lookup_svc name (_state m1)
          = Some {| pos_col := None; pos_row := None |}) as Hpos.
  { unfold m1. rewrite pos_build_step, pos_env_step, lookup_created.
    by destruct meta. }
  destruct (lookup_svc name (_state m1)) as [s|] eqn:Hs; [|done].
  exists m1, s. split_and!; [done| |done|by injection Hpos].
  assert (∀ f m0, (_state (touch name f m0)).*1 = (_state m0).*1) as Hkeys.
  { intros f m0. unfold touch, update_svc. simpl.
    destruct (lookup_svc name (_state m0)) as [s0|] eqn:E; [|done].
    by apply (store_svc_keys name _ s0). }
  unfold m1, build_step, env_step.
  destruct (p_build_options ps) as [bo|]; [destruct (negb _)|];
    destruct (bool_decide _); rewrite ?Hkeys;
    unfold created; simpl;
    by rewrite state_cache_shared, (store_svc_new name _ _ Hl), fmap_app.
Qed.

End GetFailures.

Lemma get_collaborator_fails_witness :
  ∃ m', State.get "shared" 0 0 State.set_env_replace store_down "db"
          State.no_params web_known = (m', [], Raise ConnectionRefusedError) ∧
        State._state m' = State._state web_known.
Proof.
  apply (get_collaborator_fails "shared" 0 0 State.set_env_replace store_down
           "db" State.no_params web_known ConnectionRefusedError);
    [by vm_compute | by left].
Defined.

Lemma get_no_room_keeps_record_witness :
  ∃ m' s, State.get "shared" 1 1 State.set_env_replace State.quiet "new"
            State.no_params crowded_web = (m', [], Raise TypeError) ∧
          (State._state m').*1 = (State._state crowded_web).*1 ++ ["new"] ∧
          State.lookup_svc "new" (State._state m') = Some s ∧
          State.svc_pos s = {| State.pos_col := None; State.pos_row := None |}.
Proof.
  apply (get_no_room_keeps_record "shared" 1 1 State.set_env_replace State.quiet
           "new" State.no_params crowded_web None None);
    [by vm_compute | done | done | by vm_compute].
Defined.

(** * Registrations and autostart *)

Section Registrations.

Import State.

Variable FRONTIER_SERVICE : string.
Variable SHARED_CONFIG_KEY : string.
Variables DEFAULT_COL DEFAULT_ROW : Z.
Variable set_env : gmap string string → gmap string string → gmap string string.
Variable is_active : ServiceState → bool.
Variable methods : ServiceState → list string.
Variable dumps : list string → string.
Variable hash : string → Z.

Local Abbreviation get := (State.get SHARED_CONFIG_KEY DEFAULT_COL DEFAULT_ROW set_env).
Local Abbreviation check_regs_changed :=
  (State.check_regs_changed FRONTIER_SERVICE SHARED_CONFIG_KEY DEFAULT_COL
     DEFAULT_ROW set_env is_active methods dumps hash).
Local Abbreviation request_app_state :=
  (State.request_app_state FRONTIER_SERVICE SHARED_CONFIG_KEY DEFAULT_COL
     DEFAULT_ROW set_env is_active methods).
Local Abbreviation registrations := (State.registrations is_active methods).
Local Abbreviation run_service :=
  (State.run_service SHARED_CONFIG_KEY DEFAULT_COL DEFAULT_ROW set_env).

Implicit Types (w : world) (m : StateManager) (name : string).
Implicit Types (s : ServiceState).

Lemma request_app_state_hash w name m :
  registrations_hash (request_app_state w name m).1.1 = registrations_hash m.
Proof.
  unfold State.request_app_state.
  pose proof (get_hash SHARED_CONFIG_KEY DEFAULT_COL DEFAULT_ROW set_env
                w name no_params m) as [Hh Ht].
  destruct (get w name no_params m) as [[m1 tr] [svc|e]] eqn:E;
    simpl in Hh, Ht; subst tr.
  - erewrite bind_step; [|exact E].
    erewrite bind_step; [|reflexivity].
    erewrite bind_emit; [|reflexivity].
    destruct (w_rpc_request w name) as [status|e]; simpl; done.
  - erewrite bind_raise; [|exact E]. done.
Qed.

(** X8: a change of the registrations is announced at most once.
    Whatever happens to the probe (the frontier answers, [rpc.request]
    raises, or [get] cannot hand over the frontier's record),
    [check_regs_changed] leaves as stored hash the hash of the
    registrations it computed; so a second call on unchanged registrations
    sends nothing, also when the first probe failed. *)
Theorem check_regs_changed_once w w' m :
  registrations_hash (check_regs_changed w m).1.1
    = HashInt (hash (dumps (registrations m))) ∧
  (registrations (check_regs_changed w m).1.1 = registrations m →
     check_regs_changed w' (check_regs_changed w m).1.1
     = ((check_regs_changed w m).1.1, [], Return tt)).
Proof.
  assert (registrations_hash (check_regs_changed w m).1.1
          = HashInt (hash (dumps (registrations m)))) as Hstored.
  { unfold State.check_regs_changed.
    erewrite bind_step; [|reflexivity].
    destruct (bool_decide_reflect
                (HashInt (hash (dumps (registrations m))) ≠ registrations_hash m))
      as [Hne|Heq].
    - erewrite bind_step; [|reflexivity]. by rewrite request_app_state_hash.
    - simpl. by destruct (decide (HashInt (hash (dumps (registrations m)))
                                   = registrations_hash m)). }
  split; [done|]. intros Hregs.
  set (m' := (check_regs_changed w m).1.1) in *.
  unfold State.check_regs_changed at 1.
  erewrite bind_step; [|reflexivity].
  rewrite Hregs, Hstored. by rewrite bool_decide_eq_false_2 by (by intros ?).
Qed.

(** [handle_auto_start]: [should_start()] answers the started set;
    [image_navigator.is_native] is the catalog's. *)
Definition handle_auto_start (is_native : string → bool)
    (should_start : result (list string)) w : M unit :=
  services <- lift should_start ;;
  for_each services (λ item,
    svc <- get w item no_params ;;
    if negb (is_active svc) && is_native (svc_name svc)
    then run_service w (svc_name svc) ;;; ret tt
    else ret tt).

Lemma for_each_raises {A} (a : A) (rest : list A) (body : A → M unit) m m1 tr e :
  body a m = (m1, tr, Raise e) → for_each (a :: rest) body m = (m1, tr, Raise e).
Proof. intros H. simpl. by erewrite bind_raise. Qed.

Lemma for_each_skips {A} (l : list A) (body : A → M unit) m :
  (∀ a, a ∈ l → body a m = (m, [], Return tt)) →
  for_each l body m = (m, [], Return tt).
Proof.
  induction l as [|a l IH]; intros H; simpl; [done|].
  erewrite bind_step; [|apply H; left].
  apply IH. intros b Hb. apply H. by right.
Qed.

(** X9: autostart stops at the first service that fails to start.  If
    the first name of the started set has a record that is not active, is
    native, and whose [run_container] raises, [handle_auto_start] raises
    that exception with the record left in override [STARTING]; the names
    after it are not looked at. *)
Theorem handle_auto_start_stops (is_native : string → bool) w item
    (rest : list string) m s e :
  lookup_svc item (_state m) = Some s → svc_name s = item →
  is_active s = false → is_native item = true →
  w_run_container w item = Raise e →
  handle_auto_start is_native (Return (item :: rest)) w m
  = (touch item (set_status_override STATUS_STARTING)
       (touch item clean_status m), [], Raise e).
Proof.
  intros Hl Hn Hact Hnat He. unfold handle_auto_start.
  erewrite bind_step; [|reflexivity].
  apply for_each_raises.
  erewrite bind_step; [|by apply get_present_no_params].
  rewrite Hact, Hn, Hnat. simpl.
  erewrite bind_raise; [done|].
  apply (run_service_raises FRONTIER_SERVICE SHARED_CONFIG_KEY DEFAULT_COL DEFAULT_ROW
           set_env is_active methods dumps hash w item m s e Hl He).
Qed.

(** X10: autostart leaves running services alone.  If every name of the
    started set has a record that is active, or is not native, then
    [handle_auto_start] changes nothing, sends nothing and returns. *)
Theorem handle_auto_start_skips (is_native : string → bool) w
    (services : list string) m :
  (∀ item, item ∈ services →
     ∃ s, lookup_svc item (_state m) = Some s ∧
          (is_active s = true ∨ is_native (svc_name s) = false)) →
  handle_auto_start is_native (Return services) w m = (m, [], Return tt).
Proof.
  intros H. unfold handle_auto_start.
  erewrite bind_step; [|reflexivity].
  apply for_each_skips. intros item Hin.
  destruct (H item Hin) as (s & Hl & Hskip).
  erewrite bind_step; [|by apply get_present_no_params].
  by destruct Hskip as [-> | ->]; rewrite ?andb_false_r.
Qed.

End Registrations.

(** The engine refuses to run the container. *)
Definition run_refused : State.world :=
  {| State.w_load_config := λ _, Return None;
     State.w_image_meta := λ _, Return None;
     State.w_set_add := λ _, Return tt;
     State.w_set_rm := λ _, Return tt;
     State.w_containers := Return [];
     State.w_dock_get := λ _, Return None;
     State.w_run_container := λ _, Raise (DockerError 500);
     State.w_remove_container := λ _, Return tt;
     State.w_stop_container := λ _, Return tt;
     State.w_start_container := λ _, Return tt;
     State.w_restart_container := λ _, Return tt;
     State.w_rpc_request := λ _, Return "ok";
     State.w_sleep := Return tt;
     State.w_sleep_tail := Return tt |}.

Definition nothing_active (s : State.ServiceState) : bool := false.
Definition all_native (name : string) : bool := true.

Lemma check_regs_changed_once_witness :
  State.check_regs_changed "front" "shared" 0 0 State.set_env_replace
    nothing_active sample_methods sample_dumps sample_hash State.quiet
    (State.check_regs_changed "front" "shared" 0 0 State.set_env_replace
       nothing_active sample_methods sample_dumps sample_hash State.quiet
       web_known).1.1
  = ((State.check_regs_changed "front" "shared" 0 0 State.set_env_replace
        nothing_active sample_methods sample_dumps sample_hash State.quiet
        web_known).1.1, [], Return tt).
Proof.
  apply (proj2 (check_regs_changed_once "front" "shared" 0 0
                  State.set_env_replace nothing_active sample_methods
                  sample_dumps sample_hash State.quiet State.quiet web_known)).
  reflexivity.
Defined.

Lemma handle_auto_start_stops_witness :
  handle_auto_start "shared" 0 0 State.set_env_replace nothing_active all_native
    (Return ["web"; "db"]) run_refused web_known
  = (touch "web" (State.set_status_override State.STATUS_STARTING)
       (touch "web" State.clean_status web_known), [], Raise (DockerError 500)).
Proof.
  apply (handle_auto_start_stops "front" "shared" 0 0 State.set_env_replace
           nothing_active sample_methods sample_dumps sample_hash all_native
           run_refused "web" ["db"] web_known web_record (DockerError 500));
    [apply web_known_record | reflexivity..].
Defined.

Lemma handle_auto_start_skips_witness :
  handle_auto_start "shared" 0 0 State.set_env_replace sample_active all_native
    (Return ["web"]) run_refused web_known
  = (web_known, [], Return tt).
Proof.
  apply (handle_auto_start_skips "shared" 0 0 State.set_env_replace
           sample_active all_native run_refused ["web"] web_known).
  intros item Hin. apply list_elem_of_singleton in Hin. subst item.
  exists web_record. split; [apply web_known_record | by left].
Defined.

(** * The driver's container operations *)

Module Driver.

Import Docker.

(** What goes out to the engine and to the log while an operation on one
    container runs. *)
Inductive call : Type :=
  | ContainersGet (name : string)   (* dc.containers.get(name) *)
  | Fill                            (* container.fill() *)
  | Stop                            (* container.stop() *)
  | Delete                          (* container.delete() *)
  | Wait                            (* container.wait(condition="removed") *)
  | Log (level msg : string).

(** What the engine answers for the container of one [remove_container]
    call: whether [dc.containers.get] hands over a container, and for the
    container its state after [fill], its auto-remove flag and the outcome
    of each request. *)
Record container_world : Type := {
  cw_lookup : result bool;
  cw_fill : result unit;
  cw_state : string;
  cw_auto_removable : bool;
  cw_stop : result unit;
  cw_delete : result unit;
  cw_wait : result unit
}.

(** A coroutine of the driver: the calls it made, and how it ended. *)
Definition run (A : Type) : Type := list call * result A.

Definition answer {A} (a : A) : run A := ([], Return a).

Definition andthen {A B} (c : run A) (k : A → run B) : run B :=
  match c with
  | (tr, Raise e) => (tr, Raise e)
  | (tr, Return a) => let '(tr', r) := k a in (tr ++ tr', r)
  end.

Definition request {A} (c : call) (outcome : result A) : run A := ([c], outcome).

Definition log (level msg : string) : run unit := ([Log level msg], Return tt).

(** [DockerManager.get]: a [DockerError] of the lookup is logged and the
    answer is [None]; any other exception goes through. *)
Definition get (w : container_world) (name : string) : run bool :=
  match cw_lookup w with
  | Return found => ([ContainersGet name], Return found)
  | Raise (DockerError status) =>
      ([ContainersGet name; Log "warn" "Fetched exception"], Return false)
  | Raise e => ([ContainersGet name], Raise e)
  end.

(** The inner [try] of [remove_container] around [container.wait]: a
    [DockerError] is logged, and raised again unless its status is 404. *)
Definition wait_removed (w : container_world) : run unit :=
  match cw_wait w with
  | Raise (DockerError status) =>
      ([Wait; Log "debug" "Docker 404 received on wait request"],
       if bool_decide (status ≠ 404) then Raise (DockerError status)
       else Return tt)
  | outcome => ([Wait], outcome)
  end.

(** The body of the outer [try] of [remove_container]. *)
Definition remove_body (w : container_world) (name : string) : run unit :=
  andthen (get w name) (λ container,
    if container then
      andthen (request Fill (cw_fill w)) (λ _,
      andthen
        (if String.eqb (cw_state w) "running" then
           andthen (log "info" "Stopping container") (λ _,
           andthen (request Stop (cw_stop w)) (λ _,
             if negb (cw_auto_removable w)
             then request Delete (cw_delete w) else answer tt))
         else request Delete (cw_delete w)) (λ _,
      wait_removed w))
    else answer tt).

(** [remove_container]: a [DockerError] that leaves the body is logged;
    then [True] is returned. *)
Definition remove_container (w : container_world) (name : string) : run bool :=
  match remove_body w name with
  | (tr, Raise (DockerError _)) =>
      (tr ++ [Log "exception" "container remove exc"], Return true)
  | (tr, Raise e) => (tr, Raise e)
  | (tr, Return _) => (tr, Return true)
  end.

(** [stop_container], [start_container] and [restart_container] differ in
    the request only: the container is looked up in [containers()], the
    dict of the labelled containers, and the request is made on it. *)
Inductive action : Type := DoStop | DoStart | DoRestart.

Inductive action_call : Type :=
  | Info (msg : string)
  | Act (a : action) (target : BandContainer).

Definition container_action (a : action) (engine : list BandContainer)
    (outcome : result unit) (name : string)
    : list action_call * result (option bool) :=
  let conts := containers None true engine in
  match conts !! name with
  | Some target =>
      ([Info name; Act a target],
       match outcome with
       | Return _ => Return (Some true)
       | Raise e => Raise e
       end)
  | None => ([], Return None)
  end.

Definition stop_container := container_action DoStop.
Definition start_container := container_action DoStart.
Definition restart_container := container_action DoRestart.

End Driver.

Section DriverFacts.

Import Docker Driver.

Implicit Types (w : container_world) (name : string).

Definition is_DockerError (e : exn) : bool :=
  match e with DockerError _ => true | _ => false end.

(** X11: no [DockerError] leaves [remove_container].  Whatever the
    engine answers, the operation either returns [True] or raises an
    exception that is not a [DockerError]; and when each request of the
    engine returns or raises a [DockerError], it returns [True]. *)
Theorem remove_container_absorbs_DockerError w name :
  ((remove_container w name).2 = Return true ∨
   ∃ e, (remove_container w name).2 = Raise e ∧ is_DockerError e = false) ∧
  ((∀ e, cw_lookup w = Raise e ∨ cw_fill w = Raise e ∨ cw_stop w = Raise e ∨
         cw_delete w = Raise e ∨ cw_wait w = Raise e → is_DockerError e = true) →
   (remove_container w name).2 = Return true).
Proof.
  assert ((remove_container w name).2 = Return true ∨
          ∃ e, (remove_container w name).2 = Raise e ∧ is_DockerError e = false
               ∧ (remove_body w name).2 = Raise e) as Hres.
  { unfold remove_container.
    destruct (remove_body w name) as [tr [[]|e]]; [by left|].
    destruct e; simpl; try (by left); right; eexists; by split_and!. }
  split; [destruct Hres as [?|(e & ? & ? & _)]; [by left | right; by exists e]|].
  intros Hall. destruct Hres as [?|(e & _ & Hnd & Hbody)]; [done|].
  exfalso. rewrite (Hall e) in Hnd; [done|].
  revert Hbody. unfold remove_body, get, wait_removed, andthen, request, log, answer.
  destruct (cw_lookup w) as [[]|e0] eqn:Hl; simpl.
  - destruct (cw_fill w) as [[]|e1] eqn:Hf; simpl;
      [|intros [= ->]; by right; left].
    destruct (String.eqb (cw_state w) "running"); simpl.
    + destruct (cw_stop w) as [[]|e2] eqn:Hs; simpl;
        [|intros [= ->]; by right; right; left].
      destruct (negb (cw_auto_removable w)); simpl.
      * destruct (cw_delete w) as [[]|e3] eqn:Hd; simpl;
          [|intros [= ->]; by right; right; right; left].
        destruct (cw_wait w) as [[]|e4] eqn:Hw; simpl; [done|].
        destruct e4; simpl; try (intros [= <-]; by right; right; right; right).
        case_bool_decide; [|done]. intros [= <-]. by right; right; right; right.
      * destruct (cw_wait w) as [[]|e4] eqn:Hw; simpl; [done|].
        destruct e4; simpl; try (intros [= <-]; by right; right; right; right).
        case_bool_decide; [|done]. intros [= <-]. by right; right; right; right.
    + destruct (cw_delete w) as [[]|e3] eqn:Hd; simpl;
        [|intros [= ->]; by right; right; right; left].
      destruct (cw_wait w) as [[]|e4] eqn:Hw; simpl; [done|].
      destruct e4; simpl; try (intros [= <-]; by right; right; right; right).
      case_bool_decide; [|done]. intros [= <-]. by right; right; right; right.
  - done.
  - destruct e0; simpl; try done; intros [= <-]; by left.
Qed.

(** Which calls an operation on the container of [w] may make. *)
Definition allowed_call w name (c : call) : Prop :=
  match c with
  | ContainersGet n => n = name
  | Fill | Wait => cw_lookup w = Return true
  | Stop => cw_lookup w = Return true ∧ cw_state w = "running"
  | Delete => cw_lookup w = Return true ∧
              (cw_state w ≠ "running" ∨ cw_auto_removable w = false)
  | Log _ _ => True
  end.

Lemma andthen_calls {A B} (P : call → Prop) (c : run A) (k : A → run B) :
  Forall P c.1 → (∀ a, c.2 = Return a → Forall P (k a).1) →
  Forall P (andthen c k).1.
Proof.
  intros Hc Hk. unfold andthen. destruct c as [tr [a|e]]; [|done].
  specialize (Hk a eq_refl). destruct (k a) as [tr' r]. simpl in *.
  by apply Forall_app.
Qed.

Lemma request_calls {A} (P : call → Prop) (c : call) (outcome : result A) :
  P c → Forall P (request c outcome).1.
Proof. intros Hc. by repeat constructor. Qed.

Lemma get_calls w name : Forall (allowed_call w name) (get w name).1.
Proof.
  unfold get. destruct (cw_lookup w) as [found|[]]; by repeat constructor.
Qed.

Lemma get_found w name : (get w name).2 = Return true → cw_lookup w = Return true.
Proof.
  unfold get. destruct (cw_lookup w) as [found|[]]; simpl;
    intros H; by simplify_eq.
Qed.

Lemma wait_removed_calls w name :
  cw_lookup w = Return true → Forall (allowed_call w name) (wait_removed w).1.
Proof.
  intros Hl. unfold wait_removed.
  destruct (cw_wait w) as [[]|[]]; by repeat constructor.
Qed.

Lemma remove_body_calls w name :
  Forall (allowed_call w name) (remove_body w name).1.
Proof.
  unfold remove_body. apply andthen_calls; [apply get_calls|].
  intros [] Hfound; [|constructor].
  apply get_found in Hfound.
  apply andthen_calls; [by apply (request_calls _ Fill (cw_fill w))|]. intros _ _.
  apply andthen_calls; [|intros _ _; by apply wait_removed_calls].
  destruct (String.eqb_spec (cw_state w) "running") as [Hrun|Hrun].
  - apply andthen_calls; [by repeat constructor|]. intros _ _.
    apply andthen_calls; [by apply (request_calls _ Stop (cw_stop w))|]. intros _ _.
    destruct (cw_auto_removable w) eqn:Hauto; simpl; [constructor|].
    apply (request_calls _ Delete (cw_delete w)). split; [done|by right].
  - apply (request_calls _ Delete (cw_delete w)). split; [done|by left].
Qed.

Lemma remove_container_calls w name :
  Forall (allowed_call w name) (remove_container w name).1.
Proof.
  pose proof (remove_body_calls w name) as H. unfold remove_container.
  destruct (remove_body w name) as [tr [[]|e]]; [done|].
  destruct e; simpl in *; try done.
  apply Forall_app. split; [done|]. by repeat constructor.
Qed.

(** X12: what [remove_container] asks of the engine.  A container is
    stopped only if its state is [running]; it is deleted only if it is
    not running or is not auto-removable; and when the lookup does not
    hand over a container, nothing at all is asked of one. *)
Theorem remove_container_requests w name :
  (Stop ∈ (remove_container w name).1 → cw_state w = "running") ∧
  (Delete ∈ (remove_container w name).1 →
     cw_state w ≠ "running" ∨ cw_auto_removable w = false) ∧
  (cw_lookup w ≠ Return true →
     ∀ c, c ∈ (remove_container w name).1 →
          c ≠ Fill ∧ c ≠ Stop ∧ c ≠ Delete ∧ c ≠ Wait).
Proof.
  pose proof (remove_container_calls w name) as H.
  rewrite Forall_forall in H. split_and!.
  - intros Hin. by destruct (H _ Hin).
  - intros Hin. by destruct (H _ Hin).
  - intros Hl c Hin. specialize (H _ Hin).
    split_and!; intros ->; simpl in H; by try destruct H.
Qed.

(** A name that some container of the listing carries is a key of the
    dict that [containers()] builds. *)
Lemma foldl_insert_lookup_is_Some (l : list BandContainer)
    (m0 : gmap string BandContainer) n :
  (is_Some (m0 !! n) ∨ ∃ c, c ∈ l ∧ bc_name c = n) →
  is_Some (foldl (λ m c, <[bc_name c := c]> m) m0 l !! n).
Proof.
  revert m0. induction l as [|d l IH]; intros m0 H; simpl.
  - destruct H as [H|(c & Hc & _)]; [done | by apply elem_of_nil in Hc].
  - apply IH. destruct (decide (bc_name d = n)) as [<-|Hne].
    + left. by rewrite lookup_insert_eq.
    + destruct H as [H|(c & Hc & Hn)].
      * left. by rewrite lookup_insert_ne.
      * apply elem_of_cons in Hc as [->|Hc]; [done|]. right. by exists c.
Qed.

(** X13: [stop_container], [start_container] and [restart_container] act
    on labelled containers only.  If some container of the engine carries
    the [inband] label and the given name, the operation logs its line and
    makes its one request, on such a container; it returns [True] when the
    request returns and raises what the request raises.  If no labelled
    container has the name, nothing is requested and the answer is [None],
    whatever the state of the engine.  In no case is a request made on
    anything but a labelled container of that name. *)
Theorem container_action_on_labelled (a : action) (engine : list BandContainer)
    (outcome : result unit) name :
  ((∃ c, c ∈ engine ∧ has_label "inband" c = true ∧ bc_name c = name) →
     ∃ target,
       target ∈ engine ∧ has_label "inband" target = true ∧
       bc_name target = name ∧
       container_action a engine outcome name
       = ([Info name; Act a target],
          match outcome with
          | Return _ => Return (Some true)
          | Raise e => Raise e
          end)) ∧
  ((∀ c, c ∈ engine → has_label "inband" c = true → bc_name c ≠ name) →
     container_action a engine outcome name = ([], Return None)) ∧
  (∀ a' target, Act a' target ∈ (container_action a engine outcome name).1 →
     a' = a ∧ target ∈ engine ∧ has_label "inband" target = true ∧
     bc_name target = name).
Proof.
  unfold container_action.
  destruct (containers None true engine !! name) as [target|] eqn:Hl.
  - unfold containers in Hl.
    apply foldl_insert_lookup in Hl as [[Hin Hn]|Hl];
      [|by rewrite lookup_empty in Hl].
    apply elem_of_containers_list in Hin as [Hin Hm].
    unfold engine_match in Hm. apply andb_true_iff in Hm as [Hlab _].
    split_and!.
    + intros _. by exists target.
    + intros Hnone. exfalso. by apply (Hnone target).
    + intros a' target' Hact. simpl in Hact.
      apply elem_of_cons in Hact as [?|Hact]; [done|].
      apply list_elem_of_singleton in Hact. by injection Hact as -> ->.
  - split_and!; [|done|].
    + intros (c & Hc & Hlab & Hn). exfalso.
      assert (is_Some (containers None true engine !! name)) as [? Hs];
        [|by rewrite Hl in Hs].
      unfold containers. apply foldl_insert_lookup_is_Some. right.
      exists c. split; [|done]. apply elem_of_containers_list.
      split; [done|]. unfold engine_match. by rewrite Hlab.
    + intros a' target' Hact. simpl in Hact. by apply elem_of_nil in Hact.
Qed.

End DriverFacts.

(** A running, auto-removable container whose removal the engine
    confirms with a 500 on [wait]. *)
Definition auto_removed : Driver.container_world :=
  {| Driver.cw_lookup := Return true;
     Driver.cw_fill := Return tt;
     Driver.cw_state := "running";
     Driver.cw_auto_removable := true;
     Driver.cw_stop := Return tt;
     Driver.cw_delete := Return tt;
     Driver.cw_wait := Raise (DockerError 500) |}.

Example remove_container_auto_removed :
  Driver.remove_container auto_removed "web"
  = ([Driver.ContainersGet "web"; Driver.Fill;
      Driver.Log "info" "Stopping container"; Driver.Stop; Driver.Wait;
      Driver.Log "debug" "Docker 404 received on wait request";
      Driver.Log "exception" "container remove exc"], Return true).
Proof. reflexivity. Qed.

Lemma remove_container_absorbs_DockerError_witness :
  (Driver.remove_container auto_removed "web").2 = Return true.
Proof.
  apply (proj2 (remove_container_absorbs_DockerError auto_removed "web")).
  intros e [H|[H|[H|[H|H]]]]; try discriminate H.
  by injection H as <-.
Defined.

Lemma remove_container_requests_witness :
  Driver.cw_state auto_removed = "running".
Proof.
  apply (proj1 (remove_container_requests auto_removed "web")).
  vm_compute. do 3 right. left.
Defined.

(** An engine whose only container named [db] does not carry the label. *)
Definition unlabelled_engine : list Docker.BandContainer :=
  [ {| Docker.bc_name := "db"; Docker.bc_labels := [];
       Docker.bc_status := "running"; Docker.bc_ports := [5432] |} ].

(** An engine with a managed container [web] next to it. *)
Definition web_container : Docker.BandContainer :=
  {| Docker.bc_name := "web"; Docker.bc_labels := ["inband"];
     Docker.bc_status := "running"; Docker.bc_ports := [8900] |}.

Definition mixed_engine : list Docker.BandContainer :=
  unlabelled_engine ++ [web_container].

Lemma container_action_on_labelled_witness :
  Driver.stop_container unlabelled_engine (Return tt) "db" = ([], Return None) ∧
  ∃ target,
    target ∈ mixed_engine ∧ Docker.has_label "inband" target = true ∧
    Docker.bc_name target = "web" ∧
    Driver.restart_container mixed_engine (Raise (DockerError 409)) "web"
    = ([Driver.Info "web"; Driver.Act Driver.DoRestart target],
       Raise (DockerError 409)).
Proof.
  split.
  - apply (proj1 (proj2 (container_action_on_labelled Driver.DoStop
                           unlabelled_engine (Return tt) "db"))).
    intros c Hc Hl. apply list_elem_of_singleton in Hc. subst c. discriminate Hl.
  - apply (proj1 (container_action_on_labelled Driver.DoRestart mixed_engine
                    (Raise (DockerError 409)) "web")).
    exists web_container. split_and!; [|reflexivity..].
    right. left.
Defined.

(** On the same engine a stop of [web] that the engine accepts. *)
Example stop_container_web :
  Driver.stop_container mixed_engine (Return tt) "web"
  = ([Driver.Info "web"; Driver.Act Driver.DoStop web_container],
     Return (Some true)).
Proof. reflexivity. Qed.

(** * The event pump *)

Module Pump.

Import Docker.

(** The fields of an engine event that [events_reader] reads:
    [event['Action']], [event['Type']], [event['Actor']['ID']] and
    [event['Actor']['Attributes']['name']]. *)
Record docker_event : Type := {
  ev_action : string;
  ev_type : string;
  ev_actor_id : string;
  ev_actor_name : string
}.

(** A log reader handed to the scheduler: for a container listed at
    startup, or for the container of a start event. *)
Inductive spawned : Type :=
  | AtBoot (bc : BandContainer)
  | OnStart (name cid : string).

Definition is_container_start (ev : docker_event) : bool :=
  String.eqb (ev_action ev) "start" && String.eqb (ev_type ev) "container".

(** The [while True] loop of [events_reader]: [None] ends it; a start
    event of a container looks the container up (an exception of the
    lookup ends the coroutine) and spawns a reader; any other event spawns
    nothing. *)
Fixpoint events_loop (lookup : string → result unit)
    (events : list (option docker_event)) : list spawned * reader_state :=
  match events with
  | [] => ([], Waiting)
  | None :: _ => ([], Closed)
  | Some event :: rest =>
      if is_container_start event then
        match lookup (ev_actor_id event) with
        | Raise e => ([], Failed e)
        | Return _ =>
            let '(readers, st) := events_loop lookup rest in
            (OnStart (ev_actor_name event) (ev_actor_id event) :: readers, st)
        end
      else events_loop lookup rest
  end.

(** [events_reader]: first a reader for every container of
    [containers(inband=False, status='running', struct=list)], then the
    loop. *)
Definition events_reader (engine : list BandContainer)
    (lookup : string → result unit) (events : list (option docker_event))
    : list spawned * reader_state :=
  let boot := AtBoot <$> containers_list (Some "running") false engine in
  let '(readers, st) := events_loop lookup events in
  (boot ++ readers, st).

End Pump.

Section PumpFacts.

Import Docker Pump.

Implicit Types (engine : list BandContainer) (lookup : string → result unit).

Lemma events_loop_reads lookup (evs : list docker_event)
    (later : list (option docker_event)) :
  (∀ ev, ev ∈ evs → is_container_start ev = true →
         is_return (lookup (ev_actor_id ev)) = true) →
  events_loop lookup ((Some <$> evs) ++ None :: later)
  = ((λ ev, OnStart (ev_actor_name ev) (ev_actor_id ev))
       <$> List.filter is_container_start evs, Closed).
Proof.
  induction evs as [|ev evs IH]; intros Hok; csimpl; [done|].
  destruct (is_container_start ev) eqn:E.
  - specialize (Hok ev (list_elem_of_here _ _) E) as Hev.
    destruct (lookup (ev_actor_id ev)) as [[]|e]; [|done].
    rewrite IH; [done|]. intros ev' Hin. apply Hok. by right.
  - apply IH. intros ev' Hin. apply Hok. by right.
Qed.

(** X14: who gets a log reader.  At startup [events_reader] spawns one
    reader for every container whose status is [running], labelled or
    not, in the order of the listing; then, as long as the engine finds
    the containers, one reader for every container start event that
    arrives before the end of the stream, in order, and none for any other
    event or for anything after the end. *)
Theorem events_reader_spawns engine lookup (evs : list docker_event)
    (later : list (option docker_event)) :
  (∀ ev, ev ∈ evs → is_container_start ev = true →
         is_return (lookup (ev_actor_id ev)) = true) →
  events_reader engine lookup ((Some <$> evs) ++ None :: later)
  = ((AtBoot <$> List.filter (λ c, bool_decide (bc_status c = "running")) engine)
     ++ ((λ ev, OnStart (ev_actor_name ev) (ev_actor_id ev))
           <$> List.filter is_container_start evs),
     Closed).
Proof.
  intros Hok. unfold events_reader. rewrite events_loop_reads by done.
  unfold containers_list, engine_list, engine_match. simpl. done.
Qed.


End PumpFacts.

Definition sample_events : list Pump.docker_event :=
  [ {| Pump.ev_action := "start"; Pump.ev_type := "container";
       Pump.ev_actor_id := "c1"; Pump.ev_actor_name := "web" |};
    {| Pump.ev_action := "stop"; Pump.ev_type := "container";
       Pump.ev_actor_id := "c1"; Pump.ev_actor_name := "web" |};
    {| Pump.ev_action := "start"; Pump.ev_type := "network";
       Pump.ev_actor_id := "n1"; Pump.ev_actor_name := "bridge" |} ].

Definition late_start : Pump.docker_event :=
  {| Pump.ev_action := "start"; Pump.ev_type := "container";
     Pump.ev_actor_id := "c2"; Pump.ev_actor_name := "db" |}.

Lemma events_reader_spawns_witness :
  Pump.events_reader unlabelled_engine (λ _, Return tt)
    ((Some <$> sample_events) ++ None :: [Some late_start])
  = ([Pump.AtBoot {| Docker.bc_name := "db"; Docker.bc_labels := [];
                     Docker.bc_status := "running"; Docker.bc_ports := [5432] |};
      Pump.OnStart "web" "c1"], Docker.Closed).
Proof.
  apply (events_reader_spawns unlabelled_engine (λ _, Return tt) sample_events
           [Some late_start]).
  intros ev _ _. reflexivity.
Defined.


(** * More on the log reader and the port pool *)

Section ReaderAndPool.

Import Docker.

Implicit Types (dm : DockerManager) (engine : list BandContainer).
Implicit Types (cid name : string).

Lemma read_record_short cid name now (log_record : list byte) :
  (length log_record < 8)%nat →
  read_record cid name now log_record
  = Raise (if bool_decide (log_record = []) then IndexError else StructError).
Proof.
  intros Hlen. unfold read_record.
  destruct log_record as [|b0 l]; [done|].
  rewrite bool_decide_eq_false_2 by done.
  do 7 (destruct l as [|? l]; [done|]). simpl in Hlen. lia.
Qed.

(** X16: a record shorter than its header ends the log reader.  The
    records before it, each with its eight header bytes, are published in
    order; at the short one the coroutine fails, with [IndexError] if the
    record is empty and [struct.error] otherwise, and nothing that follows
    is published. *)
Theorem logs_reader_short_record cid name
    (good : list (Z * list byte)) now (bad : list byte)
    (later : list (option (Z * list byte))) :
  Forall (λ item, (8 ≤ length item.2)%nat) good →
  (length bad < 8)%nat →
  ∃ published,
    logs_reader cid name ((Some <$> good) ++ Some (now, bad) :: later)
    = (published,
       Failed (if bool_decide (bad = []) then IndexError else StructError)) ∧
    length published = length good ∧
    ∀ i item msg, good !! i = Some item → published !! i = Some msg →
      lm_now msg = item.1 ∧
      lm_data msg = utf8_decode (bval <$> drop 8 item.2).
Proof.
  intros Hgood Hbad. induction Hgood as [|[t rec] good Hrec _ IH]; csimpl.
  - exists []. rewrite (read_record_short cid name now bad Hbad).
    split_and!; [done..|]. by intros i item msg ?.
  - destruct IH as (published & -> & Hlen & Hitems).
    destruct (read_record_total cid name t rec Hrec) as (msg & Hmsg & Hdata).
    assert (lm_now msg = t) as Hnow.
    { revert Hmsg. unfold read_record. destruct rec as [|b0 rec]; [done|].
      destruct (unpack_be32 _); [|done]. by intros [= <-]. }
    rewrite Hmsg. exists (msg :: published). split_and!; [done|simpl; lia|].
    intros [|i] item msg' Hi Hp; simpl in *.
    + by simplify_eq.
    + by apply (Hitems i).
Qed.

(** X17: held ports are not offered.  After [hold_ports(ports)] the
    available ports are the ones available before without [ports],
    whatever the engine lists; holding the same ports again changes
    nothing. *)
Theorem available_after_hold dm engine (ports : list Z) :
  available_ports (hold_ports dm ports) engine
    = available_ports dm engine ∖ list_to_set ports ∧
  reserved_ports (hold_ports (hold_ports dm ports) ports)
    = reserved_ports (hold_ports dm ports).
Proof.
  split.
  - unfold available_ports.
    destruct (hold_ports_bounds dm ports) as [-> ->].
    rewrite hold_ports_reserved. set_solver.
  - rewrite !hold_ports_reserved. set_solver.
Qed.

End ReaderAndPool.

Lemma logs_reader_short_record_witness :
  ∃ published,
    Docker.logs_reader "c0ffee" "web"
      ((Some <$> [(1000, Docker.frame_bytes hello_frame)])
         ++ Some (1001, [x01; x00; x00]%byte)
         :: [Some (1002, Docker.frame_bytes hello_frame)])
    = (published, Docker.Failed StructError) ∧
    length published = 1%nat.
Proof.
  assert (Forall (λ item : Z * list byte, (8 ≤ length item.2)%nat)
            [(1000, Docker.frame_bytes hello_frame)]) as Hgood.
  { constructor; [simpl; lia | constructor]. }
  assert (length [x01; x00; x00]%byte < 8)%nat as Hbad by (simpl; lia).
  destruct (logs_reader_short_record "c0ffee" "web"
              [(1000, Docker.frame_bytes hello_frame)] 1001
              [x01; x00; x00]%byte
              [Some (1002, Docker.frame_bytes hello_frame)] Hgood Hbad)
    as (published & Hrun & Hlen & _).
  exists published. split; [exact Hrun | exact Hlen].
Defined.

(** * Records are never removed *)

Section NamesKept.

Import State.

Variable FRONTIER_SERVICE : string.
Variable SHARED_CONFIG_KEY : string.
Variables DEFAULT_COL DEFAULT_ROW : Z.
Variable set_env : gmap string string → gmap string string → gmap string string.
Variable is_active : ServiceState → bool.
Variable methods : ServiceState → list string.
Variable dumps : list string → string.
Variable hash : string → Z.

Local Abbreviation get := (State.get SHARED_CONFIG_KEY DEFAULT_COL DEFAULT_ROW set_env).
Local Abbreviation clean_worker :=
  (State.clean_worker FRONTIER_SERVICE SHARED_CONFIG_KEY DEFAULT_COL
     DEFAULT_ROW set_env is_active methods dumps hash).
Local Abbreviation perform :=
  (perform FRONTIER_SERVICE SHARED_CONFIG_KEY DEFAULT_COL DEFAULT_ROW set_env
     is_active methods dumps hash).

Implicit Types (w : world) (m : StateManager) (name : string).

(** The names of the table, in the order of the dict. *)
Definition names m : list string := (_state m).*1.

Definition names_extended : relation StateManager :=
  λ m m', ∃ added, names m' = names m ++ added.

Global Instance names_extended_preorder : PreOrder names_extended.
Proof.
  split.
  - intros m. exists []. by rewrite app_nil_r.
  - intros m1 m2 m3 [a1 H1] [a2 H2]. exists (a1 ++ a2).
    by rewrite H2, H1, (assoc_L (++)).
Qed.

Lemma names_touch name (f : ServiceState → ServiceState) m :
  names_extended m (touch name f m).
Proof.
  exists []. rewrite app_nil_r. unfold names, touch, update_svc. simpl.
  destruct (lookup_svc name (_state m)) as [s0|] eqn:E; [|done].
  by apply (store_svc_keys name _ s0).
Qed.

Lemma names_extended_kept : kept names_extended.
Proof.
  split; try (intros; by apply names_touch).
  - intros name meta m Hl. exists [name]. unfold names. simpl.
    by rewrite (store_svc_new name _ _ Hl), fmap_app.
  - intros cf m. exists []. unfold names. simpl. by rewrite app_nil_r.
  - intros h m. exists []. unfold names. simpl. by rewrite app_nil_r.
Qed.

(** X18: the service table only grows, and only at its end.  After
    [get], after any lifecycle operation and after any number of
    reconciler ticks, returned or raised, the names of the table are the
    names it had, in the same order, followed by the names of the records
    created on the way: no record is ever removed, renamed or moved. *)
Theorem table_only_grows m :
  (∀ w name ps, ∃ added, names (get w name ps m).1.1 = names m ++ added) ∧
  (∀ op w name, ∃ added, names (perform op w name m).1.1 = names m ++ added) ∧
  (∀ ticks, ∃ added, names (clean_worker ticks m).1.1 = names m ++ added).
Proof.
  split_and!.
  - intros w name ps.
    apply (respects_get SHARED_CONFIG_KEY DEFAULT_COL DEFAULT_ROW set_env
             names_extended names_extended_kept w name ps m).
  - intros op w name.
    apply (respects_perform FRONTIER_SERVICE SHARED_CONFIG_KEY DEFAULT_COL
             DEFAULT_ROW set_env is_active methods dumps hash
             names_extended names_extended_kept).
    intros n o m0. apply names_touch.
  - intros ticks.
    apply (respects_clean_worker FRONTIER_SERVICE SHARED_CONFIG_KEY DEFAULT_COL
             DEFAULT_ROW set_env is_active methods dumps hash
             names_extended names_extended_kept).
Qed.

End NamesKept.

(** * The config editor *)

Module ConfigEdit.

Set Warnings "-register-all".

(** A config document in full: a dict whose values are strings or nested
    dicts (the manager's [config] record holds the two fields that [get]
    reads).  A dict is the list of its items in insertion order. *)
Inductive doc : Type :=
  | Str (v : string)
  | Dict (items : list (string * doc)).

(** [d[k]], [d[k] = v] and [d.pop(k, None)] on a dict. *)
Fixpoint dict_get (k : string) (items : list (string * doc)) : option doc :=
  match items with
  | [] => None
  | (k', v) :: rest => if String.eqb k' k then Some v else dict_get k rest
  end.

Fixpoint dict_set (k : string) (v : doc) (items : list (string * doc))
    : list (string * doc) :=
  match items with
  | [] => [(k, v)]
  | (k', v') :: rest =>
      if String.eqb k' k then (k', v) :: rest else (k', v') :: dict_set k v rest
  end.

Fixpoint dict_pop (k : string) (items : list (string * doc))
    : list (string * doc) :=
  match items with
  | [] => []
  | (k', v') :: rest =>
      if String.eqb k' k then dict_pop k rest else (k', v') :: dict_pop k rest
  end.

(** [k.split('.')]: the pieces between the dots; never empty. *)
Fixpoint split_dot (k : string) : list string :=
  match k with
  | EmptyString => [EmptyString]
  | String c rest =>
      if Ascii.eqb c "."%char then EmptyString :: split_dot rest
      else match split_dot rest with
           | piece :: pieces => String c piece :: pieces
           | [] => [String c EmptyString]
           end
  end.

(** What the edit of one key can raise. *)
Inductive edit_exn : Type :=
  | EditKeyError (key : string)   (* target[p] with p missing *)
  | EditTypeError                 (* indexing or assigning into a str *)
  | EditAttributeError.           (* str has no pop *)

(** [v == '']. *)
Definition is_empty_str (v : doc) : bool :=
  match v with Str s => String.eqb s "" | Dict _ => false end.

(** The body of the loop of [update_config] for one key, from
    [target = config] on: walk [path], then pop or set [prop].  Python
    mutates the nested dict in place; here the changed dict is put back
    under its key on the way out. *)
Fixpoint edit (path : list string) (prop : string) (v : doc)
    (target : list (string * doc)) : edit_exn + list (string * doc) :=
  match path with
  | [] =>
      inr (if is_empty_str v then dict_pop prop target
           else dict_set prop v target)
  | p :: path' =>
      match dict_get p target with
      | None => inl (EditKeyError p)
      | Some (Dict sub) =>
          match edit path' prop v sub with
          | inl e => inl e
          | inr sub' => inr (dict_set p (Dict sub') target)
          end
      | Some (Str _) =>
          inl (match path' with
               | [] => if is_empty_str v then EditAttributeError
                       else EditTypeError
               | _ :: _ => EditTypeError
               end)
      end
  end.

(** [path = k.split('.'); prop = path.pop()] and the edit. *)
Definition edit_key (k : string) (v : doc) (config : list (string * doc))
    : edit_exn + list (string * doc) :=
  let path := split_dot k in
  edit (removelast path) (List.last path EmptyString) v config.

(** The [for k, v in keysvals.items()] loop: the config as far as it got,
    and the exception that stopped it, if any. *)
Fixpoint apply_edits (keysvals : list (string * doc))
    (config : list (string * doc)) : list (string * doc) * option edit_exn :=
  match keysvals with
  | [] => (config, None)
  | (k, v) :: rest =>
      match edit_key k v config with
      | inl e => (config, Some e)
      | inr config' => apply_edits rest config'
      end
  end.

(** A dict is true when it is not empty. *)
Definition truthy (loaded : option (list (string * doc))) : bool :=
  match loaded with Some (_ :: _) => true | _ => false end.

(** What [update_config] leaves: its result, the document handed to
    [save_config] (if it got there) and the manager's [_shared_config]. *)
Record outcome : Type := {
  out_result : edit_exn + list (string * doc);
  out_saved : option (string * list (string * doc));
  out_shared : option (list (string * doc))
}.

(** [update_config(name, keysvals)], given what [band_config.load_config]
    answers.  [load_config] caches a non-empty shared document in
    [_shared_config]; the loop then edits that very object. *)
Definition update_config (SHARED_CONFIG_KEY name : string)
    (loaded : option (list (string * doc)))
    (shared : option (list (string * doc)))
    (keysvals : list (string * doc)) : outcome :=
  let aliased := String.eqb name SHARED_CONFIG_KEY && truthy loaded in
  let config := if truthy loaded then default [] loaded else [] in
  match apply_edits keysvals config with
  | (config', Some e) =>
      {| out_result := inl e; out_saved := None;
         out_shared := if aliased then Some config' else shared |}
  | (config', None) =>
      {| out_result := inr config'; out_saved := Some (name, config');
         out_shared := if String.eqb name SHARED_CONFIG_KEY
                       then Some config' else shared |}
  end.

(** The value under a path of keys. *)
Fixpoint doc_at (path : list string) (d : doc) : option doc :=
  match path with
  | [] => Some d
  | p :: path' =>
      match d with
      | Dict items =>
          match dict_get p items with
          | Some sub => doc_at path' sub
          | None => None
          end
      | Str _ => None
      end
  end.

End ConfigEdit.

Section ConfigEditFacts.

Import ConfigEdit.

Implicit Types (k p prop : string) (v : doc) (items : list (string * doc)).
Implicit Types (path : list string).

Lemma dict_get_set_eq k v items : dict_get k (dict_set k v items) = Some v.
Proof.
  induction items as [|[k' v'] items IH]; simpl.
  - by rewrite String.eqb_refl.
  - destruct (String.eqb k' k) eqn:E; simpl; by rewrite E.
Qed.

Lemma dict_get_set_ne k k' v items :
  k ≠ k' → dict_get k' (dict_set k v items) = dict_get k' items.
Proof.
  intros Hne. induction items as [|[k0 v0] items IH]; simpl.
  - apply String.eqb_neq in Hne. by rewrite Hne.
  - destruct (String.eqb k0 k) eqn:E; simpl.
    + apply String.eqb_eq in E. subst k0.
      apply String.eqb_neq in Hne. by rewrite Hne.
    + by rewrite IH.
Qed.

Lemma dict_get_pop_eq k items : dict_get k (dict_pop k items) = None.
Proof.
  induction items as [|[k' v'] items IH]; simpl; [done|].
  destruct (String.eqb k' k) eqn:E; simpl; [done|]. by rewrite E.
Qed.

Lemma dict_get_pop_ne k k' items :
  k ≠ k' → dict_get k' (dict_pop k items) = dict_get k' items.
Proof.
  intros Hne. induction items as [|[k0 v0] items IH]; simpl; [done|].
  destruct (String.eqb k0 k) eqn:E; simpl.
  - apply String.eqb_eq in E. subst k0.
    apply String.eqb_neq in Hne. by rewrite Hne.
  - by rewrite IH.
Qed.

Lemma dict_pop_absent k items : dict_get k items = None → dict_pop k items = items.
Proof.
  induction items as [|[k' v'] items IH]; simpl; [done|].
  destruct (String.eqb k' k); [done|]. intros H. by rewrite IH.
Qed.

Lemma split_dot_nonempty k : split_dot k ≠ [].
Proof.
  induction k as [|c k IH]; simpl; [done|].
  destruct (Ascii.eqb c "."); [done|]. by destruct (split_dot k).
Qed.

(** Joining the pieces with dots gives the key back. *)
Lemma split_dot_join k : String.concat "." (split_dot k) = k.
Proof.
  induction k as [|c k IH]; simpl; [done|].
  destruct (Ascii.eqb_spec c ".") as [->|Hc].
  - destruct (split_dot k) as [|piece pieces] eqn:E.
    + by apply split_dot_nonempty in E.
    + rewrite <- IH. by destruct pieces.
  - destruct (split_dot k) as [|piece pieces] eqn:E.
    + by apply split_dot_nonempty in E.
    + rewrite <- IH. by destruct pieces.
Qed.

Lemma split_dot_parts k :
  removelast (split_dot k) ++ [List.last (split_dot k) EmptyString] = split_dot k.
Proof. symmetry. apply app_removelast_last, split_dot_nonempty. Qed.

Lemma edit_reads path prop v items items' :
  edit path prop v items = inr items' →
  doc_at (path ++ [prop]) (Dict items')
  = if is_empty_str v then None else Some v.
Proof.
  revert items items'. induction path as [|p path IH]; intros items items'; simpl.
  - intros [= <-]. destruct (is_empty_str v).
    + by rewrite dict_get_pop_eq.
    + by rewrite dict_get_set_eq.
  - destruct (dict_get p items) as [[s|sub]|] eqn:Hp; [done| |done].
    destruct (edit path prop v sub) as [e|sub'] eqn:He; [done|].
    intros [= <-]. rewrite dict_get_set_eq. by apply (IH sub).
Qed.

(** X19: the dotted key addresses the value.  When the edit of one key
    [k] with value [v] goes through, reading the edited document along
    the pieces of [k] gives [v]; if [v] is the empty string, the key is
    gone instead. *)
Theorem edit_key_reads k v (config config' : list (string * doc)) :
  edit_key k v config = inr config' →
  doc_at (split_dot k) (Dict config')
  = if is_empty_str v then None else Some v.
Proof.
  unfold edit_key. intros H%edit_reads. by rewrite split_dot_parts in H.
Qed.

(** Two paths part ways: after a common start they go on with different
    keys. *)
Definition diverge (q path : list string) : Prop :=
  ∃ common a b q' path',
    q = common ++ a :: q' ∧ path = common ++ b :: path' ∧ a ≠ b.

Lemma edit_frame path prop v items items' (q : list string) :
  edit path prop v items = inr items' →
  diverge q (path ++ [prop]) →
  doc_at q (Dict items') = doc_at q (Dict items).
Proof.
  revert items items' q.
  induction path as [|p path IH]; intros items items' q; simpl.
  - intros [= <-] (common & a & b & q' & path' & -> & Hp & Hne).
    destruct common as [|c common]; simpl in *.
    + injection Hp as <- _.
      destruct (is_empty_str v).
      * rewrite dict_get_pop_ne; [done | by intros ->].
      * rewrite dict_get_set_ne; [done | by intros ->].
    + injection Hp as _ Hp. by destruct common.
  - destruct (dict_get p items) as [[s|sub]|] eqn:Hget; [done| |done].
    destruct (edit path prop v sub) as [e|sub'] eqn:He; [done|].
    intros [= <-] (common & a & b & q' & path' & -> & Hp & Hne).
    destruct common as [|c common]; simpl in *.
    + injection Hp as <- _.
      rewrite dict_get_set_ne; [done | by intros ->].
    + injection Hp as <- Hp. rewrite dict_get_set_eq, Hget.
      apply (IH sub sub'); [done|]. by exists common, a, b, q', path'.
Qed.

(** X20: an edit touches one path only.  When the edit of key [k] goes
    through, every path that parts ways with the pieces of [k] reads the
    same in the edited document as before. *)
Theorem edit_key_frame k v (config config' : list (string * doc))
    (q : list string) :
  edit_key k v config = inr config' →
  diverge q (split_dot k) →
  doc_at q (Dict config') = doc_at q (Dict config).
Proof.
  unfold edit_key. intros He Hd. apply (edit_frame _ _ _ _ _ _ He).
  by rewrite split_dot_parts.
Qed.

Lemma apply_edits_app (done_ rest : list (string * doc))
    (config c1 : list (string * doc)) :
  apply_edits done_ config = (c1, None) →
  apply_edits (done_ ++ rest) config = apply_edits rest c1.
Proof.
  revert config. induction done_ as [|[k v] done_ IH]; intros config; simpl.
  - by intros [= ->].
  - destruct (edit_key k v config) as [e|config'']; [done|]. apply IH.
Qed.

(** X21: a failing key stops [update_config] half way.  If the keys
    before it were applied and the edit of key [k] raises, then
    [update_config] raises that exception and saves nothing; but when the
    document is the non-empty shared one, which [load_config] has cached
    in [_shared_config] before the loop, the cached document keeps the
    edits made before the failing key.  For any other document
    [_shared_config] is untouched. *)
Theorem update_config_stops (SHARED_CONFIG_KEY name : string)
    (loaded shared : option (list (string * doc)))
    (done_ rest : list (string * doc)) k v (c1 : list (string * doc)) e :
  apply_edits done_ (if truthy loaded then default [] loaded else [])
    = (c1, None) →
  edit_key k v c1 = inl e →
  update_config SHARED_CONFIG_KEY name loaded shared (done_ ++ (k, v) :: rest)
  = {| out_result := inl e; out_saved := None;
       out_shared := if String.eqb name SHARED_CONFIG_KEY && truthy loaded
                     then Some c1 else shared |}.
Proof.
  intros Hdone He. unfold update_config.
  rewrite (apply_edits_app _ _ _ _ Hdone). simpl. by rewrite He.
Qed.

(** X22: nested keys need their parents.  If the first piece of a dotted
    key is not in the document, the edit raises [KeyError] for that piece;
    in particular [update_config] for a name without a stored document
    raises on every dotted key, saves nothing and leaves [_shared_config]
    alone. *)
Theorem update_config_missing_parent (SHARED_CONFIG_KEY name : string)
    (shared : option (list (string * doc)))
    k v (rest : list (string * doc)) p (pieces : list string) :
  split_dot k = p :: pieces → pieces ≠ [] →
  (∀ config : list (string * doc),
     dict_get p config = None → edit_key k v config = inl (EditKeyError p)) ∧
  (∀ loaded, truthy loaded = false →
     update_config SHARED_CONFIG_KEY name loaded shared ((k, v) :: rest)
     = {| out_result := inl (EditKeyError p); out_saved := None;
          out_shared := shared |}).
Proof.
  intros Hk Hp.
  assert (∀ config : list (string * doc),
            dict_get p config = None → edit_key k v config = inl (EditKeyError p))
    as Hedit.
  { intros config Hget. unfold edit_key. rewrite Hk.
    destruct pieces as [|p2 pieces]; [done|].
    change (removelast (p :: p2 :: pieces)) with (p :: removelast (p2 :: pieces)).
    simpl edit. by rewrite Hget. }
  split; [done|]. intros loaded Hl.
  unfold update_config. rewrite Hl, andb_false_r. simpl.
  by rewrite (Hedit [] eq_refl).
Qed.

End ConfigEditFacts.

Definition stored_shared : list (string * ConfigEdit.doc) :=
  [("env", ConfigEdit.Dict [("PORT", ConfigEdit.Str "80")]);
   ("title", ConfigEdit.Str "fleet")].

Lemma edit_key_reads_witness :
  ConfigEdit.doc_at ["env"; "HOST"]
    (ConfigEdit.Dict
       [("env", ConfigEdit.Dict [("PORT", ConfigEdit.Str "80");
                                 ("HOST", ConfigEdit.Str "db")]);
        ("title", ConfigEdit.Str "fleet")])
  = Some (ConfigEdit.Str "db").
Proof.
  apply (edit_key_reads "env.HOST" (ConfigEdit.Str "db") stored_shared).
  reflexivity.
Defined.

Lemma edit_key_frame_witness :
  ConfigEdit.doc_at ["env"; "PORT"]
    (ConfigEdit.Dict
       [("env", ConfigEdit.Dict [("PORT", ConfigEdit.Str "80");
                                 ("HOST", ConfigEdit.Str "db")]);
        ("title", ConfigEdit.Str "fleet")])
  = ConfigEdit.doc_at ["env"; "PORT"] (ConfigEdit.Dict stored_shared).
Proof.
  apply (edit_key_frame "env.HOST" (ConfigEdit.Str "db") stored_shared);
    [reflexivity|].
  exists ["env"], "PORT", "HOST", [], []. by split_and!.
Defined.

Lemma update_config_stops_witness :
  ConfigEdit.update_config "shared" "shared" (Some stored_shared)
    (Some stored_shared)
    ([("title", ConfigEdit.Str "")] ++ ("pos.col", ConfigEdit.Str "1") :: [])
  = {| ConfigEdit.out_result := inl (ConfigEdit.EditKeyError "pos");
       ConfigEdit.out_saved := None;
       ConfigEdit.out_shared :=
         Some [("env", ConfigEdit.Dict [("PORT", ConfigEdit.Str "80")])] |}.
Proof.
  apply (update_config_stops "shared" "shared" (Some stored_shared)
           (Some stored_shared) [("title", ConfigEdit.Str "")] []
           "pos.col" (ConfigEdit.Str "1")
           [("env", ConfigEdit.Dict [("PORT", ConfigEdit.Str "80")])]
           (ConfigEdit.EditKeyError "pos")); reflexivity.
Defined.

Lemma update_config_missing_parent_witness :
  ConfigEdit.update_config "shared" "web" None (Some stored_shared)
    [("env.PORT", ConfigEdit.Str "8080")]
  = {| ConfigEdit.out_result := inl (ConfigEdit.EditKeyError "env");
       ConfigEdit.out_saved := None;
       ConfigEdit.out_shared := Some stored_shared |}.
Proof.
  apply (proj2 (update_config_missing_parent "shared" "web" (Some stored_shared)
                  "env.PORT" (ConfigEdit.Str "8080") [] "env" ["PORT"]
                  eq_refl ltac:(discriminate)) None eq_refl).
Defined.

(** * What a reconciler pass leaves in the table *)

Section ReconcilerPass.

Import State.

Variable SHARED_CONFIG_KEY : string.
Variables DEFAULT_COL DEFAULT_ROW : Z.
Variable set_env : gmap string string → gmap string string → gmap string string.

Local Abbreviation get := (State.get SHARED_CONFIG_KEY DEFAULT_COL DEFAULT_ROW set_env).
Local Abbreviation resolve_docstatus :=
  (State.resolve_docstatus SHARED_CONFIG_KEY DEFAULT_COL DEFAULT_ROW set_env).
Local Abbreviation resolve_docstatus_all :=
  (State.resolve_docstatus_all SHARED_CONFIG_KEY DEFAULT_COL DEFAULT_ROW set_env).

Implicit Types (w : world) (m : StateManager) (name : string).
Implicit Types (s : ServiceState) (ps : params).

(** What [get] returns is in the table under the name asked for. *)
Lemma get_returns w name ps m m1 tr svc :
  get w name ps m = (m1, tr, Return svc) →
  lookup_svc name (_state m1) = Some svc.
Proof.
  intros Hget.
  destruct (lookup_svc name (_state m)) as [s|] eqn:Hl.
  - rewrite (get_present SHARED_CONFIG_KEY DEFAULT_COL DEFAULT_ROW set_env
               w name ps m s Hl) in Hget.
    pose proof (place_step_returns (params_pos ps) name
                  (build_step ps name
                     (env_step set_env (env_layer (p_env ps)) name m)) svc) as H.
    rewrite Hget in H. by apply H.
  - destruct (w_load_config w name) as [cf|e] eqn:Hc.
    + destruct (w_image_meta w name) as [meta|e] eqn:Hm.
      * rewrite (get_new SHARED_CONFIG_KEY DEFAULT_COL DEFAULT_ROW set_env
                   w name ps m meta cf Hl Hc Hm) in Hget.
        pose proof (place_step_returns
                      (Some (wanted_for DEFAULT_COL DEFAULT_ROW
                               (params_pos ps) meta cf)) name
                      (build_step ps name
                         (env_step set_env
                            (stored_envs meta cf ++ env_layer (p_env ps)) name
                            (created SHARED_CONFIG_KEY name meta cf m))) svc) as H.
        rewrite Hget in H. by apply H.
      * destruct (get_collaborator_fails SHARED_CONFIG_KEY DEFAULT_COL
                    DEFAULT_ROW set_env w name ps m e Hl) as (m' & Hr & _).
        { right. by rewrite Hc. }
        rewrite Hr in Hget. discriminate Hget.
    + destruct (get_collaborator_fails SHARED_CONFIG_KEY DEFAULT_COL
                  DEFAULT_ROW set_env w name ps m e Hl) as (m' & Hr & _).
      { by left. }
      rewrite Hr in Hget. discriminate Hget.
Qed.

Lemma resolve_docstatus_record w name m m1 tr :
  resolve_docstatus w name m = (m1, tr, Return tt) →
  ∃ s, lookup_svc name (_state m1) = Some s ∧
       ∀ full_state, w_dock_get w name = Return (Some full_state) →
                     svc_dockstate s = Some full_state.
Proof.
  unfold State.resolve_docstatus, bind.
  destruct (get w name no_params m) as [[m0 tr0] [svc|e]] eqn:Hget; [|done].
  apply get_returns in Hget.
  unfold lift. destruct (w_dock_get w name) as [[fs|]|e]; [| |done].
  - rewrite run_on_svc. intros [= <- _].
    exists (with_dockstate (Some fs) svc).
    split; [by apply lookup_touch'|]. by intros ? [= ->].
  - simpl. intros [= <- _]. exists svc. split; [done|]. by intros ? [=].
Qed.

Lemma elem_names_lookup name m s :
  lookup_svc name (_state m) = Some s → name ∈ names m.
Proof.
  intros Hl%lookup_svc_elem. unfold names.
  apply list_elem_of_fmap. by exists (name, s).
Qed.

(** X23: a reconciler pass gives every listed container a record.  When
    [resolve_docstatus_all] returns, each container name that the engine
    listed is in the table; and a single [resolve_docstatus] that returns
    leaves on the record the engine state that [dock.get] reported, if it
    found the container. *)
Theorem resolve_docstatus_all_records w (conts : list string) m m' tr :
  w_containers w = Return conts →
  resolve_docstatus_all w m = (m', tr, Return tt) →
  (∀ name, name ∈ conts → name ∈ names m') ∧
  (∀ name m0 m1 tr1, resolve_docstatus w name m0 = (m1, tr1, Return tt) →
     ∃ s, lookup_svc name (_state m1) = Some s ∧
          ∀ full_state, w_dock_get w name = Return (Some full_state) →
                        svc_dockstate s = Some full_state).
Proof.
  intros Hc Hall. split; [|intros name m0 m1 tr1; apply resolve_docstatus_record].
  unfold State.resolve_docstatus_all in Hall.
  erewrite bind_step in Hall; [|unfold lift; by rewrite Hc].
  clear Hc. revert m tr Hall.
  induction conts as [|a conts IH]; intros m tr Hall name Hin.
  - by apply elem_of_nil in Hin.
  - simpl in Hall. unfold bind in Hall.
    destruct (resolve_docstatus w a m) as [[m1 tr1] [[]|e]] eqn:Ha; [|done].
    destruct (for_each conts (resolve_docstatus w) m1) as [[m2 tr2] r] eqn:Hrest.
    injection Hall as -> _ ->.
    apply elem_of_cons in Hin as [->|Hin].
    + destruct (resolve_docstatus_record w a m m1 tr1 Ha) as (s & Hs & _).
      apply elem_names_lookup in Hs.
      destruct (respects_for_each names_extended conts (resolve_docstatus w)
                  (respects_resolve_docstatus SHARED_CONFIG_KEY DEFAULT_COL
                     DEFAULT_ROW set_env names_extended names_extended_kept w) m1)
        as [added Hadded].
      rewrite Hrest in Hadded. simpl in Hadded. rewrite Hadded.
      apply elem_of_app. by left.
    + by apply (IH m1 tr2 Hrest).
Qed.

End ReconcilerPass.

(** The engine lists two containers and knows the state of the first. *)
Definition two_listed : State.world :=
  {| State.w_load_config := λ _, Return None;
     State.w_image_meta := λ _, Return None;
     State.w_set_add := λ _, Return tt;
     State.w_set_rm := λ _, Return tt;
     State.w_containers := Return ["web"; "db"];
     State.w_dock_get := λ n, if String.eqb n "web" then Return (Some "running")
                              else Return None;
     State.w_run_container := λ _, Return tt;
     State.w_remove_container := λ _, Return tt;
     State.w_stop_container := λ _, Return tt;
     State.w_start_container := λ _, Return tt;
     State.w_restart_container := λ _, Return tt;
     State.w_rpc_request := λ _, Return "ok";
     State.w_sleep := Return tt;
     State.w_sleep_tail := Return tt |}.

Lemma resolve_docstatus_all_records_witness :
  "db" ∈ names (State.resolve_docstatus_all "shared" 0 0 State.set_env_replace
                  two_listed State.init).1.1.
Proof.
  destruct (State.resolve_docstatus_all "shared" 0 0 State.set_env_replace
              two_listed State.init) as [[m' tr] r] eqn:E.
  assert (r = Return tt) as -> by (vm_compute in E; by injection E as _ _ <-).
  apply (proj1 (resolve_docstatus_all_records "shared" 0 0 State.set_env_replace
                  two_listed ["web"; "db"] State.init m' tr eq_refl E)).
  right. left.
Defined.
